(** * MyOpenNMT: encoder / decoder shape logic and embedding matching

    A shallow embedding of the tensor-shape management code of
    [onmt/Models.py] and of [my/preprocessing_embedding_pytorch.py].

    Tensors are nested lists in the order of their axes: a tensor of shape
    [seq_len x batch x feat] is a [list (list A)] whose elements of type [A]
    are the vectors along the last axis.  Python integers are [Z].  Code
    that can raise returns [option] (or a result type where the exception
    matters). *)

From Stdlib Require Import ZArith QArith Reals Lra Lia Ascii String.
From stdpp Require Import base option list list_numbers sorting strings gmap.

Local Close Scope Q_scope.
Local Close Scope R_scope.
Local Open Scope Z_scope.

(** ** Python and tensor primitives *)

Module Py.

(** [range(start, stop)] *)
Definition range (start stop : Z) : list Z := seqZ start (stop - start).

(** [range(start, stop, -1)] *)
Definition range_down (start stop : Z) : list Z :=
  (λ k, start - k) <$> seqZ 0 (start - stop).

(** [enumerate(l)] *)
Definition enumerate {A} (l : list A) : list (nat * A) := imap (λ i x, (i, x)) l.

End Py.

Module Tensor.

(** Element [k] of a list for a tensor index [k]: index tensors passed to
    [index_select] must be within [0, n). *)
Definition zlookup {A} (l : list A) (k : Z) : option A :=
  if bool_decide (0 ≤ k) then l !! Z.to_nat k else None.

(** [x.index_select(0, idx)] *)
Definition index_select0 {A} (x : list A) (idx : list Z) : option (list A) :=
  mapM (zlookup x) idx.

(** [x.index_select(1, idx)] *)
Definition index_select1 {A} (x : list (list A)) (idx : list Z)
  : option (list (list A)) :=
  mapM (λ row, index_select0 row idx) x.

(** [x[:, i]] : column [i] of a tensor whose first two axes are time and batch *)
Definition column {A} (x : list (list A)) (i : nat) : option (list A) :=
  mapM (λ row, row !! i) x.

(** [x.size(0)] and [x.size(1)].  Tensors of this code base never have an
    axis of extent zero, so the batch extent is read off the first row. *)
Definition size0 {A} (x : list (list A)) : nat := length x.
Definition size1 {A} (x : list (list A)) : nat :=
  match x with [] => 0%nat | row :: _ => length row end.

(** [torch.cat(cols, 1)] for a Python list of tensors of shape [s x 1 x f]
    given as columns; raises on an empty list. *)
Definition cat_columns {A} (s : nat) (cols : list (list A)) : option (list (list A)) :=
  match cols with
  | [] => None
  | _ => mapM (λ t, mapM (λ c : list A, c !! t) cols) (seq 0 s)
  end.

(** entry at time [t], batch [b] *)
Definition at2 {A} (x : list (list A)) (t b : nat) : option A :=
  x !! t ≫= (.!! b).

(** shape predicate [s x b] *)
Definition has_shape {A} (s b : nat) (x : list (list A)) : Prop :=
  length x = s ∧ Forall (λ row, length row = b) x.

(** broadcasting of one axis: an extent of 1 is repeated, any other
    extent must be the common one *)
Definition broadcast_extent (m n : nat) : nat := if bool_decide (m = 1%nat) then n else m.
Definition expand_to {A} (n : nat) (l : list A) : option (list A) :=
  if bool_decide (length l = n) then Some l
  else match l with [x] => Some (replicate n x) | _ => None end.

End Tensor.

(** ** [LuaBiRNNEncoder.forward.reverse] *)

Module LuaBiRNNEncoder.
Import Tensor.

Section reverse.
Context {A : Type}.

(** the index list built for batch element with true length [l] *)
Definition idx_reversed (l : Z) (s : nat) : list Z :=
  Py.range_down (l - 1) (-1) ++ Py.range l (Z.of_nat s).

Definition reverse_one (seq_data : list (list A)) (il : nat * Z) : option (list A) :=
  let '(i, l) := il in
  let idx := idx_reversed l (size0 seq_data) in
  (* assert len(idx_reversed) == seq_data.size(0) *)
  if bool_decide (length idx = size0 seq_data) then
    col ← column seq_data i;
    index_select0 col idx
  else None.

Definition reverse (seq_data_input : list (list A)) (lengths : list Z)
  : option (list (list A)) :=
  let seq_data := seq_data_input in
  data_reversed ← mapM (reverse_one seq_data) (Py.enumerate lengths);
  cat_columns (size0 seq_data) data_reversed.
End reverse.

(** ** [get_ans_posi] (the same text in [LuaBiRNNEncoder.forward] and in
    [PyBiRNNEncoder2.forward]) *)

(** [v.nonzero()] for a vector: the indices of the non-zero entries, in
    increasing order; [k] is the index of the head of [v]. *)
Fixpoint nonzero_from (k : Z) (v : list bool) : list Z :=
  match v with
  | [] => []
  | b :: v' => if b then k :: nonzero_from (k + 1) v' else nonzero_from (k + 1) v'
  end.
Definition nonzero (v : list bool) : list Z := nonzero_from 0 v.

(** [torch.cat((nz[0], nz[-1] + 1))] : indexing an empty [nonzero()] raises *)
Definition ans_span (nz : list Z) : option (Z * Z) :=
  first ← head nz;
  final ← last nz;
  Some (first, final + 1).

(** [torch.stack(spans, dim=1)] : a [2 x batch] tensor; raises on an empty list *)
Definition stack_spans (spans : list (Z * Z)) : option (list (list Z)) :=
  match spans with
  | [] => None
  | _ => Some [fst <$> spans; snd <$> spans]
  end.

(** [is_ans_feature == 3] *)
Definition is_ans_of (x : list (list Z)) : list (list bool) :=
  (λ row : list Z, (λ v : Z, bool_decide (v = 3)) <$> row) <$> x.

Definition get_ans_posi (is_ans_feature : list (list Z)) : option (list (list Z)) :=
  let is_ans := is_ans_of is_ans_feature in
  let batch_size := size1 is_ans in
  spans ← mapM (λ i, col ← column is_ans i; ans_span (nonzero col)) (seq 0 batch_size);
  stack_spans spans.

End LuaBiRNNEncoder.


(** ** Decoder state and beam search reordering *)

Module DecoderState.
Import Tensor.

Section state.
Context {A : Type}.

(** [RNNDecoderState]: the tuple [hidden] of tensors [layers x batch x dim],
    the input feed [1 x batch x dim] and the optional coverage. *)
Record RNNDecoderState := mkState {
  hidden : list (list (list A));
  input_feed : list (list A);
  coverage : option (list (list A))
}.

(** the property [_all] *)
Definition _all (st : RNNDecoderState) : list (list (list A)) :=
  hidden st ++ [input_feed st].

(** A Python index [idx] into an axis of extent [n]: negative indices
    count from the end. *)
Definition py_index (n idx : Z) : option nat :=
  if bool_decide (0 ≤ idx < n) then Some (Z.to_nat idx)
  else if bool_decide (- n ≤ idx < 0) then Some (Z.to_nat (idx + n))
  else None.

(** [sent_states.copy_(src)] on one layer [row] of [e]: slot [k] of the
    view [e.view(a, beam_size, nb, d)[:, :, idx]] is entry [k * nb + idx]
    of the batch axis. *)
Definition copy_into (nb idx : nat) (row src : list A) : list A :=
  foldl (λ r kv, <[(fst kv * nb + idx)%nat := snd kv]> r) row (Py.enumerate src).

Definition beam_update_row (beam_size nb idx : nat) (positions : list Z)
    (row : list A) : option (list A) :=
  (* the view [:, :, idx] of this layer *)
  sent_states ← mapM (λ k, row !! (k * nb + idx)%nat) (seq 0 beam_size);
  selected ← index_select0 sent_states positions;
  (* copy_ between tensors of different extent is not part of the model:
     beam search passes one position per beam *)
  if bool_decide (length selected = beam_size)
  then Some (copy_into nb idx row selected)
  else None.

Definition beam_update_tensor (idx : Z) (positions : list Z) (beam_size : Z)
    (e : list (list A)) : option (list (list A)) :=
  let br := Z.of_nat (size1 e) in
  (* br // beam_size raises on 0; view needs a valid shape with as many
     entries as e *)
  if bool_decide (0 < beam_size ∧ beam_size * (br `div` beam_size) = br) then
    let nb := br `div` beam_size in
    i ← py_index nb idx;
    mapM (beam_update_row (Z.to_nat beam_size) (Z.to_nat nb) i positions) e
  else None.

(** [beam_update]; the in-place mutation of every tensor of [_all] is
    returned as the new state. *)
Definition beam_update (idx : Z) (positions : list Z) (beam_size : Z)
    (st : RNNDecoderState) : option RNNDecoderState :=
  hidden' ← mapM (beam_update_tensor idx positions beam_size) (hidden st);
  input_feed' ← beam_update_tensor idx positions beam_size (input_feed st);
  Some (mkState hidden' input_feed' (coverage st)).
End state.
Arguments RNNDecoderState : clear implicits.

End DecoderState.

(** ** Python string operations used by the embedding matcher

    Text is modelled as a [string] of ASCII characters; bytes outside
    ASCII are left alone by [lower] and [upper] and are never white space. *)

Module PyStr.
Local Open Scope char_scope.

Definition is_space (c : ascii) : bool :=
  let n := nat_of_ascii c in
  ((9 <=? n) && (n <=? 13) || (28 <=? n) && (n <=? 32))%nat.

Definition lower_char (c : ascii) : ascii :=
  let n := nat_of_ascii c in
  if ((65 <=? n) && (n <=? 90))%nat then ascii_of_nat (n + 32) else c.

Definition upper_char (c : ascii) : ascii :=
  let n := nat_of_ascii c in
  if ((97 <=? n) && (n <=? 122))%nat then ascii_of_nat (n - 32) else c.

Fixpoint map_chars (f : ascii → ascii) (s : string) : string :=
  match s with
  | EmptyString => EmptyString
  | String c s' => String (f c) (map_chars f s')
  end.

(** [s.lower()], [s.upper()] *)
Definition lower : string → string := map_chars lower_char.
Definition upper : string → string := map_chars upper_char.

Fixpoint lstrip (s : string) : string :=
  match s with
  | String c s' => if is_space c then lstrip s' else s
  | EmptyString => EmptyString
  end.

Fixpoint rstrip (s : string) : string :=
  match s with
  | EmptyString => EmptyString
  | String c s' =>
      match rstrip s' with
      | EmptyString => if is_space c then EmptyString else String c EmptyString
      | r => String c r
      end
  end.

(** [s.strip()] *)
Definition strip (s : string) : string := rstrip (lstrip s).

(** [s.split(sep=c)] for a one-character separator: never empty, and
    adjacent separators delimit empty fields. *)
Fixpoint split (sep : ascii) (s : string) : list string :=
  match s with
  | EmptyString => [EmptyString]
  | String c s' =>
      if bool_decide (c = sep) then EmptyString :: split sep s'
      else match split sep s' with
           | f :: fs => String c f :: fs
           | [] => [String c EmptyString]
           end
  end.

End PyStr.

(** ** [match_embeddings] *)

Module EmbeddingMatch.

(** exceptions that leave [match_embeddings] *)
Inductive exn := UnboundLocalError | IndexError.

Inductive result (A : Type) :=
  | Ok (a : A)
  | Raise (e : exn).
Arguments Ok {A} a.
Arguments Raise {A} e.

(** the lines printed by the [except] branch ([CannotConvert] is the
    message of its [else] branch) *)
Inductive message :=
  | LenMismatch (len_vec : nat) (emb_dim : Z)
  | CannotConvert
  | EchoLine (line : string).

(** a torchtext vocabulary: [len(vocab)] and [vocab.stoi] *)
Record Vocab := mkVocab {
  vocab_len : nat;
  stoi : gmap string nat
}.

Section match_embeddings.
(** the type of floating point numbers and Python's [float(s)]
    ([None] when it raises [ValueError]) *)
Context {F : Type}.
Variable py_float : string → option F.

(** the variables of [match_embeddings] that the loop updates; [vec] is
    [None] as long as no assignment to it has been executed *)
Record locals := mkLocals {
  filtered_embeddings : list (list F);
  done_flag : list Z;
  vec : option (list F);
  printed : list message
}.

(** [filtered_embeddings[w_id] = vec; done_flag[w_id] = 1] *)
Definition assign (w_id : nat) (v : list F) (st : locals) : result locals :=
  if bool_decide (w_id < length (filtered_embeddings st))%nat then
    if bool_decide (w_id < length (done_flag st))%nat then
      Ok (mkLocals (<[w_id := v]> (filtered_embeddings st))
                   (<[w_id := 1]> (done_flag st)) (vec st) (printed st))
    else Raise IndexError
  else Raise IndexError.

(** [if done_flag[w_id] == 0: ...] of the two case-folding branches *)
Definition assign_if_free (w_id : nat) (v : list F) (st : locals) : result locals :=
  match done_flag st !! w_id with
  | None => Raise IndexError
  | Some flag => if bool_decide (flag = 0) then assign w_id v st else Ok st
  end.

(** the part of the loop body after the [try] statement *)
Definition match_word (vocab : Vocab) (w : string) (v : list F) (st : locals)
  : result locals :=
  match stoi vocab !! w with
  | Some w_id => assign w_id v st
  | None =>
      match stoi vocab !! PyStr.lower w with
      | Some w_id => assign_if_free w_id v st
      | None =>
          match stoi vocab !! PyStr.upper w with
          | Some w_id => assign_if_free w_id v st
          | None => Ok st
          end
      end
  end.

(** the [except] branch: [AssertionError] is a class and therefore true,
    so the first message is formatted, which reads [vec] *)
Definition handler (emb_dim : Z) (line : string) (st : locals) : result locals :=
  match vec st with
  | None => Raise UnboundLocalError
  | Some v =>
      Ok (mkLocals (filtered_embeddings st) (done_flag st) (vec st)
                   (printed st ++ [LenMismatch (length v) emb_dim; EchoLine line]))
  end.

(** [line_split[1:]] *)
Definition fields (line : string) : list string :=
  tail (PyStr.split " " (PyStr.strip line)).

(** one iteration of [for line in emb_file] *)
Definition step (vocab : Vocab) (emb_dim : Z) (st : locals) (line : string)
  : result locals :=
  let line_split := PyStr.split " " (PyStr.strip line) in
  let w := default EmptyString (head line_split) in
  match mapM py_float (fields line) with
  | None => handler emb_dim line st
  | Some v =>
      let st := mkLocals (filtered_embeddings st) (done_flag st) (Some v) (printed st) in
      if bool_decide (Z.of_nat (length v) = emb_dim)
      then match_word vocab w v st
      else handler emb_dim line st
  end.

Fixpoint loop (vocab : Vocab) (emb_dim : Z) (st : locals) (lines : list string)
  : result locals :=
  match lines with
  | [] => Ok st
  | line :: rest =>
      match step vocab emb_dim st line with
      | Ok st' => loop vocab emb_dim st' rest
      | Raise e => Raise e
      end
  end.

(** the dictionary [count] *)
Record counts := mkCounts { count_match : Z; count_miss : Z }.

(** [match_embeddings(vocab, opt)]: [random_init] is the matrix drawn by
    [np.random.uniform] ([len(vocab)] rows of [emb_dim] numbers) and
    [lines] the decoded lines of [opt.emb_file]. *)
Definition match_embeddings (vocab : Vocab) (emb_dim : Z)
    (random_init : list (list F)) (lines : list string)
  : result (list (list F) * counts * list message) :=
  let st0 := mkLocals random_init (replicate (vocab_len vocab) 0) None [] in
  match loop vocab emb_dim st0 lines with
  | Raise e => Raise e
  | Ok st =>
      let m := foldr Z.add 0 (done_flag st) in
      Ok (filtered_embeddings st, mkCounts m (Z.of_nat (vocab_len vocab) - m), printed st)
  end.
End match_embeddings.

(** Decimal literals [[-]digits[.digits]] read as rationals: the part of
    [float] that the examples below need. *)
Section decimal.
Local Open Scope char_scope.

Definition digit (c : ascii) : option Z :=
  let n := nat_of_ascii c in
  if ((48 <=? n) && (n <=? 57))%nat then Some (Z.of_nat (n - 48)) else None.

(** digits of [s] appended to the numeral [acc]; the count of digits read *)
Fixpoint digits (s : string) (acc : Z) (n : nat) : option (Z * nat * string) :=
  match s with
  | EmptyString => Some (acc, n, EmptyString)
  | String c s' =>
      match digit c with
      | Some d => digits s' (10 * acc + d) (S n)
      | None => Some (acc, n, s)
      end
  end.

Definition unsigned_decimal (s : string) : option Q :=
  '(int, n1, rest) ← digits s 0 0;
  match rest with
  | EmptyString => if bool_decide (n1 = 0%nat) then None else Some (inject_Z int)
  | String "." frac =>
      '(num, n, rest') ← digits frac int 0;
      match rest' with
      | EmptyString =>
          if bool_decide ((n1 + n)%nat = 0%nat) then None
          else Some (Qmake num (Z.to_pos (10 ^ Z.of_nat n)))
      | _ => None
      end
  | _ => None
  end.

Definition decimal_float (s : string) : option Q :=
  match s with
  | String "-" s' => Qopp <$> unsigned_decimal s'
  | String "+" s' => unsigned_decimal s'
  | _ => unsigned_decimal s
  end.
End decimal.

(** the vocabulary and the embedding file of the example of the
    specification *)
Definition example_vocab : Vocab :=
  mkVocab 3 (list_to_map [("Apple", 0%nat); ("table", 1%nat); ("UNK", 2%nat)]%string).
Definition example_lines : list string :=
  ["apple 0.1 0.2"; "TABLE 0.3 0.4"]%string.

(** a line is malformed when a field is not numeric or when the number of
    fields is not [emb_dim] *)
Definition malformed {F} (py_float : string → option F) (emb_dim : Z) (line : string)
  : Prop :=
  match mapM py_float (fields line) with
  | None => True
  | Some v => Z.of_nat (length v) ≠ emb_dim
  end.

End EmbeddingMatch.

(** ** [torch.sort] on a vector

    [torch.sort(x, dim=0, descending=d)] returns the sorted values and, for
    each of them, its index in [x].  The order of equal values is not
    fixed by the library, so the encoders are stated for any function that
    meets [is_sort_of]; [sort_with_indices] is one. *)

Module TorchSort.
Import Tensor.

Definition sort_order (descending : bool) : relation Z :=
  if descending then Z.ge else Z.le.

Definition is_sort_of (descending : bool) (x : list Z) (res : list Z * list Z) : Prop :=
  res.2 ≡ₚ seqZ 0 (Z.of_nat (length x)) ∧
  index_select0 x res.2 = Some res.1 ∧
  Sorted (sort_order descending) res.1.

Definition pair_order (descending : bool) : relation (Z * Z) :=
  λ p q, sort_order descending p.1 q.1.

Global Instance pair_order_dec d : RelDecision (pair_order d).
Proof. intros p q. destruct d; unfold pair_order, sort_order; apply _. Defined.

Definition sort_with_indices (descending : bool) (x : list Z) : list Z * list Z :=
  let ps := merge_sort (pair_order descending) (zip x (seqZ 0 (Z.of_nat (length x)))) in
  (fst <$> ps, snd <$> ps).

End TorchSort.

(** ** [MatchRNNEncoder.forward] (and the answer encoding it shares with
    [PyBiRNNEncoder3.forward])

    Floating point numbers are idealised as real numbers: rounding and
    overflow are not modelled.  The match layer is given twice.  First on
    numbers only, where [-inf] is the extra score [NegInf] and a softmax
    that is not a number is left out; then, for [forward], on values that
    are a number, an infinity or NaN, with the arithmetic of IEEE 754 on
    them, so that the NaN of a softmax over masked positions only flows
    on as it does in the program. *)

Module MatchRNNEncoder.
Import Tensor.

Inductive score := NegInf | Fin (r : R).

(** [x[:, :, 0] != 1] as a 0/1 tensor ([1] is the index of the padding word) *)
Definition not_blank (x : list (list (list Z))) : option (list (list Z)) :=
  mapM (mapM (λ feats : list Z,
                tok ← head feats; Some (if bool_decide (tok ≠ 1) then 1 else 0))) x.

(** [x.transpose(0, 1)] on the first two axes *)
Definition transpose {A} (x : list (list A)) : option (list (list A)) :=
  mapM (column x) (seq 0 (size1 x)).

Definition Rsum (l : list R) : R := foldr Rplus 0%R l.

Definition dot (u v : list R) : option R :=
  if bool_decide (length u = length v) then Some (Rsum (zip_with Rmult u v)) else None.

(** matrix product [n x k] by [k x p] *)
Definition matmul (m1 m2 : list (list R)) : option (list (list R)) :=
  cols ← transpose m2;
  mapM (λ r, mapM (dot r) cols) m1.

(** [x.bmm(y)] *)
Definition bmm (x y : list (list (list R))) : option (list (list (list R))) :=
  if bool_decide (length x = length y)
  then mapM (λ ab, matmul ab.1 ab.2) (zip x y)
  else None.

(** [scores.masked_fill_((1 - mask.unsqueeze(1).expand(scores.size())).byte(), -inf)] *)
Definition masked_fill_row (mask : list Z) (row : list R) : option (list score) :=
  if bool_decide (length row = length mask)
  then Some (zip_with (λ (s : R) (m : Z), if bool_decide (1 - m ≠ 0) then NegInf else Fin s)
                      row mask)
  else None.

Definition masked_fill (scores : list (list (list R))) (mask : list (list Z))
  : option (list (list (list score))) :=
  if bool_decide (length scores = length mask)
  then mapM (λ sm, mapM (masked_fill_row sm.2) sm.1) (zip scores mask)
  else None.

Definition exp_score (s : score) : R :=
  match s with NegInf => 0%R | Fin r => exp r end.

Definition is_neg_inf (s : score) : bool :=
  match s with NegInf => true | Fin _ => false end.

(** [F.softmax] along the last axis; a row of [-inf] only gives NaN, which
    is not a number of the model *)
Definition softmax_row (row : list score) : option (list R) :=
  if forallb is_neg_inf row then None
  else Some ((λ s, exp_score s / Rsum (exp_score <$> row))%R <$> row).

Definition softmax (scores : list (list (list score))) : option (list (list (list R))) :=
  mapM (mapM softmax_row) scores.

(** the attention weights [alpha] of the match layer *)
Definition attention (src_outputs1 ans_outputs : list (list (list R)))
    (ans_mask : list (list Z)) : option (list (list (list R))) :=
  BF_ans_mask ← transpose ans_mask;
  BF_src_outputs1 ← transpose src_outputs1;
  BF_ans_outputs ← transpose ans_outputs;
  BF_ans_outputs_T ← mapM transpose BF_ans_outputs;
  scores ← bmm BF_src_outputs1 BF_ans_outputs_T;
  scores ← masked_fill scores BF_ans_mask;
  softmax scores.

(** the match layer: [matched_seq] *)
Definition match_layer (src_outputs1 ans_outputs : list (list (list R)))
    (ans_mask : list (list Z)) : option (list (list (list R))) :=
  alpha ← attention src_outputs1 ans_outputs ans_mask;
  BF_ans_outputs ← transpose ans_outputs;
  BF_matched_seq ← bmm alpha BF_ans_outputs;
  transpose BF_matched_seq.

Definition sigmoid (x : R) : R := (1 / (1 + exp (- x)))%R.

(** *** Values that need not be numbers *)

Inductive flt := Num (r : R) | PInf | NInf | NaN.

Definition is_num (x : flt) : bool :=
  match x with Num _ => true | _ => false end.

(** [x + y] *)
Definition fadd (x y : flt) : flt :=
  match x, y with
  | NaN, _ | _, NaN => NaN
  | PInf, NInf | NInf, PInf => NaN
  | PInf, _ | _, PInf => PInf
  | NInf, _ | _, NInf => NInf
  | Num a, Num b => Num (a + b)
  end.

(** the product of an infinity, [+inf] if [positive], and the number [r] *)
Definition inf_times (positive : bool) (r : R) : flt :=
  if Req_EM_T r 0 then NaN
  else if Rlt_dec 0 r then (if positive then PInf else NInf)
       else (if positive then NInf else PInf).

(** [x * y] *)
Definition fmul (x y : flt) : flt :=
  match x, y with
  | NaN, _ | _, NaN => NaN
  | Num a, Num b => Num (a * b)
  | PInf, Num r | Num r, PInf => inf_times true r
  | NInf, Num r | Num r, NInf => inf_times false r
  | PInf, PInf | NInf, NInf => PInf
  | PInf, NInf | NInf, PInf => NInf
  end.

Definition fsum (l : list flt) : flt := foldr fadd (Num 0) l.

(** the numbers and the masked scores as values *)
Definition of_score (s : score) : flt :=
  match s with NegInf => NInf | Fin r => Num r end.
Definition nums (t : list (list (list R))) : list (list (list flt)) :=
  (fmap (M:=list) (fmap (M:=list) Num)) <$> t.

Definition dot_f (u v : list flt) : option flt :=
  if bool_decide (length u = length v) then Some (fsum (zip_with fmul u v)) else None.

Definition matmul_f (m1 m2 : list (list flt)) : option (list (list flt)) :=
  cols ← transpose m2;
  mapM (λ r, mapM (dot_f r) cols) m1.

(** [x.bmm(y)] *)
Definition bmm_f (x y : list (list (list flt))) : option (list (list (list flt))) :=
  if bool_decide (length x = length y)
  then mapM (λ ab, matmul_f ab.1 ab.2) (zip x y)
  else None.

(** [masked_fill_] with [-inf] *)
Definition masked_fill_row_f (mask : list Z) (row : list flt) : option (list flt) :=
  if bool_decide (length row = length mask)
  then Some (zip_with (λ (s : flt) (m : Z), if bool_decide (1 - m ≠ 0) then NInf else s)
                      row mask)
  else None.

Definition masked_fill_f (scores : list (list (list flt))) (mask : list (list Z))
  : option (list (list (list flt))) :=
  if bool_decide (length scores = length mask)
  then mapM (λ sm, mapM (masked_fill_row_f sm.2) sm.1) (zip scores mask)
  else None.

Definition exp_f (s : flt) : R :=
  match s with Num r => exp r | _ => 0%R end.

(** [F.softmax] along the last axis, [exp(x - max) / sum(exp(x - max))]:
    NaN throughout when the row holds a NaN or [+inf], or nothing but
    [-inf]; else every [-inf] gets the weight 0 *)
Definition softmax_row_f (row : list flt) : list flt :=
  if existsb (λ s, match s with NaN | PInf => true | _ => false end) row
     || forallb (λ s, match s with NInf => true | _ => false end) row
  then (λ _, NaN) <$> row
  else (λ s, Num (exp_f s / Rsum (exp_f <$> row))%R) <$> row.

Definition softmax_f (scores : list (list (list flt))) : list (list (list flt)) :=
  (fmap (M:=list) softmax_row_f) <$> scores.

Definition attention_f (src_outputs1 ans_outputs : list (list (list flt)))
    (ans_mask : list (list Z)) : option (list (list (list flt))) :=
  BF_ans_mask ← transpose ans_mask;
  BF_src_outputs1 ← transpose src_outputs1;
  BF_ans_outputs ← transpose ans_outputs;
  BF_ans_outputs_T ← mapM transpose BF_ans_outputs;
  scores ← bmm_f BF_src_outputs1 BF_ans_outputs_T;
  scores ← masked_fill_f scores BF_ans_mask;
  Some (softmax_f scores).

Definition match_layer_f (src_outputs1 ans_outputs : list (list (list flt)))
    (ans_mask : list (list Z)) : option (list (list (list flt))) :=
  alpha ← attention_f src_outputs1 ans_outputs ans_mask;
  BF_ans_outputs ← transpose ans_outputs;
  BF_matched_seq ← bmm_f alpha BF_ans_outputs;
  transpose BF_matched_seq.

Definition sigmoid_f (x : flt) : flt :=
  match x with
  | Num r => Num (sigmoid r)
  | PInf => Num 1
  | NInf => Num 0
  | NaN => NaN
  end.

(** [torch.cat([x, y], dim=2)] *)
Definition cat2 {A} (x y : list (list (list A))) : option (list (list (list A))) :=
  if bool_decide (length x = length y ∧
                  Forall2 (λ r1 r2 : list (list A), length r1 = length r2) x y)
  then Some (zip_with (zip_with app) x y)
  else None.

(** [torch.cat([x, y], dim=0)] : the matrices joined must have one shape *)
Definition cat0 {A} (x y : list (list (list A))) : option (list (list (list A))) :=
  match x ++ y with
  | [] => Some []
  | m :: _ =>
      if bool_decide (Forall (Forall2 (λ r1 r2 : list A, length r1 = length r2) m) (x ++ y))
      then Some (x ++ y) else None
  end.

(** [u * v] for two vectors, with broadcasting *)
Definition vmul (u v : list flt) : option (list flt) :=
  let n := broadcast_extent (length u) (length v) in
  u' ← expand_to n u;
  v' ← expand_to n v;
  Some (zip_with fmul u' v').

(** [x * y] for two tensors with the same first two extents, as [gate]
    and [src_outputs1] have: only the last axis can be broadcast *)
Definition mul3 (x y : list (list (list flt))) : option (list (list (list flt))) :=
  if bool_decide (Forall2 (λ r1 r2 : list (list flt), length r1 = length r2) x y)
  then mapM (λ rr, mapM (λ uv, vmul uv.1 uv.2) (zip rr.1 rr.2)) (zip x y)
  else None.

(** [t * 0] *)
Definition times_zero (t : list (list (list flt))) : list (list (list flt)) :=
  (λ m : list (list flt), (λ v : list flt, (λ x, fmul x (Num 0)) <$> v) <$> m) <$> t.

(** the entry [z] of [t * 0] at an entry [x] of [t] *)
Definition zeroed (x z : flt) : Prop := z = if is_num x then Num 0 else NaN.

(** every vector of a tensor has [d] coordinates *)
Definition vec_dim (d : nat) (x : list (list (list R))) : Prop :=
  Forall (Forall (λ v : list R, length v = d)) x.

(** [w] is a vector of attention weights over the [a] answer positions of
    batch element [b]: zero on the masked positions, non-negative, of sum
    one *)
Definition weights_ok (mask : list (list Z)) (a b : nat) (w : list R) : Prop :=
  length w = a ∧
  (∀ (j : nat) (m : Z), at2 mask j b = Some m → m ≠ 1 → w !! j = Some 0%R) ∧
  Forall (λ r, (0 <= r)%R) w ∧ Rsum w = 1%R.

(** [_check_args] : the batch extents of the input and of the lengths agree *)
Definition check_args {A} (input : list (list A)) (lengths : list Z) : option unit :=
  if bool_decide (size1 input = length lengths) then Some () else None.

Section forward.
(** the library components of the encoder.  A recurrent network stands
    for [pack], the LSTM started from the argument [hidden] of [forward]
    and [unpack]: from the padded input and the lengths to the padded
    outputs and the final [(h, c)]; it raises where [pack] does. *)
Definition lstm : Type :=
  list (list (list flt)) → list Z →
  option (list (list (list flt)) * (list (list (list flt)) * list (list (list flt)))).
Variable torch_sort : bool → list Z → list Z * list Z.
Variable embeddings : list (list (list Z)) → list (list (list flt)).
Variables bi_rnn1 bi_rnn2 ans_bi_rnn : lstm.
Variable fc1 : list flt → list flt.
Variable dropout : list (list (list flt)) → list (list (list flt)).

(** the answer encoding, "2. _forward_padded" *)
Definition answer_encoding (ans_emb : list (list (list flt))) (ans_lengths : list Z)
  : option (list (list (list flt)) * (list (list (list flt)) * list (list (list flt)))) :=
  let '(sorted_ans_lengths, idx_sort) := torch_sort true ans_lengths in
  let '(_, idx_unsort) := torch_sort false idx_sort in
  ans_emb ← index_select1 ans_emb idx_sort;
  '(ans_outputs, ans_hidden) ← ans_bi_rnn ans_emb sorted_ans_lengths;
  ans_outputs ← index_select1 ans_outputs idx_unsort;
  h ← index_select1 ans_hidden.1 idx_unsort;
  c ← index_select1 ans_hidden.2 idx_unsort;
  Some (ans_outputs, (h, c)).

(** everything before the final state is assembled:
    [(src_hidden_t1, src_hidden_t2, src_outputs2)] *)
Definition forward_body (input : list (list (list Z)) * list (list (list Z)))
    (lengths : list Z * list Z)
  : option ((list (list (list flt)) * list (list (list flt))) *
            (list (list (list flt)) * list (list (list flt))) *
            list (list (list flt))) :=
  let '(src_input, ans_input) := input in
  src_mask ← not_blank src_input;
  ans_mask ← not_blank ans_input;
  let '(src_lengths, ans_lengths) := lengths in
  _ ← check_args src_input src_lengths;
  _ ← check_args ans_input ans_lengths;
  let src_emb := embeddings src_input in
  let ans_emb := embeddings ans_input in
  '(src_outputs1, src_hidden_t1) ← bi_rnn1 src_emb src_lengths;
  let src_outputs1 := dropout src_outputs1 in
  '(ans_outputs, ans_hidden) ← answer_encoding ans_emb ans_lengths;
  matched_seq ← match_layer_f src_outputs1 ans_outputs ans_mask;
  joined ← cat2 src_outputs1 matched_seq;
  let gate_src_outs1 :=
    (λ row : list (list flt), (λ v : list flt, sigmoid_f <$> fc1 v) <$> row) <$> joined in
  gated_src_outputs1 ← mul3 gate_src_outs1 src_outputs1;
  let src_outputs1 := gated_src_outputs1 in
  '(src_outputs2, src_hidden_t2) ← bi_rnn2 src_outputs1 src_lengths;
  Some (src_hidden_t1, src_hidden_t2, src_outputs2).

Definition forward (input : list (list (list Z)) * list (list (list Z)))
    (lengths : list Z * list Z)
  : option ((list (list (list flt)) * list (list (list flt))) * list (list (list flt))) :=
  '(src_hidden_t1, src_hidden_t2, src_outputs2) ← forward_body input lengths;
  h ← cat0 src_hidden_t1.1 src_hidden_t2.1;
  c ← cat0 src_hidden_t1.2 src_hidden_t2.2;
  let hidden_t := (times_zero h, times_zero c) in
  Some (hidden_t, src_outputs2).
End forward.

(** a linear layer with one output, all weights 1 and no bias, and a
    recurrent network whose outputs and final state are its input, used
    as examples *)
Definition example_fc1 (v : list flt) : list flt := [fsum v].
Definition example_rnn : lstm := λ x _, Some (x, (x, x)).

End MatchRNNEncoder.

(** ** Decoders and the top-level models *)

Module Decoder.
Import Tensor DecoderState.

(** the final encoder state: a tuple [(h, c)] for an LSTM, one tensor for a GRU *)
Inductive enc_state :=
  | StateTuple (hs : list (list (list (list R))))
  | StateTensor (h : list (list (list R))).

Inductive decoder_kind := StdRNNDecoder | InputFeedRNNDecoder.

(** [h[start:n:2]] *)
Fixpoint every_other {A} (take_head : bool) (l : list A) : list A :=
  match l with
  | [] => []
  | x :: l' => if take_head then x :: every_other false l' else every_other true l'
  end.

(** [l[-1]] and [l[:-1]] on Python lists and on the first axis of tensors *)
Definition py_last {A} (l : list A) : option A := last l.
Definition drop_last {A} (l : list A) : list A := take (length l - 1) l.

(** [n] consecutive groups of [m] elements of [flat] *)
Fixpoint chunks {A} (n m : nat) (flat : list A) : list (list A) :=
  match n with
  | O => []
  | S n' => take m flat :: chunks n' m (drop m flat)
  end.

(** [x.view(n, m, h)] of a matrix [x]: its entries in row-major order,
    regrouped; raises unless there are [n * m * h] of them *)
Definition view3 {A} (n m h : nat) (x : list (list A)) : option (list (list (list A))) :=
  let flat := concat x in
  if bool_decide (length flat = (n * m * h)%nat)
  then Some (chunks n m (chunks (n * m) h flat))
  else None.

(** two matrices of one shape *)
Definition same_shape {A} (x y : list (list A)) : Prop :=
  Forall2 (λ r1 r2 : list A, length r1 = length r2) x y.

(** [torch.stack(l)] : raises on an empty sequence and on tensors of
    different shapes *)
Definition stack {A} (l : list (list (list A))) : option (list (list (list A))) :=
  match l with
  | [] => None
  | x :: _ =>
      if bool_decide (Forall (Forall2 (λ r1 r2 : list A, length r1 = length r2) x) l)
      then Some l else None
  end.

(** [torch.cat([x, y], 1)] : the extents of the first axis must agree *)
Definition cat1 {A} (x y : list (list A)) : option (list (list A)) :=
  if bool_decide (length x = length y) then Some (zip_with app x y) else None.

(** [x + y] for two matrices *)
Definition tensor_add (x y : list (list R)) : option (list (list R)) :=
  let rows := broadcast_extent (length x) (length y) in
  let cols := broadcast_extent (size1 x) (size1 y) in
  x' ← mapM (expand_to cols) x ≫= expand_to rows;
  y' ← mapM (expand_to cols) y ≫= expand_to rows;
  Some (zip_with (zip_with Rplus) x' y').

(** a tensor of shape [n x b x d] *)
Definition has_shape3 {A} (n b d : nat) (x : list (list (list A))) : Prop :=
  has_shape n b x ∧ Forall (Forall (λ v : list A, length v = d)) x.

(** a decoder object: its attributes and its sub-modules.  [embeddings]
    maps [len x batch x nfeat] indices to [len x batch x dim] vectors;
    [rnn_cell] is the stacked cell of the input feeding decoder and
    [rnn_seq] the batched network of the standard one; [attn] and
    [copy_attn] are [GlobalAttention] applied to one time step
    ([batch x dim]) and [attn_seq] is [attn] applied to a whole sequence. *)
Record decoder := mkDecoder {
  kind : decoder_kind;
  bidirectional_encoder : bool;
  hidden_size : nat;
  _copy : bool;
  _coverage : bool;
  embeddings : list (list (list Z)) → list (list (list R));
  rnn_cell : list (list R) → list (list (list (list R))) →
             list (list R) * list (list (list (list R)));
  rnn_seq : list (list (list R)) → list (list (list (list R))) →
            list (list (list R)) * list (list (list (list R)));
  attn : list (list R) → list (list (list R)) → list Z → list (list R) * list (list R);
  copy_attn : list (list R) → list (list (list R)) → list Z →
              list (list R) * list (list R);
  attn_seq : list (list (list R)) → list (list (list R)) → list Z →
             list (list (list R)) * list (list (list R));
  context_gate :
    option (list (list R) → list (list R) → list (list R) → list (list R));
  dropout : list (list R) → list (list R)
}.

Section decoder.
Variable self : decoder.

(** what the decoder relies on from its sub-modules: [Embeddings] keeps
    the time and batch extents; the stacked cell returns one vector of
    [hidden_size] per batch element and the batched network one output
    per time step and batch element; [GlobalAttention] on one step (a
    query of [batch] vectors and a context [batch x src_len x dim])
    returns an output [batch x hidden_size] and scores
    [batch x src_len], and on a query [batch x len x dim] outputs
    [len x batch x hidden_size] and scores [len x batch x src_len]; a
    context gate returns one vector of [hidden_size] per input row;
    dropout keeps the shape *)
Record module_contracts : Prop := {
  embeddings_shape : ∀ x s b, has_shape s b x → has_shape s b (embeddings self x);
  rnn_cell_shape : ∀ x h, has_shape (length x) (hidden_size self) (rnn_cell self x h).1;
  rnn_seq_shape : ∀ x h s b, has_shape s b x → has_shape s b (rnn_seq self x h).1;
  attn_shape : ∀ q c l b s, length q = b → has_shape b s c →
    has_shape b (hidden_size self) (attn self q c l).1 ∧
    has_shape b s (attn self q c l).2;
  copy_attn_shape : ∀ q c l b s, length q = b → has_shape b s c →
    has_shape b s (copy_attn self q c l).2;
  attn_seq_shape : ∀ q c l n b s, (0 < b)%nat → has_shape b n q → has_shape b s c →
    has_shape3 n b (hidden_size self) (attn_seq self q c l).1 ∧
    has_shape3 n b s (attn_seq self q c l).2;
  context_gate_shape : ∀ gate, context_gate self = Some gate →
    ∀ e r a, has_shape (length e) (hidden_size self) (gate e r a);
  dropout_shape : ∀ x b h, has_shape b h x → has_shape b h (dropout self x)
}.

(** a decoder state handed to [forward]: the input feed is
    [1 x batch x dim] and the coverage, if any, [1 x batch x src_len] *)
Definition state_ok (batch src_len : nat) (st : RNNDecoderState (list R)) : Prop :=
  (∃ o, input_feed st = [o] ∧ length o = batch) ∧
  (coverage st = None ∨ ∃ c, coverage st = Some [c] ∧ has_shape batch src_len c).

(** a final encoder state that [_fix_enc_hidden] accepts: for a
    bidirectional encoder the layer axis holds both directions of every
    layer *)
Definition enc_state_ok (enc_hidden : enc_state) : Prop :=
  bidirectional_encoder self = true →
  match enc_hidden with
  | StateTuple hs => Forall (λ h, ∃ n, length h = (2 * n)%nat) hs
  | StateTensor h => ∃ n, length h = (2 * n)%nat
  end.

(** the attention kinds that the decoder records *)
Definition attn_kind (k : string) : Prop :=
  k = "std"%string ∨ (k = "coverage"%string ∧ _coverage self = true) ∨
  (k = "copy"%string ∧ _copy self = true).

(** the dictionary [attns] holds [n] steps for each of these kinds, and
    nothing else *)
Definition attns_have_steps (n : nat) (attns : gmap string (list (list (list R)))) : Prop :=
  ∀ k, match attns !! k with
       | Some v => length v = n ∧ attn_kind k
       | None => ¬ attn_kind k
       end.

(** [_fix_enc_hidden] *)
Definition _fix_enc_hidden (h : list (list (list R))) : option (list (list (list R))) :=
  if bidirectional_encoder self then
    let evens := every_other true h in
    let odds := every_other false h in
    if bool_decide (length evens = length odds)
    then Some (zip_with (zip_with app) evens odds)
    else None
  else Some h.

(** [RNNDecoderState.__init__] *)
Definition new_state (context : list (list (list R)))
    (rnnstate : list (list (list (list R)))) : RNNDecoderState (list R) :=
  let batch_size := size1 context in
  mkState rnnstate [replicate batch_size (replicate (hidden_size self) 0%R)] None.

Definition init_decoder_state (context : list (list (list R))) (enc_hidden : enc_state)
  : option (RNNDecoderState (list R)) :=
  match enc_hidden with
  | StateTuple hs => new_state context <$> mapM _fix_enc_hidden hs
  | StateTensor h => (λ h', new_state context [h']) <$> _fix_enc_hidden h
  end.

(** the results of [_run_forward_pass]: [(hidden, outputs, attns, coverage)] *)
Record pass := mkPass {
  p_hidden : list (list (list (list R)));
  p_outputs : list (list (list R));
  p_attns : gmap string (list (list (list R)));
  p_coverage : option (list (list R))
}.

(** [attns[k] += [a]] *)
Definition append_attn (k : string) (a : list (list R))
    (attns : gmap string (list (list (list R)))) : gmap string (list (list (list R))) :=
  <[k := default [] (attns !! k) ++ [a]]> attns.

(** one iteration of the loop of [InputFeedRNNDecoder._run_forward_pass];
    [output] is the loop-carried previous output *)
Definition feed_step (context_T : list (list (list R))) (context_lengths : list Z)
    (acc : pass * list (list R)) (emb_t : list (list R))
  : option (pass * list (list R)) :=
  let '(p, output) := acc in
  emb_t ← cat1 emb_t output;
  let '(rnn_output, hidden) := rnn_cell self emb_t (p_hidden p) in
  let '(attn_output, a) := attn self rnn_output context_T context_lengths in
  let output :=
    match context_gate self with
    | Some gate => dropout self (gate emb_t rnn_output attn_output)
    | None => dropout self attn_output
    end in
  let outputs := p_outputs p ++ [output] in
  let attns := append_attn "std" a (p_attns p) in
  '(coverage, attns) ←
    (if _coverage self then
       coverage ← match p_coverage p with
                  | Some c => tensor_add c a
                  | None => Some a
                  end;
       Some (Some coverage, append_attn "coverage" coverage attns)
     else Some (p_coverage p, attns));
  let attns :=
    if _copy self
    then append_attn "copy" (copy_attn self output context_T context_lengths).2 attns
    else attns in
  Some (mkPass hidden outputs attns coverage, output).

(** the results of [n] steps on a batch of [b] sentences with [s] source
    positions: [n] outputs [b x hidden_size] and, for every recorded kind
    of attention, [n] score matrices [b x s] *)
Definition pass_ok (n b s : nat) (p : pass) : Prop :=
  length (p_outputs p) = n ∧ Forall (has_shape b (hidden_size self)) (p_outputs p) ∧
  attns_have_steps n (p_attns p) ∧
  ∀ k v, p_attns p !! k = Some v → Forall (has_shape b s) v.

(** the loop-carried output and coverage *)
Definition feed_ok (b s : nat) (p : pass) (output : list (list R)) : Prop :=
  length output = b ∧
  (p_coverage p = None ∨ ∃ c, p_coverage p = Some c ∧ has_shape b s c).

(** the loop over the time steps of the embedded input *)
Definition feed_loop (context_T : list (list (list R))) (context_lengths : list Z)
    (acc : pass * list (list R)) (emb : list (list (list R)))
  : option (pass * list (list R)) :=
  foldl (λ acc emb_t, acc ≫= λ a, feed_step context_T context_lengths a emb_t)
        (Some acc) emb.

Definition squeeze0 {A} (x : list A) : option A :=
  match x with [a] => Some a | _ => None end.

Definition input_feed_run_forward_pass (input : list (list (list Z)))
    (context : list (list (list R))) (state : RNNDecoderState (list R))
    (context_lengths : list Z) : option pass :=
  output ← squeeze0 (input_feed state);
  (* aeq(input_batch, output_batch) *)
  if bool_decide (size1 input = length output) then
    let attns : gmap string (list (list (list R))) := {["std" := []]} in
    let attns := if _copy self then <["copy" := []]> attns else attns in
    let attns := if _coverage self then <["coverage" := []]> attns else attns in
    let emb := embeddings self input in
    (* state.coverage.squeeze(0): a coverage is [1 x batch x src_len] *)
    coverage ← match coverage state with
               | Some c => Some <$> squeeze0 c
               | None => Some None
               end;
    context_T ← MatchRNNEncoder.transpose context;
    fst <$> feed_loop context_T context_lengths
              (mkPass (hidden state) [] attns coverage, output) emb
  else None.

Definition std_run_forward_pass (input : list (list (list Z)))
    (context : list (list (list R))) (state : RNNDecoderState (list R))
    (context_lengths : list Z) : option pass :=
  if _copy self || _coverage self then None else
  let emb := embeddings self input in
  let '(rnn_output, hidden) := rnn_seq self emb (hidden state) in
  (* aeq(input_len, output_len); aeq(input_batch, output_batch) *)
  if bool_decide (size0 input = size0 rnn_output ∧ size1 input = size1 rnn_output) then
    rnn_output_T ← MatchRNNEncoder.transpose rnn_output;
    context_T ← MatchRNNEncoder.transpose context;
    let '(attn_outputs, attn_scores) :=
      attn_seq self rnn_output_T context_T context_lengths in
    let attns : gmap string (list (list (list R))) := {["std" := attn_scores]} in
    (* the gate acts on the [len * batch] rows of the flattened tensors;
       its result is viewed as [input_len x input_batch x hidden_size] *)
    outputs ← match context_gate self with
              | Some gate =>
                  view3 (size0 input) (size1 input) (hidden_size self)
                        (gate (concat emb) (concat rnn_output) (concat attn_outputs))
              | None => Some attn_outputs
              end;
    Some (mkPass hidden (dropout self <$> outputs) attns None)
  else None.

Definition _run_forward_pass (input : list (list (list Z)))
    (context : list (list (list R))) (state : RNNDecoderState (list R))
    (context_lengths : list Z) : option pass :=
  match kind self with
  | StdRNNDecoder => std_run_forward_pass input context state context_lengths
  | InputFeedRNNDecoder => input_feed_run_forward_pass input context state context_lengths
  end.

(** [RNNDecoderBase.forward]: [(outputs, state, attns)] *)
Definition decoder_forward (input : list (list (list Z)))
    (context : list (list (list R))) (state : RNNDecoderState (list R))
    (context_lengths : list Z)
  : option (list (list (list R)) * RNNDecoderState (list R) *
            gmap string (list (list (list R)))) :=
  (* aeq(input_batch, contxt_batch) *)
  if bool_decide (size1 input = size1 context) then
    p ← _run_forward_pass input context state context_lengths;
    final_output ← py_last (p_outputs p);
    let state := mkState (p_hidden p) [final_output] ((λ c, [c]) <$> p_coverage p) in
    outputs ← stack (p_outputs p);
    (* for k in attns: attns[k] = torch.stack(attns[k]) *)
    if bool_decide (map_Forall (λ _ v, is_Some (stack v)) (p_attns p))
    then Some (outputs, state, p_attns p)
    else None
  else None.

(** the body shared by [NMTModel.forward] and [SelEncNMTModel.forward]
    once the encoder has been called *)
Definition run_decoder (multigpu : bool) (tgt : list (list (list Z)))
    (enc_hidden : enc_state) (context : list (list (list R)))
    (lengths : list Z) (dec_state : option (RNNDecoderState (list R)))
  : option (list (list (list R)) * option (gmap string (list (list (list R)))) *
            option (RNNDecoderState (list R))) :=
  enc_state ← init_decoder_state context enc_hidden;
  '(out, dec_state, attns) ←
    decoder_forward tgt context (default enc_state dec_state) lengths;
  if multigpu then Some (out, None, None) else Some (out, Some attns, Some dec_state).

(** [NMTModel.forward] for an encoder [encoder] *)
Definition NMTModel_forward {Src : Type}
    (encoder : Src → list Z → option (enc_state * list (list (list R))))
    (multigpu : bool) (src : Src) (tgt : list (list (list Z))) (lengths : list Z)
    (dec_state : option (RNNDecoderState (list R))) :=
  let tgt := drop_last tgt in
  '(enc_hidden, context) ← encoder src lengths;
  run_decoder multigpu tgt enc_hidden context lengths dec_state.

(** [SelEncNMTModel.forward] *)
Definition SelEncNMTModel_forward {Src : Type}
    (encoder : Src * Src → list Z * list Z → option (enc_state * list (list (list R))))
    (multigpu : bool) (src ans : Src) (tgt : list (list (list Z)))
    (src_lengths ans_lengths : list Z)
    (dec_state : option (RNNDecoderState (list R))) :=
  let tgt := drop_last tgt in
  '(enc_hidden, context) ← encoder (src, ans) (src_lengths, ans_lengths);
  run_decoder multigpu tgt enc_hidden context src_lengths dec_state.
End decoder.

(** the result of a model's [forward] has [n] time steps: the decoder
    outputs and, unless they are dropped for multi-GPU, the standard
    attention and every other attention sequence *)
Definition returns_steps (n : nat) (multigpu : bool)
    (result : option (list (list (list R)) *
                      option (gmap string (list (list (list R)))) *
                      option (RNNDecoderState (list R)))) : Prop :=
  ∃ out attns st, result = Some (out, attns, st) ∧ length out = n ∧
    if multigpu then attns = None
    else ∃ m, attns = Some m ∧ is_Some (m !! "std"%string) ∧
              ∀ k v, m !! k = Some v → length v = n.

(** a small decoder of either kind, and encoders for it, used as an
    example: one layer, one hidden unit, every network returns zeros of
    the shape that the real module returns *)
Definition example_decoder (k : decoder_kind) : decoder :=
  mkDecoder k false 1 false false
    (fmap (M:=list) (fmap (M:=list) (λ _ : list Z, [0%R])))
    (λ x h, ((λ _ : list R, [0%R]) <$> x, h))
    (λ x h, (x, h))
    (λ q c _, ((λ _ : list R, [0%R]) <$> q,
               (fmap (M:=list) (λ _ : list R, 0%R)) <$> c))
    (λ q c _, ((λ _ : list R, [0%R]) <$> q,
               (fmap (M:=list) (λ _ : list R, 0%R)) <$> c))
    (λ q c _,
       ((fmap (M:=list) (λ _ : list R, [0%R])) <$> default [] (MatchRNNEncoder.transpose q),
        (λ _ : list (list R), (fmap (M:=list) (λ _ : list R, 0%R)) <$> c)
          <$> default [] (MatchRNNEncoder.transpose q)))
    None (λ x, x).

Definition example_encoder (src : list (list (list Z))) (lengths : list Z)
  : option (enc_state * list (list (list R))) :=
  Some (StateTuple [[[[0%R]]]; [[[0%R]]]],
        (fmap (M:=list) (fmap (M:=list) (λ _ : list Z, [0%R]))) src).

Definition example_sel_encoder
    (input : list (list (list Z)) * list (list (list Z))) (lengths : list Z * list Z)
  : option (enc_state * list (list (list R))) :=
  example_encoder input.1 lengths.1.

End Decoder.

(** ** The rest of [my/preprocessing_embedding_pytorch.py] *)

Module EmbeddingTool.
Import EmbeddingMatch.

(** [w = line_split[0]] *)
Definition word_of (line : string) : string :=
  default EmptyString (head (PyStr.split " " (PyStr.strip line))).

(** a vocabulary whose indices are below its length, as [torchtext] builds it *)
Definition well_formed (vocab : Vocab) : Prop :=
  map_Forall (λ _ i, (i < vocab_len vocab)%nat) (stoi vocab).

(** the word [w] of a line leads to index [i] through one of the three
    look-ups of the loop body *)
Definition reaches (vocab : Vocab) (w : string) (i : nat) : Prop :=
  stoi vocab !! w = Some i ∨ stoi vocab !! PyStr.lower w = Some i ∨
  stoi vocab !! PyStr.upper w = Some i.

(** the index that the loop body picks for [w]: the first look-up that
    succeeds; the flag tells whether it was the exact one *)
Definition target (vocab : Vocab) (w : string) : option (nat * bool) :=
  match stoi vocab !! w with
  | Some i => Some (i, true)
  | None =>
      match stoi vocab !! PyStr.lower w with
      | Some i => Some (i, false)
      | None => (λ i, (i, false)) <$> stoi vocab !! PyStr.upper w
      end
  end.

(** a matrix of [len(vocab)] rows of [emb_dim] numbers *)
Definition matrix_ok {F} (vocab : Vocab) (emb_dim : Z) (m : list (list F)) : Prop :=
  length m = vocab_len vocab ∧ Forall (λ row, Z.of_nat (length row) = emb_dim) m.

(** what the loop of [match_embeddings] keeps true of its variables *)
Record loop_inv {F} (vocab : Vocab) (emb_dim : Z) (init : list (list F))
    (st : locals (F:=F)) : Prop := {
  inv_matrix : matrix_ok vocab emb_dim (filtered_embeddings st);
  inv_flags_len : length (done_flag st) = vocab_len vocab;
  inv_flags : Forall (λ f, f = 0 ∨ f = 1) (done_flag st);
  inv_unmatched : ∀ i : nat, done_flag st !! i = Some 0 →
                    filtered_embeddings st !! i = init !! i
}.

(** [get_vocabs(dict_file)]: [vocabs] is the list of pairs (name,
    vocabulary) that [torch.load] returns; the two [print]s read both
    variables *)
Definition get_vocabs {V} (vocabs : list (string * V)) : result (V * V) :=
  let bound :=
    foldl (λ (acc : option V * option V) (vocab : string * V),
             if bool_decide (vocab.1 = "src"%string) then (Some vocab.2, acc.2)
             else if bool_decide (vocab.1 = "tgt"%string) then (acc.1, Some vocab.2)
             else acc) (None, None) vocabs in
  match bound with
  | (Some enc_vocab, Some dec_vocab) => Ok (enc_vocab, dec_vocab)
  | _ => Raise UnboundLocalError
  end.

(** [_['match'] / (_['match'] + _['miss']) * 100] of [main]; the division
    raises [ZeroDivisionError] on a zero denominator *)
Definition match_percent (c : counts) : option Q :=
  if bool_decide (count_match c + count_miss c = 0) then None
  else Some (inject_Z (count_match c) / inject_Z (count_match c + count_miss c)
             * inject_Z 100)%Q.

(** an initial matrix for the example vocabulary *)
Definition example_init : list (list Q) :=
  [[1 # 1; 2 # 1]; [3 # 1; 4 # 1]; [5 # 1; 6 # 1]]%Q.

End EmbeddingTool.

(** ** The rest of [RNNDecoderState] *)

Module BeamState.
Import Tensor DecoderState.

Section state.
Context {A : Type}.

(** [e.repeat(1, n, 1)] on a tensor [a x b x d]: the batch axis is tiled
    [n] times.  A count that is not positive is not part of the model:
    beam search passes its beam width. *)
Definition tensor_repeat (n : Z) (e : list (list A)) : option (list (list A)) :=
  if bool_decide (0 < n)
  then Some ((λ row : list A, concat (replicate (Z.to_nat n) row)) <$> e)
  else None.

(** [repeat_beam_size_times]; the new attributes are returned as the new
    state *)
Definition repeat_beam_size_times (beam_size : Z) (st : RNNDecoderState A)
  : option (RNNDecoderState A) :=
  vars ← mapM (tensor_repeat beam_size) (_all st);
  input_feed' ← Decoder.py_last vars;
  Some (mkState (Decoder.drop_last vars) input_feed' (coverage st)).

(** [update_state] for a tuple [rnnstate] *)
Definition update_state (rnnstate : list (list (list A))) (input_feed' : list (list A))
    (coverage' : option (list (list A))) (st : RNNDecoderState A) : RNNDecoderState A :=
  mkState rnnstate input_feed' coverage'.

(** every tensor of [_all] has a batch axis of extent [batch] *)
Definition batch_is (batch : nat) (st : RNNDecoderState A) : Prop :=
  Forall (λ e, ∃ a, (0 < a)%nat ∧ has_shape a batch e) (_all st).
End state.

End BeamState.

(** ** More on the decoders *)

Module DecoderFacts.
Import Tensor DecoderState Decoder.

(** [coverage + attn] *)
Definition add_attn (c a : list (list R)) : list (list R) := zip_with (zip_with Rplus) c a.

(** in the results [p] of a pass that started from the coverage [c0], the
    recorded coverages are the running sums of the recorded standard
    attentions, and the returned coverage is the last of them *)
Definition coverage_sums (c0 : option (list (list R))) (p : pass) : Prop :=
  ∃ stds covs,
    p_attns p !! "std"%string = Some stds ∧ p_attns p !! "coverage"%string = Some covs ∧
    length covs = length stds ∧
    (∀ a, stds !! 0%nat = Some a →
       covs !! 0%nat = Some (match c0 with Some c => add_attn c a | None => a end)) ∧
    (∀ (t : nat) c a, covs !! t = Some c → stds !! S t = Some a →
       covs !! S t = Some (add_attn c a)) ∧
    p_coverage p = match last covs with Some c => Some c | None => c0 end.

(** an input feeding decoder with coverage attention, used as an
    example: one hidden unit, every network returns constants of the
    shape that the real module returns, the attention scores being 1 *)
Definition example_coverage_decoder : decoder :=
  mkDecoder InputFeedRNNDecoder false 1 false true
    (fmap (M:=list) (fmap (M:=list) (λ _ : list Z, [0%R])))
    (λ x h, ((λ _ : list R, [0%R]) <$> x, h))
    (λ x h, (x, h))
    (λ q c _, ((λ _ : list R, [0%R]) <$> q,
               (fmap (M:=list) (λ _ : list R, 1%R)) <$> c))
    (λ q c _, ((λ _ : list R, [0%R]) <$> q,
               (fmap (M:=list) (λ _ : list R, 1%R)) <$> c))
    (λ q c _,
       ((fmap (M:=list) (λ _ : list R, [0%R])) <$> default [] (MatchRNNEncoder.transpose q),
        (λ _ : list (list R), (fmap (M:=list) (λ _ : list R, 1%R)) <$> c)
          <$> default [] (MatchRNNEncoder.transpose q)))
    None (λ x, x).
End DecoderFacts.

(** ** [my/process_utils.py] *)

Module ProcessUtils.
Local Open Scope string_scope.
Local Open Scope Z_scope.

(** [word[-1]] : raises [IndexError] on the empty string *)
Fixpoint last_char (word : string) : option ascii :=
  match word with
  | EmptyString => None
  | String c EmptyString => Some c
  | String _ word' => last_char word'
  end.

(** [sep.join(words)] *)
Fixpoint join (sep : string) (words : list string) : string :=
  match words with
  | [] => ""
  | [w] => w
  | w :: words' => w +:+ sep +:+ join sep words'
  end.

(** the loop of [extract_ans]: the words whose last character is [I] *)
Fixpoint ans_words (words_list : list string) : option (list string) :=
  match words_list with
  | [] => Some []
  | word :: rest =>
      c ← last_char word;
      found ← ans_words rest;
      Some (if bool_decide (c = "I"%char) then word :: found else found)
  end.

Definition newline : string := String (ascii_of_nat 10) EmptyString.

Definition extract_ans (words_list : list string) : option string :=
  found ← ans_words words_list;
  Some (join " " found +:+ newline).

(** the histogram of answer lengths built by the script: [total_cnt] has
    50 buckets and [total_cnt[ans_len - 1] += 1] follows Python's
    indexing, so that index [-1] is the last bucket and an index past the
    end raises [IndexError] *)
Definition bump (total_cnt : list Z) (ans_len : nat) : option (list Z) :=
  k ← DecoderState.py_index (Z.of_nat (length total_cnt)) (Z.of_nat ans_len - 1);
  Some (alter (Z.add 1) k total_cnt).

Definition count_lengths (answers : list (list string)) : option (list Z) :=
  foldl (λ acc word_list, total_cnt ← acc; bump total_cnt (length word_list))
        (Some (replicate 50 0)) answers.

(** the number of answers of [n] words *)
Definition occurrences (n : nat) (answers : list (list string)) : Z :=
  Z.of_nat (length (filter (λ word_list, length word_list = n) answers)).
End ProcessUtils.

(** ** [my/JsonFilePreprocess.py] *)

Module JsonFilePreprocess.
Local Open Scope string_scope.
Local Open Scope Z_scope.

Inductive error := IndexError | AssertionError.

(** what one iteration of the loop of [PtStyleDataGenerator] does: the
    question is filtered out, or one line is written to each of the five
    files (the lines are given as their words, before [' '.join]) *)
Inductive outcome :=
  | Filtered
  | Written (para : list string) (para_posi : Z * Z)
            (sents : list string) (sents_posi : Z * Z) (tgt : list string).

(** an answer span [[[start_sent, start_word], [end_sent, end_word]]] *)
Record span := mkSpan {
  start_sent : Z; start_word : Z; end_sent : Z; end_word : Z
}.

(** [l[i]] and [l[start:stop]] on Python lists *)
Definition getitem {A} (l : list A) (i : Z) : option A :=
  k ← DecoderState.py_index (Z.of_nat (length l)) i; l !! k.

Definition slice_bound (len i : Z) : nat :=
  Z.to_nat (if bool_decide (i < 0) then Z.max 0 (len + i) else Z.min i len).

Definition slice {A} (l : list A) (start stop : Z) : list A :=
  let a := slice_bound (Z.of_nat (length l)) start in
  let b := slice_bound (Z.of_nat (length l)) stop in
  take (b - a) (drop a l).

Definition sum (l : list Z) : Z := foldr Z.add 0 l.

(** the loop of [check_src_tgt] over the words of the overlap *)
Fixpoint check_loop (overlap stopwords : list string) : bool :=
  match overlap with
  | [] => false
  | word :: rest =>
      if bool_decide (word ∉ stopwords) then true else check_loop rest stopwords
  end.

Definition check_src_tgt (src tgt stopwords : list string) : bool :=
  let overlap : gset string := list_to_set src ∩ list_to_set tgt in
  check_loop (elements overlap) stopwords.

Definition field_sep : string := "￨".

Section generator.
(** [''.join(w.split())] : the word without its white space *)
Variable squash : string → string.

Definition feature_rich_word (rich_feature : bool) (flat_ans_span : Z * Z) (i : nat)
    (w ner_i pos_i : string) : string :=
  let word_i := squash w in
  let is_ans :=
    if bool_decide (flat_ans_span.1 ≤ Z.of_nat i < flat_ans_span.2) then "I" else "O" in
  if rich_feature
  then word_i +:+ field_sep +:+ ner_i +:+ field_sep +:+ pos_i +:+ field_sep +:+ is_ans
  else word_i.

(** [ans_sents_start] and [ans_sents_end] *)
Definition ans_sents (context_lens : list Z) (ans_span : span) : Z * Z :=
  (sum (slice context_lens 0 (start_sent ans_span)),
   sum (slice context_lens 0 (end_sent ans_span + 1))).

(** the body of the loop over the questions; [train] is
    [data_type == 'train'] *)
Definition generate (train rich_feature : bool) (stop_words : list string)
    (context context_ner context_pos : list (list string)) (ans_span : span)
    (q : list string) : error + outcome :=
  let context_lens := (λ sent_i : list string, Z.of_nat (length sent_i)) <$> context in
  let flat_context := concat context in
  let '(ans_sents_start, ans_sents_end) := ans_sents context_lens ans_span in
  if train && negb (check_src_tgt (slice flat_context ans_sents_start ans_sents_end)
                                  q stop_words)
  then inr Filtered
  else
    let flat_context_ner := concat context_ner in
    let flat_context_pos := concat context_pos in
    let flat_ans_span :=
      (sum (slice context_lens 0 (start_sent ans_span)) + start_word ans_span,
       sum (slice context_lens 0 (end_sent ans_span)) + end_word ans_span) in
    match sent ← getitem context (start_sent ans_span); getitem sent (start_word ans_span),
          getitem flat_context flat_ans_span.1 with
    | Some w, Some w' =>
        if bool_decide (w = w') then
          match sent ← getitem context (end_sent ans_span);
                getitem sent (end_word ans_span - 1),
                getitem flat_context (flat_ans_span.2 - 1) with
          | Some v, Some v' =>
              if bool_decide (v = v' ∧ length flat_context = length flat_context_ner ∧
                              length flat_context = length flat_context_pos) then
                match mapM (λ i, w_i ← flat_context !! i;
                                 ner_i ← flat_context_ner !! i;
                                 pos_i ← flat_context_pos !! i;
                                 Some (feature_rich_word rich_feature flat_ans_span i
                                         w_i ner_i pos_i))
                           (seq 0 (length flat_context)) with
                | Some feature_rich_flat_parag =>
                    inr (Written feature_rich_flat_parag flat_ans_span
                           (slice feature_rich_flat_parag ans_sents_start ans_sents_end)
                           (flat_ans_span.1 - ans_sents_start,
                            flat_ans_span.2 - ans_sents_start) q)
                | None => inl IndexError
                end
              else inl AssertionError
          | _, _ => inl IndexError
          end
        else inl AssertionError
    | _, _ => inl IndexError
    end.
End generator.

(** the number of words before sentence [s] of a paragraph *)
Definition offset (context : list (list string)) (s : Z) : Z :=
  Z.of_nat (length (concat (take (Z.to_nat s) context))).

(** a span that lies in the paragraph: it starts at a word of a sentence
    and ends after a word of a sentence *)
Definition in_paragraph (context : list (list string)) (sp : span) : Prop :=
  ∃ sent0 sent1,
    0 ≤ start_sent sp ∧ context !! Z.to_nat (start_sent sp) = Some sent0 ∧
    0 ≤ start_word sp < Z.of_nat (length sent0) ∧
    0 ≤ end_sent sp ∧ context !! Z.to_nat (end_sent sp) = Some sent1 ∧
    1 ≤ end_word sp ≤ Z.of_nat (length sent1).

Definition example_context : list (list string) := [["a"; "b"]; ["c"; "d"; "e"]].
Definition example_tags : list (list string) := [["N"; "N"]; ["N"; "N"; "N"]].
End JsonFilePreprocess.
(** * Properties *)

(** ** Lemmas on the primitives *)

Section prim_lemmas.
Context {A B : Type}.
Implicit Types (l : list A).

Lemma mapM_lookup_Some (f : A → option B) l k i a :
  mapM f l = Some k → l !! i = Some a → ∃ b, k !! i = Some b ∧ f a = Some b.
Proof.
  intros Hm Hl. apply mapM_Some in Hm.
  destruct (Forall2_lookup_l _ _ _ _ _ Hm Hl) as (b & ? & ?). eauto.
Qed.

Lemma mapM_Some_length (f : A → option B) l k : mapM f l = Some k → length k = length l.
Proof. intros Hm. apply mapM_Some in Hm. symmetry. by eapply Forall2_length. Qed.

End prim_lemmas.

Section tensor_lemmas.
Import Tensor.
Context {A : Type}.
Implicit Types (l : list A) (x : list (list A)).

Lemma zlookup_Some l (k : Z) a :
  zlookup l k = Some a ↔ 0 ≤ k ∧ l !! Z.to_nat k = Some a.
Proof. unfold zlookup. case_bool_decide; [tauto|]. split; [done|tauto]. Qed.

Lemma zlookup_of_nat l (n : nat) : zlookup l (Z.of_nat n) = l !! n.
Proof.
  unfold zlookup. rewrite bool_decide_eq_true_2 by lia. by rewrite Nat2Z.id.
Qed.

Lemma column_lookup x i col t row :
  column x i = Some col → x !! t = Some row → col !! t = row !! i.
Proof.
  intros Hc Hx. destruct (mapM_lookup_Some _ _ _ _ _ Hc Hx) as (b & -> & ->). done.
Qed.

Lemma column_is_Some s b x i : has_shape s b x → (i < b)%nat → is_Some (column x i).
Proof.
  intros [_ Hrows] Hi. apply mapM_is_Some. eapply Forall_impl; [exact Hrows|].
  intros row Hrow. simpl in *. apply lookup_lt_is_Some. lia.
Qed.

Lemma column_length x i col : column x i = Some col → length col = length x.
Proof. apply mapM_Some_length. Qed.

Lemma at2_column x i col t : column x i = Some col → (t < length x)%nat →
  col !! t = at2 x t i.
Proof.
  intros Hc Ht. unfold at2. destruct (lookup_lt_is_Some_2 x t Ht) as [row Hrow].
  rewrite Hrow. simpl. eapply column_lookup; eauto.
Qed.
End tensor_lemmas.

(** ** The reversal routine *)

Section reverse_lemmas.
Import Tensor LuaBiRNNEncoder.
Context {A : Type}.

Lemma length_range_down a b : b ≤ a → length (Py.range_down a b) = Z.to_nat (a - b).
Proof. intros. unfold Py.range_down. by rewrite length_fmap, length_seqZ. Qed.

Lemma length_range a b : a ≤ b → length (Py.range a b) = Z.to_nat (b - a).
Proof. intros. unfold Py.range. by rewrite length_seqZ. Qed.

Lemma length_idx_reversed l s :
  0 ≤ l ≤ Z.of_nat s → length (idx_reversed l s) = s.
Proof.
  intros. unfold idx_reversed.
  rewrite length_app, length_range_down, length_range by lia. lia.
Qed.

Lemma idx_reversed_prefix l s (j : nat) :
  Z.of_nat j < l → idx_reversed l s !! j = Some (l - 1 - Z.of_nat j).
Proof.
  intros. unfold idx_reversed. rewrite lookup_app_l
    by (rewrite length_range_down by lia; lia).
  unfold Py.range_down. rewrite list_lookup_fmap, lookup_seqZ_lt by lia.
  simpl. f_equal; lia.
Qed.

Lemma idx_reversed_suffix l s (j : nat) :
  0 ≤ l ≤ Z.of_nat j → (j < s)%nat → idx_reversed l s !! j = Some (Z.of_nat j).
Proof.
  intros. unfold idx_reversed. rewrite lookup_app_r
    by (rewrite length_range_down by lia; lia).
  rewrite length_range_down by lia. unfold Py.range.
  rewrite lookup_seqZ_lt by lia. f_equal; lia.
Qed.

(** what one batch element contributes *)
Lemma reverse_one_Some s b (x : list (list A)) i l :
  has_shape s b x → (i < b)%nat → 0 ≤ l ≤ Z.of_nat s →
  ∃ col, reverse_one x (i, l) = Some col ∧ length col = s ∧
    ∀ j : nat, (j < s)%nat →
      col !! j = if bool_decide (Z.of_nat j < l)
                 then at2 x (Z.to_nat (l - 1 - Z.of_nat j)) i else at2 x j i.
Proof.
  intros Hx Hi Hl. pose proof Hx as [Hs _].
  destruct (column_is_Some s b x i Hx Hi) as [c Hc].
  unfold reverse_one, size0. rewrite Hs, length_idx_reversed by done.
  rewrite bool_decide_eq_true_2 by done. rewrite Hc. simpl.
  pose proof (column_length _ _ _ Hc) as Hlen.
  assert (is_Some (index_select0 c (idx_reversed l s))) as [col Hcol].
  { apply mapM_is_Some, Forall_forall. intros k Hk.
    apply list_elem_of_lookup in Hk as [j Hj].
    assert (j < s)%nat.
    { apply lookup_lt_Some in Hj. by rewrite length_idx_reversed in Hj. }
    simpl. destruct (decide (Z.of_nat j < l)).
    - rewrite idx_reversed_prefix in Hj by done. simplify_eq.
      unfold zlookup. rewrite bool_decide_eq_true_2 by lia.
      apply lookup_lt_is_Some. lia.
    - rewrite idx_reversed_suffix in Hj by lia. simplify_eq.
      rewrite zlookup_of_nat. apply lookup_lt_is_Some. lia. }
  exists col. split; [done|]. split.
  { apply mapM_Some_length in Hcol. by rewrite length_idx_reversed in Hcol. }
  intros j Hj. case_bool_decide.
  - destruct (mapM_lookup_Some _ _ _ _ _ Hcol (idx_reversed_prefix l s j ltac:(done)))
      as (a & -> & Ha).
    apply zlookup_Some in Ha as [_ Ha]. rewrite <- Ha.
    apply at2_column; [done|lia].
  - destruct (mapM_lookup_Some _ _ _ _ _ Hcol
                (idx_reversed_suffix l s j ltac:(lia) ltac:(done))) as (a & -> & Ha).
    rewrite zlookup_of_nat in Ha. rewrite <- Ha. apply at2_column; [done|lia].
Qed.

Lemma cat_columns_Some s (cols : list (list A)) :
  cols ≠ [] → Forall (λ c, length c = s) cols →
  ∃ out, cat_columns s cols = Some out ∧ has_shape s (length cols) out ∧
    ∀ t i : nat, (t < s)%nat → at2 out t i = cols !! i ≫= (.!! t).
Proof.
  intros Hne Hlen. unfold cat_columns. destruct cols as [|c0 cols']; [done|].
  set (cols := c0 :: cols') in *. clearbody cols.
  assert (∀ t, (t < s)%nat → is_Some (mapM (λ c : list A, c !! t) cols)) as Hrow.
  { intros t Ht. apply mapM_is_Some. eapply Forall_impl; [exact Hlen|].
    intros c Hc. simpl in *. apply lookup_lt_is_Some. lia. }
  assert (is_Some (mapM (λ t, mapM (λ c : list A, c !! t) cols) (seq 0 s))) as [out Hout].
  { apply mapM_is_Some, Forall_forall. intros t Ht. apply elem_of_seq in Ht.
    apply Hrow. lia. }
  exists out. split; [done|]. split.
  - split. { apply mapM_Some_length in Hout. by rewrite length_seq in Hout. }
    apply Forall_forall. intros row Hr. apply list_elem_of_lookup in Hr as [t Ht].
    apply mapM_Some in Hout.
    destruct (Forall2_lookup_r _ _ _ _ _ Hout Ht) as (t' & _ & Hrow').
    by apply mapM_Some_length in Hrow'.
  - intros t i Ht. unfold at2.
    destruct (mapM_lookup_Some _ _ _ t t Hout) as (row & -> & Hrow').
    { by apply lookup_seq_lt. }
    simpl. destruct (cols !! i) as [c|] eqn:Hc; simpl.
    + destruct (mapM_lookup_Some _ _ _ _ _ Hrow' Hc) as (a & -> & ->). done.
    + apply lookup_ge_None. apply lookup_ge_None in Hc.
      apply mapM_Some_length in Hrow'. lia.
Qed.

Lemma enumerate_lookup {T} (l : list T) i :
  Py.enumerate l !! i = (λ a, (i, a)) <$> l !! i.
Proof. unfold Py.enumerate. by rewrite list_lookup_imap. Qed.

(** [reverse] on a whole batch *)
Lemma reverse_Some s b (x : list (list A)) (lengths : list Z) :
  has_shape s b x → length lengths = b → lengths ≠ [] →
  Forall (λ l, 0 ≤ l ≤ Z.of_nat s) lengths →
  ∃ out, reverse x lengths = Some out ∧ has_shape s b out ∧
    ∀ (i : nat) l, lengths !! i = Some l →
      ∀ j : nat, (j < s)%nat →
        at2 out j i = if bool_decide (Z.of_nat j < l)
                      then at2 x (Z.to_nat (l - 1 - Z.of_nat j)) i else at2 x j i.
Proof.
  intros Hx <- Hne Hl. pose proof Hx as [Hs _]. unfold reverse.
  assert (∀ i l, lengths !! i = Some l →
    ∃ col, reverse_one x (i, l) = Some col ∧ length col = s ∧
      ∀ j : nat, (j < s)%nat →
        col !! j = if bool_decide (Z.of_nat j < l)
                   then at2 x (Z.to_nat (l - 1 - Z.of_nat j)) i else at2 x j i) as Hone.
  { intros i l Hil. apply (reverse_one_Some s (length lengths)); [done| |].
    - by eapply lookup_lt_Some.
    - exact (Forall_lookup_1 _ _ _ _ Hl Hil). }
  assert (is_Some (mapM (reverse_one x) (Py.enumerate lengths))) as [cols Hcols].
  { apply mapM_is_Some, Forall_forall. intros [i l] Hil.
    apply list_elem_of_lookup in Hil as [n Hn]. rewrite enumerate_lookup in Hn.
    destruct (lengths !! n) as [l'|] eqn:Hl'; [|done].
    simpl in Hn. injection Hn as <- <-.
    change (is_Some (reverse_one x (n, l'))).
    destruct (Hone n l' Hl') as (col & -> & _). done. }
  rewrite Hcols. simpl.
  assert (length cols = length lengths) as Hcl.
  { apply mapM_Some_length in Hcols. unfold Py.enumerate in Hcols.
    by rewrite length_imap in Hcols. }
  assert (∀ i l, lengths !! i = Some l →
            ∃ col, cols !! i = Some col ∧ reverse_one x (i, l) = Some col) as Hcol.
  { intros i l Hil.
    destruct (mapM_lookup_Some _ _ _ i (i, l) Hcols) as (col & ? & ?); eauto.
    by rewrite enumerate_lookup, Hil. }
  destruct (cat_columns_Some s cols) as (out & Hout & Hshape & Hat).
  { intros ->. destruct lengths; done. }
  { apply Forall_forall. intros col Hc. apply list_elem_of_lookup in Hc as [i Hi].
    destruct (lookup_lt_is_Some_2 lengths i) as [l Hil].
    { rewrite <- Hcl. by eapply lookup_lt_Some. }
    destruct (Hcol i l Hil) as (col' & Hi' & Hrev).
    rewrite Hi in Hi'. injection Hi' as <-.
    destruct (Hone i l Hil) as (c & Hc & Hlen & _). congruence. }
  exists out. unfold size0. rewrite Hs. split; [done|]. split.
  { by rewrite <- Hcl. }
  intros i l Hil j Hj. rewrite Hat by done.
  destruct (Hcol i l Hil) as (col & -> & Hrev). simpl.
  destruct (Hone i l Hil) as (c & Hc & _ & Hc').
  rewrite Hrev in Hc. injection Hc as <-. by apply Hc'.
Qed.
End reverse_lemmas.

(** C1. On a batch of shape [s x b] whose true lengths all lie between 1
    and the padded length [s], [reverse] returns a tensor of the same shape
    in which, for every batch element [i] of true length [l], position
    [j < l] holds the input's position [l - 1 - j] and every position
    [j >= l] holds the input's position [j]. *)
Theorem reverse_reverses_prefix_keeps_padding {A} s b (x : list (list A))
    (lengths : list Z) (i : nat) (l : Z) :
  Tensor.has_shape s b x → length lengths = b →
  Forall (λ l, 1 ≤ l ≤ Z.of_nat s) lengths →
  lengths !! i = Some l →
  ∃ out, LuaBiRNNEncoder.reverse x lengths = Some out ∧ Tensor.has_shape s b out ∧
    (∀ j : nat, Z.of_nat j < l →
       Tensor.at2 out j i = Tensor.at2 x (Z.to_nat (l - 1 - Z.of_nat j)) i ∧
       is_Some (Tensor.at2 out j i)) ∧
    (∀ j : nat, l ≤ Z.of_nat j → (j < s)%nat → Tensor.at2 out j i = Tensor.at2 x j i).
Proof.
  intros Hx Hb Hl Hil.
  destruct (reverse_Some s b x lengths) as (out & Hout & Hshape & Hat); try done.
  { intros ->. done. }
  { eapply Forall_impl; [exact Hl|]. simpl. lia. }
  exists out. split; [done|]. split; [done|].
  pose proof (Forall_lookup_1 _ _ _ _ Hl Hil) as Hli. simpl in Hli.
  split.
  - intros j Hj.
    assert (Tensor.at2 out j i = Tensor.at2 x (Z.to_nat (l - 1 - Z.of_nat j)) i) as Heq.
    { rewrite (Hat i l Hil j) by lia. by rewrite bool_decide_eq_true_2. }
    split; [done|]. unfold Tensor.at2.
    destruct Hshape as [Hs Hrows].
    destruct (lookup_lt_is_Some_2 out j) as [row Hrow]; [lia|].
    rewrite Hrow. simpl. apply lookup_lt_is_Some.
    rewrite (Forall_lookup_1 _ _ _ _ Hrows Hrow). rewrite <- Hb.
    by eapply lookup_lt_Some.
  - intros j Hj Hjs. rewrite (Hat i l Hil j) by lia.
    by rewrite bool_decide_eq_false_2 by lia.
Qed.

Lemma reverse_example :
  ∃ out, LuaBiRNNEncoder.reverse [[1; 10]; [2; 20]; [3; 30]] [2; 3] = Some out ∧
    Tensor.has_shape 3 2 out ∧
    (∀ j : nat, Z.of_nat j < 2 →
       Tensor.at2 out j 0 =
         Tensor.at2 [[1; 10]; [2; 20]; [3; 30]] (Z.to_nat (2 - 1 - Z.of_nat j)) 0 ∧
       is_Some (Tensor.at2 out j 0)) ∧
    (∀ j : nat, 2 ≤ Z.of_nat j → (j < 3)%nat →
       Tensor.at2 out j 0 = Tensor.at2 [[1; 10]; [2; 20]; [3; 30]] j 0).
Proof.
  apply (reverse_reverses_prefix_keeps_padding 3 2 [[1; 10]; [2; 20]; [3; 30]] [2; 3] 0 2).
  - split; [reflexivity|]. repeat constructor.
  - reflexivity.
  - repeat constructor; lia.
  - reflexivity.
Defined.

(** ** The answer-span locator *)

Section ans_posi_lemmas.
Import Tensor LuaBiRNNEncoder.

Lemma nonzero_from_app k v1 v2 :
  nonzero_from k (v1 ++ v2) = nonzero_from k v1 ++ nonzero_from (k + Z.of_nat (length v1)) v2.
Proof.
  revert k. induction v1 as [|b v1 IH]; intros k; simpl.
  - f_equal. lia.
  - rewrite IH. replace (k + 1 + Z.of_nat (length v1)) with (k + Z.of_nat (S (length v1))) by lia.
    by destruct b.
Qed.

Lemma nonzero_from_false k n : nonzero_from k (replicate n false) = [].
Proof. revert k. induction n as [|n IH]; intros k; simpl; [done|apply IH]. Qed.

Lemma nonzero_from_true k n : nonzero_from k (replicate n true) = seqZ k (Z.of_nat n).
Proof.
  revert k. induction n as [|n IH]; intros k; simpl; [done|].
  rewrite IH, (seqZ_cons k) by lia. do 2 f_equal; lia.
Qed.

(** a vector whose marked positions are exactly [st, en) *)
Lemma run_decompose (v : list bool) (st en : nat) :
  (en ≤ length v)%nat → (st ≤ en)%nat →
  (∀ t, (t < length v)%nat → v !! t = Some true ↔ (st ≤ t < en)%nat) →
  v = replicate st false ++ replicate (en - st) true ++ replicate (length v - en) false.
Proof.
  intros Hen Hst Hrun. apply list_eq_same_length with (length v); [|done|].
  { rewrite !length_app, !length_replicate. lia. }
  intros t a a' Ht Ha Ha'. specialize (Hrun t Ht).
  destruct (decide (t < st)%nat).
  { rewrite lookup_app_l, lookup_replicate_2 in Ha' by (rewrite ?length_replicate; lia).
    destruct a; [|congruence]. apply Hrun in Ha. lia. }
  rewrite lookup_app_r, length_replicate in Ha' by (rewrite length_replicate; lia).
  destruct (decide (t < en)%nat).
  { rewrite lookup_app_l, lookup_replicate_2 in Ha' by (rewrite ?length_replicate; lia).
    destruct Hrun as [_ Hrun]. rewrite Hrun in Ha by lia. congruence. }
  rewrite lookup_app_r, length_replicate, lookup_replicate_2 in Ha'
    by (rewrite ?length_replicate; lia).
  destruct a; [|congruence]. apply Hrun in Ha. lia.
Qed.

Lemma ans_span_seqZ k (n : nat) :
  ans_span (seqZ k (Z.of_nat (S n))) = Some (k, k + Z.of_nat (S n)).
Proof.
  assert (head (seqZ k (Z.of_nat (S n))) = Some k) as Hh.
  { by rewrite seqZ_cons by lia. }
  assert (last (seqZ k (Z.of_nat (S n))) = Some (k + Z.of_nat n)) as Hl.
  { by rewrite seqZ_S, last_snoc. }
  unfold ans_span. rewrite Hh, Hl. simpl. do 2 f_equal. lia.
Qed.

Lemma ans_span_run (v : list bool) (st en : nat) :
  (st < en ≤ length v)%nat →
  (∀ t, (t < length v)%nat → v !! t = Some true ↔ (st ≤ t < en)%nat) →
  ans_span (nonzero v) = Some (Z.of_nat st, Z.of_nat en).
Proof.
  intros Hse Hrun. rewrite (run_decompose v st en) by (lia || done).
  unfold nonzero. rewrite !nonzero_from_app, nonzero_from_false, nonzero_from_true,
    nonzero_from_false, app_nil_r, length_replicate.
  destruct (en - st)%nat as [|n] eqn:Hn; [lia|].
  change ([] ++ ?l) with l. rewrite ans_span_seqZ. do 2 f_equal; lia.
Qed.

Lemma ans_span_no_mark (v : list bool) :
  (∀ t, v !! t ≠ Some true) → ans_span (nonzero v) = None.
Proof.
  intros Hv. assert (v = replicate (length v) false) as ->.
  { apply list_eq_same_length with (length v); [by rewrite length_replicate|done|].
    intros t a a' Ht Ha Ha'. rewrite lookup_replicate_2 in Ha' by done.
    destruct a; [|congruence]. by destruct (Hv t). }
  unfold nonzero. by rewrite nonzero_from_false.
Qed.

Lemma is_ans_shape s b x : has_shape s b x → has_shape s b (is_ans_of x).
Proof.
  intros [Hs Hrows]. split; [by unfold is_ans_of; rewrite length_fmap|].
  unfold is_ans_of. apply Forall_fmap. eapply Forall_impl; [exact Hrows|].
  intros row Hrow. simpl. by rewrite length_fmap.
Qed.

Lemma is_ans_column x i col t :
  column (is_ans_of x) i = Some col → (t < length x)%nat →
  col !! t = Some true ↔ at2 x t i = Some 3.
Proof.
  intros Hc Ht. rewrite (at2_column _ _ _ _ Hc)
    by (unfold is_ans_of; by rewrite length_fmap).
  unfold at2, is_ans_of. rewrite list_lookup_fmap.
  destruct (x !! t) as [row|]; simpl; [|done]. rewrite list_lookup_fmap.
  destruct (row !! i) as [v|]; simpl; [|done].
  case_bool_decide; split; congruence.
Qed.

Lemma size1_shape {T} s b (x : list (list T)) : has_shape s b x → (0 < s)%nat → size1 x = b.
Proof.
  intros [Hs Hrows] Hpos. destruct x as [|row x]; simpl in *; [lia|].
  by inversion Hrows.
Qed.
End ans_posi_lemmas.

(** C3. If every batch element of an indicator tensor of shape [s x b]
    carries the answer indicator [3] exactly on one non-empty run of
    positions [st, en), [get_ans_posi] returns the tensor whose first row
    holds the starts [st] and whose second row holds the ends [en]
    (one past the last marked position). *)
Theorem get_ans_posi_returns_run s b (x : list (list Z)) (runs : list (nat * nat)) :
  Tensor.has_shape s b x → (0 < b)%nat → length runs = b →
  (∀ i st en, runs !! i = Some (st, en) →
     (st < en ≤ s)%nat ∧
     ∀ t, (t < s)%nat → Tensor.at2 x t i = Some 3 ↔ (st ≤ t < en)%nat) →
  LuaBiRNNEncoder.get_ans_posi x =
    Some [(λ r, Z.of_nat r.1) <$> runs; (λ r, Z.of_nat r.2) <$> runs].
Proof.
  intros Hx Hb Hlen Hruns. pose proof Hx as [Hs _].
  assert (0 < s)%nat as Hspos.
  { destruct (lookup_lt_is_Some_2 runs 0) as [[st en] Hr]; [lia|].
    destruct (Hruns 0%nat st en Hr) as [? _]. lia. }
  unfold LuaBiRNNEncoder.get_ans_posi.
  pose proof (is_ans_shape s b x Hx) as Hshape.
  rewrite (size1_shape s b) by done.
  assert (mapM (λ i, col ← Tensor.column (LuaBiRNNEncoder.is_ans_of x) i;
                     LuaBiRNNEncoder.ans_span (LuaBiRNNEncoder.nonzero col)) (seq 0 b)
          = Some ((λ r, (Z.of_nat r.1, Z.of_nat r.2)) <$> runs)) as ->.
  { apply mapM_Some, Forall2_same_length_lookup. split.
    { by rewrite length_seq, length_fmap. }
    intros i n sp Hi Hsp. apply lookup_seq in Hi as [-> Hi]. simpl.
    rewrite list_lookup_fmap in Hsp.
    destruct (runs !! i) as [[st en]|] eqn:Hri; [|done]. simpl in Hsp.
    injection Hsp as <-. destruct (Hruns i st en Hri) as [Hse Hrun].
    destruct (column_is_Some s b (LuaBiRNNEncoder.is_ans_of x) i Hshape Hi) as [col Hcol].
    rewrite Hcol. simpl.
    pose proof (column_length _ _ _ Hcol) as Hcl. destruct Hshape as [Hs' _].
    apply ans_span_run; [lia|]. intros t Ht.
    rewrite (is_ans_column x i col t Hcol) by lia. apply Hrun. lia. }
  simpl. unfold LuaBiRNNEncoder.stack_spans.
  destruct runs as [|p runs]; [simpl in Hlen; lia|].
  simpl. by rewrite <- !list_fmap_compose.
Qed.

Lemma get_ans_posi_example :
  LuaBiRNNEncoder.get_ans_posi [[0; 3]; [3; 3]; [3; 0]; [0; 0]] = Some [[1; 0]; [3; 2]].
Proof.
  apply (get_ans_posi_returns_run 4 2 [[0; 3]; [3; 3]; [3; 0]; [0; 0]]
           [(1, 3); (0, 2)]%nat).
  - split; [reflexivity|]. repeat constructor.
  - lia.
  - reflexivity.
  - intros [|[|i]] st en Hi; simplify_eq/=.
    + split; [lia|].
      intros [|[|[|[|t]]]] Ht; unfold Tensor.at2; simpl; split; intros; (lia || congruence).
    + split; [lia|].
      intros [|[|[|[|t]]]] Ht; unfold Tensor.at2; simpl; split; intros; (lia || congruence).
Defined.

(** C7 as stated fails: on an indicator tensor whose only batch element
    has no marked position, [get_ans_posi] does not return an interval of
    length zero (nor any other). *)
Lemma get_ans_posi_empty_run_no_interval :
  ¬ ∃ out st, LuaBiRNNEncoder.get_ans_posi [[0]; [2]; [0]] = Some out ∧
              Tensor.at2 out 0 0 = Some st ∧ Tensor.at2 out 1 0 = Some st.
Proof. intros (out & st & Hout & _). vm_compute in Hout. discriminate. Qed.

(** C7, amended. If some batch element of an indicator tensor of shape
    [s x b] has no position carrying the indicator [3], indexing the empty
    result of [nonzero()] raises and [get_ans_posi] returns nothing, for
    the whole batch. *)
Theorem get_ans_posi_empty_run_raises s b (x : list (list Z)) (i : nat) :
  Tensor.has_shape s b x → (i < b)%nat →
  (∀ t, Tensor.at2 x t i ≠ Some 3) →
  LuaBiRNNEncoder.get_ans_posi x = None.
Proof.
  intros Hx Hi Hno. pose proof Hx as [Hs Hrows].
  unfold LuaBiRNNEncoder.get_ans_posi.
  pose proof (is_ans_shape s b x Hx) as Hshape.
  destruct (decide (s = 0)%nat) as [->|Hspos].
  { destruct x; [done|simpl in Hs; lia]. }
  rewrite (size1_shape s b) by (done || lia).
  rewrite (proj2 (mapM_None _ _)); [done|].
  apply Exists_exists. exists i. split; [apply elem_of_seq; lia|].
  destruct (column_is_Some s b (LuaBiRNNEncoder.is_ans_of x) i Hshape Hi) as [col Hcol].
  rewrite Hcol. simpl. apply ans_span_no_mark. intros t Ht.
  assert (t < length x)%nat as Htl.
  { apply lookup_lt_Some in Ht. rewrite (column_length _ _ _ Hcol) in Ht.
    unfold LuaBiRNNEncoder.is_ans_of in Ht. by rewrite length_fmap in Ht. }
  apply (is_ans_column x i col t Hcol Htl) in Ht. by apply (Hno t).
Qed.

Lemma get_ans_posi_empty_run_example :
  LuaBiRNNEncoder.get_ans_posi [[0; 3]; [2; 3]; [0; 0]] = None.
Proof.
  apply (get_ans_posi_empty_run_raises 3 2 [[0; 3]; [2; 3]; [0; 0]] 0).
  - split; [reflexivity|]. repeat constructor.
  - lia.
  - intros [|[|[|t]]]; unfold Tensor.at2; simpl; congruence.
Defined.

(** ** Beam search reordering of the decoder state *)

Section beam_lemmas.
Import Tensor DecoderState.
Context {A : Type}.
Implicit Types (row src : list A).

Lemma slot_inj (nb k k' s s' : nat) :
  (s < nb)%nat → (s' < nb)%nat → (k * nb + s = k' * nb + s')%nat → k = k' ∧ s = s'.
Proof.
  intros Hs Hs' Heq. destruct (lt_eq_lt_dec k k') as [[Hlt| ->]|Hgt]; [nia|lia|nia].
Qed.

Lemma copy_into_snoc nb idx row src v :
  copy_into nb idx row (src ++ [v]) =
  <[(length src * nb + idx)%nat := v]> (copy_into nb idx row src).
Proof.
  unfold copy_into, Py.enumerate. rewrite imap_app, foldl_app. simpl.
  by rewrite Nat.add_0_r.
Qed.

Lemma length_copy_into nb idx row src : length (copy_into nb idx row src) = length row.
Proof.
  induction src as [|v src IH] using rev_ind; [done|].
  by rewrite copy_into_snoc, length_insert.
Qed.

(** entry [k * nb + s] of a layer after the copy *)
Lemma copy_into_lookup nb idx row src (k s : nat) :
  (idx < nb)%nat → (s < nb)%nat → (length src * nb ≤ length row)%nat →
  copy_into nb idx row src !! (k * nb + s)%nat =
    if bool_decide (s = idx ∧ k < length src)%nat then src !! k
    else row !! (k * nb + s)%nat.
Proof.
  intros Hidx Hs. induction src as [|v src IH] using rev_ind; intros Hlen.
  { rewrite bool_decide_eq_false_2; [done|]. simpl. lia. }
  rewrite length_app in Hlen. simpl in Hlen.
  rewrite copy_into_snoc, length_app. simpl.
  destruct (decide (k = length src ∧ s = idx)) as [[-> ->]|Hne].
  - rewrite list_lookup_insert_eq by (rewrite length_copy_into; nia).
    rewrite bool_decide_eq_true_2 by lia.
    by rewrite lookup_app_r, Nat.sub_diag by lia.
  - rewrite list_lookup_insert_ne
      by (intros Heq; apply slot_inj in Heq as [? ?]; [|done..]; lia).
    rewrite IH by nia.
    destruct (decide (s = idx ∧ k < length src)%nat) as [[-> Hk]|Hn].
    + rewrite !bool_decide_eq_true_2 by lia. by rewrite lookup_app_l.
    + rewrite !bool_decide_eq_false_2 by lia. done.
Qed.

Lemma beam_update_row_Some (beam nb idx : nat) (positions : list Z) row :
  (idx < nb)%nat → length row = (beam * nb)%nat → length positions = beam →
  Forall (λ p, 0 ≤ p < Z.of_nat beam) positions →
  ∃ row', beam_update_row beam nb idx positions row = Some row' ∧
    length row' = length row ∧
    ∀ k s : nat, (k < beam)%nat → (s < nb)%nat →
      row' !! (k * nb + s)%nat =
        if bool_decide (s = idx)
        then p ← positions !! k; row !! (Z.to_nat p * nb + idx)%nat
        else row !! (k * nb + s)%nat.
Proof.
  intros Hidx Hrow Hpl Hpos. unfold beam_update_row.
  assert (is_Some (mapM (λ k, row !! (k * nb + idx)%nat) (seq 0 beam))) as [ss Hss].
  { apply mapM_is_Some, Forall_forall. intros k Hk. apply elem_of_seq in Hk.
    simpl. apply lookup_lt_is_Some. nia. }
  rewrite Hss. simpl.
  assert (length ss = beam) as Hssl.
  { apply mapM_Some_length in Hss. by rewrite length_seq in Hss. }
  assert (∀ k, (k < beam)%nat → ss !! k = row !! (k * nb + idx)%nat) as Hssk.
  { intros k Hk. destruct (mapM_lookup_Some _ _ _ k k Hss) as (a & -> & Ha); [|done].
    by apply lookup_seq_lt. }
  assert (is_Some (index_select0 ss positions)) as [sel Hsel].
  { apply mapM_is_Some. eapply Forall_impl; [exact Hpos|]. intros p Hp. simpl in *.
    unfold zlookup. rewrite bool_decide_eq_true_2 by lia.
    apply lookup_lt_is_Some. lia. }
  rewrite Hsel. simpl.
  assert (length sel = beam) as Hsell.
  { apply mapM_Some_length in Hsel. lia. }
  rewrite bool_decide_eq_true_2 by done.
  eexists. split; [done|]. split; [apply length_copy_into|].
  intros k s Hk Hs. rewrite copy_into_lookup by (lia || nia).
  rewrite Hsell. case_bool_decide as Hc.
  - destruct Hc as [-> _]. rewrite bool_decide_eq_true_2 by done.
    destruct (lookup_lt_is_Some_2 positions k) as [p Hp]; [lia|].
    rewrite Hp. simpl.
    destruct (mapM_lookup_Some _ _ _ _ _ Hsel Hp) as (a & -> & Ha).
    apply zlookup_Some in Ha as [_ Ha]. rewrite <- Ha. apply Hssk.
    pose proof (Forall_lookup_1 _ _ _ _ Hpos Hp). simpl in *. lia.
  - rewrite bool_decide_eq_false_2 by lia. done.
Qed.

Lemma py_index_nonneg n idx : 0 ≤ idx < n → py_index n idx = Some (Z.to_nat idx).
Proof. intros. unfold py_index. by rewrite bool_decide_eq_true_2. Qed.

Lemma beam_update_tensor_Some a (beam nb : nat) (idx : Z) (positions : list Z)
    (e : list (list A)) :
  has_shape a (beam * nb) e → (0 < a)%nat → (0 < beam)%nat →
  0 ≤ idx < Z.of_nat nb → length positions = beam →
  Forall (λ p, 0 ≤ p < Z.of_nat beam) positions →
  ∃ e', beam_update_tensor idx positions (Z.of_nat beam) e = Some e' ∧
    has_shape a (beam * nb) e' ∧
    ∀ layer k s : nat, (k < beam)%nat → (s < nb)%nat →
      at2 e' layer (k * nb + s) =
        if bool_decide (s = Z.to_nat idx)
        then p ← positions !! k; at2 e layer (Z.to_nat p * nb + Z.to_nat idx)
        else at2 e layer (k * nb + s).
Proof.
  intros He Ha Hbeam Hidx Hpl Hpos. pose proof He as [Hel Hrows].
  unfold beam_update_tensor. rewrite (size1_shape a (beam * nb)) by done.
  assert (Z.of_nat (beam * nb) `div` Z.of_nat beam = Z.of_nat nb) as Hdiv.
  { rewrite Nat2Z.inj_mul, Z.mul_comm. apply Z.div_mul. lia. }
  rewrite Hdiv, bool_decide_eq_true_2 by lia.
  rewrite py_index_nonneg by done. simpl. rewrite !Nat2Z.id.
  assert (∀ row, row ∈ e → ∃ row',
    beam_update_row beam nb (Z.to_nat idx) positions row = Some row' ∧
    length row' = length row ∧
    ∀ k s : nat, (k < beam)%nat → (s < nb)%nat →
      row' !! (k * nb + s)%nat =
        if bool_decide (s = Z.to_nat idx)
        then p ← positions !! k; row !! (Z.to_nat p * nb + Z.to_nat idx)%nat
        else row !! (k * nb + s)%nat) as Hrow.
  { intros row Hr. apply beam_update_row_Some; [lia| |done|done].
    by apply (proj1 (Forall_forall _ _) Hrows). }
  assert (is_Some (mapM (beam_update_row beam nb (Z.to_nat idx) positions) e))
    as [e' He'].
  { apply mapM_is_Some, Forall_forall. intros row Hr.
    destruct (Hrow row Hr) as (row' & Hr' & _). simpl. by rewrite Hr'. }
  exists e'. split; [done|]. split.
  - split. { apply mapM_Some_length in He'. lia. }
    apply Forall_forall. intros row' Hr'. apply list_elem_of_lookup in Hr' as [t Ht].
    apply mapM_Some in He'.
    destruct (Forall2_lookup_r _ _ _ _ _ He' Ht) as (row & Hrow0 & Hupd).
    destruct (Hrow row) as (row'' & Hupd' & Hlen & _).
    { apply list_elem_of_lookup. eauto. }
    rewrite Hupd in Hupd'. injection Hupd' as <-. rewrite Hlen.
    by apply (Forall_lookup_1 _ _ _ _ Hrows Hrow0).
  - intros layer k s Hk Hs. unfold at2.
    destruct (e !! layer) as [row|] eqn:Hl.
    + destruct (mapM_lookup_Some _ _ _ _ _ He' Hl) as (row' & -> & Hupd).
      destruct (Hrow row) as (row'' & Hupd' & _ & Hlook).
      { apply list_elem_of_lookup. eauto. }
      rewrite Hupd in Hupd'. injection Hupd' as <-. simpl.
      by rewrite Hlook.
    + assert (e' !! layer = None) as ->.
      { apply lookup_ge_None. apply lookup_ge_None in Hl.
        apply mapM_Some_length in He'. lia. }
      simpl. case_bool_decide; [|done]. by destruct (positions !! k).
Qed.
End beam_lemmas.



(** ** Embedding matching *)

Module EmbeddingMatchFacts.
Import EmbeddingMatch.

Section skip.
Context {F : Type} (py_float : string → option F).

(** Once [vec] is bound, a malformed line changes neither the matrix nor
    the flags, and the loop goes on. *)
Lemma step_malformed_bound vocab emb_dim (st : locals) line v0 :
  malformed py_float emb_dim line → vec st = Some v0 →
  ∃ st', step py_float vocab emb_dim st line = Ok st' ∧
    filtered_embeddings st' = filtered_embeddings st ∧
    done_flag st' = done_flag st ∧ is_Some (vec st').
Proof.
  unfold malformed, step. intros Hbad Hvec.
  destruct (mapM py_float _) as [v|].
  - rewrite bool_decide_eq_false_2 by done. unfold handler. simpl.
    eexists. split; [done|]. simpl. eauto.
  - unfold handler. rewrite Hvec. eexists. split; [done|]. simpl. eauto.
Qed.

(** A line whose fields are all numeric binds [vec], also when their
    number is wrong. *)
Lemma step_wrong_dim_first vocab emb_dim (st : locals) line v :
  mapM py_float (fields line) = Some v → Z.of_nat (length v) ≠ emb_dim →
  ∃ st', step py_float vocab emb_dim st line = Ok st' ∧
    filtered_embeddings st' = filtered_embeddings st ∧
    done_flag st' = done_flag st ∧ vec st' = Some v.
Proof.
  unfold step. intros -> Hdim.
  rewrite bool_decide_eq_false_2 by done. unfold handler. simpl.
  eexists. split; [done|]. simpl. eauto.
Qed.
End skip.

End EmbeddingMatchFacts.

(** C6 as stated fails: on the example vocabulary and file the matcher
    does not give index 0 the vector of "apple" and does not report
    match=2, miss=1. *)
Lemma match_embeddings_example_not_two_matches :
  ¬ ∃ emb c log,
      EmbeddingMatch.match_embeddings EmbeddingMatch.decimal_float
        EmbeddingMatch.example_vocab 2
        [[1 # 1; 2 # 1]; [3 # 1; 4 # 1]; [5 # 1; 6 # 1]]%Q
        EmbeddingMatch.example_lines = EmbeddingMatch.Ok (emb, c, log) ∧
      emb !! 0%nat = Some [1 # 10; 2 # 10]%Q ∧
      EmbeddingMatch.count_match c = 2 ∧ EmbeddingMatch.count_miss c = 1.
Proof.
  intros (emb & c & log & Hrun & _ & Hm & _). vm_compute in Hrun.
  injection Hrun as <- <- <-. simpl in Hm. discriminate.
Qed.

(** C6, amended. On the example vocabulary and file with [emb_dim = 2] the
    word "apple" matches no vocabulary entry (neither "apple" nor "APPLE"
    is one), so index 0 keeps its initial random vector; "TABLE" matches
    "table" through lower-casing, so index 1 gets the vector (0.3, 0.4);
    index 2 keeps its initial random vector; the report is match=1,
    miss=2 and nothing is printed. *)
Theorem match_embeddings_example (r0 r1 r2 : list Q) :
  EmbeddingMatch.match_embeddings EmbeddingMatch.decimal_float
    EmbeddingMatch.example_vocab 2 [r0; r1; r2]
    EmbeddingMatch.example_lines =
  EmbeddingMatch.Ok ([r0; [3 # 10; 4 # 10]%Q; r2], EmbeddingMatch.mkCounts 1 2, []).
Proof. reflexivity. Qed.

(** C8 fails on the code: a line with a field that [float] rejects, met
    before any line whose fields were all numeric, makes the [except]
    branch read the unbound variable [vec]; the matching pass stops with
    [UnboundLocalError] instead of skipping the line. *)
Theorem match_embeddings_non_numeric_first_line_raises {F} (py_float : string → option F)
    vocab emb_dim random_init line rest :
  mapM py_float (EmbeddingMatch.fields line) = None →
  EmbeddingMatch.match_embeddings py_float vocab emb_dim random_init (line :: rest) =
  EmbeddingMatch.Raise EmbeddingMatch.UnboundLocalError.
Proof.
  intros Hbad. unfold EmbeddingMatch.match_embeddings. simpl.
  unfold EmbeddingMatch.step. by rewrite Hbad.
Qed.

Lemma match_embeddings_non_numeric_first_line_example :
  EmbeddingMatch.match_embeddings EmbeddingMatch.decimal_float
    EmbeddingMatch.example_vocab 2
    [[1 # 1; 2 # 1]; [3 # 1; 4 # 1]; [5 # 1; 6 # 1]]%Q
    ["table 0.1 x"; "TABLE 0.3 0.4"]%string =
  EmbeddingMatch.Raise EmbeddingMatch.UnboundLocalError.
Proof.
  apply (match_embeddings_non_numeric_first_line_raises EmbeddingMatch.decimal_float).
  reflexivity.
Defined.

(** ** Sorting a batch by length and restoring its order *)

Section sort_lemmas.
Import Tensor TorchSort.

Lemma mapM_Permutation {A B} (f : A → option B) l l' k :
  l ≡ₚ l' → mapM f l = Some k → ∃ k', mapM f l' = Some k' ∧ k ≡ₚ k'.
Proof.
  intros Hp. revert k. induction Hp as [|a l l' Hp IH|a b l|l l' l'' _ IH1 _ IH2];
    intros k Hk.
  - exists k. by split.
  - simpl in *. destruct (f a) as [c|]; [|done]. simpl in *.
    destruct (mapM f l) as [k0|] eqn:Hk0; [|done]. simpl in Hk. injection Hk as <-.
    destruct (IH k0 eq_refl) as (k' & -> & Hk'). simpl. eexists. split; [done|].
    by constructor.
  - simpl in *. destruct (f b) as [c|]; [|done]. simpl in *.
    destruct (f a) as [d|]; [|done]. simpl in *.
    destruct (mapM f l) as [k0|]; [|done]. simpl in *. injection Hk as <-.
    eexists. split; [done|]. apply perm_swap.
  - destruct (IH1 k Hk) as (k' & Hk' & Hp'). destruct (IH2 k' Hk') as (k'' & ? & ?).
    exists k''. split; [done|]. by etrans.
Qed.

Lemma index_select0_seqZ {A} (x : list A) :
  index_select0 x (seqZ 0 (Z.of_nat (length x))) = Some x.
Proof.
  apply mapM_Some, Forall2_same_length_lookup. split.
  { rewrite length_seqZ. lia. }
  intros i k a Hk Ha. apply lookup_seqZ in Hk as [-> _].
  by rewrite Z.add_0_l, zlookup_of_nat.
Qed.

(** selecting along a permutation of the indices permutes the entries *)
Lemma index_select0_Permutation {A} (x vals : list A) idx :
  idx ≡ₚ seqZ 0 (Z.of_nat (length x)) → index_select0 x idx = Some vals → vals ≡ₚ x.
Proof.
  intros Hp Hsel.
  destruct (mapM_Permutation _ _ _ _ Hp Hsel) as (k' & Hk' & Hperm).
  pose proof (index_select0_seqZ x) as Hid. unfold index_select0 in Hid.
  rewrite Hid in Hk'. by injection Hk' as <-.
Qed.

Lemma Sorted_seqZ m n : Sorted Z.le (seqZ m n).
Proof.
  destruct (decide (0 ≤ n)) as [Hn|Hn]; [|rewrite seqZ_nil by lia; constructor].
  rewrite <- (Z2Nat.id n) by done. generalize (Z.to_nat n) as k. clear. intros k.
  revert m. induction k as [|k IH]; intros m; [constructor|].
  rewrite seqZ_cons by lia. constructor.
  - replace (Z.pred (Z.of_nat (S k))) with (Z.of_nat k) by lia. apply IH.
  - replace (Z.pred (Z.of_nat (S k))) with (Z.of_nat k) by lia.
    destruct k; [rewrite seqZ_nil by lia; constructor|].
    rewrite seqZ_cons by lia. constructor. lia.
Qed.

(** the inverse permutation: entry [k] of [idx_unsort] is the place of
    [k] in [idx_sort] *)
Lemma unsort_inverts d (lengths sorted idx_sort tmp idx_unsort : list Z) :
  is_sort_of d lengths (sorted, idx_sort) →
  is_sort_of false idx_sort (tmp, idx_unsort) →
  length idx_sort = length lengths ∧ length idx_unsort = length lengths ∧
  index_select0 idx_sort idx_unsort = Some (seqZ 0 (Z.of_nat (length lengths))).
Proof.
  intros (Hp1 & _ & _) (Hp2 & Hsel & Hsorted). simpl in *.
  assert (length idx_sort = length lengths) as Hl1.
  { rewrite Hp1, length_seqZ. lia. }
  assert (length idx_unsort = length lengths) as Hl2.
  { rewrite Hp2, length_seqZ. lia. }
  split; [done|]. split; [done|]. rewrite Hsel. f_equal.
  apply (Sorted_unique Z.le); [done|apply Sorted_seqZ|].
  rewrite <- Hp1. by apply index_select0_Permutation with idx_unsort.
Qed.

Lemma index_select0_roundtrip {A} d (lengths sorted idx_sort tmp idx_unsort : list Z)
    (row : list A) :
  is_sort_of d lengths (sorted, idx_sort) →
  is_sort_of false idx_sort (tmp, idx_unsort) →
  length row = length lengths →
  index_select0 row idx_sort ≫= (λ r, index_select0 r idx_unsort) = Some row.
Proof.
  intros Hs1 Hs2 Hrow.
  destruct (unsort_inverts _ _ _ _ _ _ Hs1 Hs2) as (Hl1 & Hl2 & Hinv).
  destruct Hs1 as (Hp1 & _ & _). simpl in Hp1.
  assert (is_Some (index_select0 row idx_sort)) as [r Hr].
  { apply mapM_is_Some, Forall_forall. intros k Hk. rewrite Hp1 in Hk.
    apply elem_of_seqZ in Hk. simpl. unfold zlookup.
    rewrite bool_decide_eq_true_2 by lia. apply lookup_lt_is_Some. lia. }
  rewrite Hr. simpl. apply mapM_Some, Forall2_same_length_lookup.
  split; [lia|]. intros i q a Hq Ha.
  destruct (mapM_lookup_Some _ _ _ _ _ Hinv Hq) as (k & Hk & Hqk).
  apply lookup_seqZ in Hk as [-> _]. rewrite Z.add_0_l in Hqk.
  apply zlookup_Some in Hqk as [Hq0 Hqk].
  destruct (mapM_lookup_Some _ _ _ _ _ Hr Hqk) as (a' & Ha' & Hrow').
  rewrite zlookup_of_nat in Hrow'. unfold zlookup.
  rewrite bool_decide_eq_true_2 by done. congruence.
Qed.

(** on tensors: [index_select(1, idx_sort)] followed by
    [index_select(1, idx_unsort)] is the identity *)
Lemma index_select1_roundtrip {A} d (lengths sorted idx_sort tmp idx_unsort : list Z)
    (x : list (list A)) :
  is_sort_of d lengths (sorted, idx_sort) →
  is_sort_of false idx_sort (tmp, idx_unsort) →
  Forall (λ row, length row = length lengths) x →
  index_select1 x idx_sort ≫= (λ y, index_select1 y idx_unsort) = Some x.
Proof.
  intros Hs1 Hs2 Hx. induction Hx as [|row x Hrow _ IH]; [done|].
  pose proof (index_select0_roundtrip d _ _ _ _ _ row Hs1 Hs2 Hrow) as Hr.
  unfold index_select1 in *. simpl.
  destruct (index_select0 row idx_sort) as [r|]; [|done]. simpl in *.
  destruct (mapM _ x) as [y|]; [|done]. simpl in *.
  rewrite Hr. simpl. destruct (mapM _ y) as [z|]; [|done]. simpl in *.
  injection IH as ->. done.
Qed.

(** the sorted batch is defined whenever the batch extents agree *)
Lemma index_select1_sorted_is_Some {A} d (lengths sorted idx_sort : list Z)
    (x : list (list A)) :
  is_sort_of d lengths (sorted, idx_sort) →
  Forall (λ row, length row = length lengths) x →
  is_Some (index_select1 x idx_sort).
Proof.
  intros (Hp & _ & _) Hx. simpl in Hp. apply mapM_is_Some.
  eapply Forall_impl; [exact Hx|]. intros row Hrow. simpl in *.
  apply mapM_is_Some, Forall_forall. intros k Hk. rewrite Hp in Hk.
  apply elem_of_seqZ in Hk. simpl. unfold zlookup.
  rewrite bool_decide_eq_true_2 by lia. apply lookup_lt_is_Some. lia.
Qed.

(** [sort_with_indices] is a sort in the sense of [is_sort_of] *)
Global Instance pair_order_total d : Total (pair_order d).
Proof. intros p q. unfold pair_order, sort_order. destruct d; lia. Qed.

Lemma sort_with_indices_is_sort d x : is_sort_of d x (sort_with_indices d x).
Proof.
  unfold is_sort_of, sort_with_indices. simpl.
  set (ps := merge_sort _ _).
  assert (ps ≡ₚ zip x (seqZ 0 (Z.of_nat (length x)))) as Hps
    by apply merge_sort_Permutation.
  split; [|split].
  - rewrite Hps, snd_zip; [done|]. rewrite length_seqZ. lia.
  - apply mapM_Some, Forall2_fmap, Forall_Forall2_diag, Forall_forall.
    intros [v k] Hin. rewrite Hps in Hin. simpl.
    apply list_elem_of_lookup in Hin as [i Hi].
    apply lookup_zip_with_Some in Hi as (v' & k' & Heq & Hv & Hk).
    injection Heq as <- <-. apply lookup_seqZ in Hk as [-> _].
    by rewrite Z.add_0_l, zlookup_of_nat.
  - apply Sorted_fmap with (R1 := pair_order d);
      [by intros p q|apply Sorted_merge_sort; apply _].
Qed.
End sort_lemmas.

(** C2. Let [idx_sort] come from sorting the answer lengths in descending
    order and [idx_unsort] from sorting [idx_sort] in ascending order
    (any sort that meets the contract of [torch.sort]).  Then (1) on every
    tensor whose batch axis has the extent of the batch, selecting by
    [idx_sort] and then by [idx_unsort] is the identity; (2) whatever the
    answer encoding returns is the selection by [idx_unsort] of the
    outputs and of the final [h] and [c] that the recurrent network
    returned on the sorted batch; and (3) if, on the sorted batch, the
    network returns the sorted version of some outputs and final state
    [(o, (h, c))], the answer encoding returns [(o, (h, c))] in the
    original batch order. *)
Theorem unsort_restores_batch_order
    (torch_sort : bool → list Z → list Z * list Z) (ans_bi_rnn : MatchRNNEncoder.lstm)
    (ans_lengths sorted idx_sort tmp idx_unsort : list Z) :
  torch_sort true ans_lengths = (sorted, idx_sort) →
  torch_sort false idx_sort = (tmp, idx_unsort) →
  TorchSort.is_sort_of true ans_lengths (sorted, idx_sort) →
  TorchSort.is_sort_of false idx_sort (tmp, idx_unsort) →
  (∀ (A : Type) (x : list (list A)),
     Forall (λ row, length row = length ans_lengths) x →
     Tensor.index_select1 x idx_sort ≫= (λ y, Tensor.index_select1 y idx_unsort) = Some x) ∧
  (∀ ans_emb o h c,
     MatchRNNEncoder.answer_encoding torch_sort ans_bi_rnn ans_emb ans_lengths
       = Some (o, (h, c)) →
     ∃ e_s o_s h_s c_s,
       Tensor.index_select1 ans_emb idx_sort = Some e_s ∧
       ans_bi_rnn e_s sorted = Some (o_s, (h_s, c_s)) ∧
       Tensor.index_select1 o_s idx_unsort = Some o ∧
       Tensor.index_select1 h_s idx_unsort = Some h ∧
       Tensor.index_select1 c_s idx_unsort = Some c) ∧
  (∀ ans_emb o h c,
     Forall (λ row, length row = length ans_lengths) o →
     Forall (λ row, length row = length ans_lengths) h →
     Forall (λ row, length row = length ans_lengths) c →
     (e_s ← Tensor.index_select1 ans_emb idx_sort; ans_bi_rnn e_s sorted) =
       (o_s ← Tensor.index_select1 o idx_sort;
        h_s ← Tensor.index_select1 h idx_sort;
        c_s ← Tensor.index_select1 c idx_sort;
        Some (o_s, (h_s, c_s))) →
     MatchRNNEncoder.answer_encoding torch_sort ans_bi_rnn ans_emb ans_lengths
       = Some (o, (h, c))).
Proof.
  intros Hsort Hunsort Hs1 Hs2. split; [|split].
  - intros A x Hx. by eapply index_select1_roundtrip.
  - intros ans_emb o h c Henc. unfold MatchRNNEncoder.answer_encoding in Henc.
    rewrite Hsort, Hunsort in Henc.
    destruct (Tensor.index_select1 ans_emb idx_sort) as [e_s|]; [|done].
    simpl in Henc.
    destruct (ans_bi_rnn e_s sorted) as [[o_s [h_s c_s]]|] eqn:Hrnn;
      simpl in Henc; [|discriminate].
    destruct (Tensor.index_select1 o_s idx_unsort) as [o'|] eqn:Ho;
      simpl in Henc; [|discriminate].
    destruct (Tensor.index_select1 h_s idx_unsort) as [h'|] eqn:Hh;
      simpl in Henc; [|discriminate].
    destruct (Tensor.index_select1 c_s idx_unsort) as [c'|] eqn:Hc;
      simpl in Henc; [|discriminate].
    injection Henc as <- <- <-. by exists e_s, o_s, h_s, c_s.
  - intros ans_emb o h c Ho Hh Hc Hrnn.
    pose proof (index_select1_roundtrip _ _ _ _ _ _ o Hs1 Hs2 Ho) as Hro.
    pose proof (index_select1_roundtrip _ _ _ _ _ _ h Hs1 Hs2 Hh) as Hrh.
    pose proof (index_select1_roundtrip _ _ _ _ _ _ c Hs1 Hs2 Hc) as Hrc.
    destruct (Tensor.index_select1 o idx_sort) as [o_s|]; [|done].
    destruct (Tensor.index_select1 h idx_sort) as [h_s|]; [|done].
    destruct (Tensor.index_select1 c idx_sort) as [c_s|]; [|done].
    simpl in *. unfold MatchRNNEncoder.answer_encoding.
    rewrite Hsort, Hunsort.
    destruct (Tensor.index_select1 ans_emb idx_sort) as [e_s|]; [|done].
    simpl in *. rewrite Hrnn. simpl. rewrite Hro. simpl. rewrite Hrh. simpl.
    by rewrite Hrc.
Qed.

Lemma unsort_restores_batch_order_example :
  Tensor.index_select1 [[10; 20; 30]; [11; 21; 31]] [1; 2; 0]
    ≫= (λ y, Tensor.index_select1 y [2; 0; 1]) = Some [[10; 20; 30]; [11; 21; 31]].
Proof.
  refine (proj1 (unsort_restores_batch_order TorchSort.sort_with_indices
                   (λ x _, Some (x, (x, x))) [2; 5; 3] [5; 3; 2] [1; 2; 0]
                   [0; 1; 2] [2; 0; 1] _ _ _ _) Z [[10; 20; 30]; [11; 21; 31]] _).
  - reflexivity.
  - reflexivity.
  - apply (sort_with_indices_is_sort true [2; 5; 3]).
  - apply (sort_with_indices_is_sort false [1; 2; 0]).
  - repeat constructor.
Defined.

(** ** The match layer *)

Section transpose_lemmas.
Import Tensor MatchRNNEncoder.
Context {A : Type}.
Implicit Types (x y : list (list A)).

Lemma has_shape_at2 s b x t i : has_shape s b x → (t < s)%nat → (i < b)%nat →
  is_Some (at2 x t i).
Proof.
  intros [Hs Hrows] Ht Hi. unfold at2.
  destruct (lookup_lt_is_Some_2 x t) as [row Hrow]; [lia|]. rewrite Hrow. simpl.
  apply lookup_lt_is_Some. pose proof (Forall_lookup_1 _ _ _ _ Hrows Hrow). simpl in *. lia.
Qed.

(** rectangular tensors with the same entries are equal *)
Lemma has_shape_ext s b x y : has_shape s b x → has_shape s b y →
  (∀ t i, (t < s)%nat → (i < b)%nat → at2 x t i = at2 y t i) → x = y.
Proof.
  intros [Hxs Hxr] [Hys Hyr] Hat.
  apply list_eq_same_length with s; [done..|].
  intros t r1 r2 Ht Hr1 Hr2.
  apply list_eq_same_length with b.
  - by apply (Forall_lookup_1 _ _ _ _ Hyr Hr2).
  - by apply (Forall_lookup_1 _ _ _ _ Hxr Hr1).
  - intros i a1 a2 Hi Ha1 Ha2. specialize (Hat t i Ht Hi). unfold at2 in Hat.
    rewrite Hr1, Hr2 in Hat. simpl in Hat. congruence.
Qed.

Lemma transpose_Some s b x : has_shape s b x → (0 < s)%nat →
  ∃ y, transpose x = Some y ∧ has_shape b s y ∧
    (∀ i, (i < b)%nat → y !! i = column x i) ∧
    ∀ t i, (t < s)%nat → at2 y i t = at2 x t i.
Proof.
  intros Hx Hs. pose proof Hx as [Hxs Hxr]. unfold transpose.
  rewrite (size1_shape s b) by done.
  assert (is_Some (mapM (column x) (seq 0 b))) as [y Hy].
  { apply mapM_is_Some, Forall_forall. intros i Hi. apply elem_of_seq in Hi.
    simpl. apply (column_is_Some s b); [done|lia]. }
  exists y. split; [done|].
  assert (length y = b) as Hyl.
  { apply mapM_Some_length in Hy. by rewrite length_seq in Hy. }
  assert (∀ i, (i < b)%nat → y !! i = column x i) as Hcol.
  { intros i Hi. destruct (mapM_lookup_Some _ _ _ i i Hy) as (c & -> & Hc); [|done].
    by apply lookup_seq_lt. }
  split; [|split; [done|]].
  - split; [done|]. apply Forall_forall. intros c Hc.
    apply list_elem_of_lookup in Hc as [i Hi].
    assert (i < b)%nat as Hib by (apply lookup_lt_Some in Hi; lia).
    rewrite Hcol in Hi by done. apply column_length in Hi. lia.
  - intros t i Ht. unfold at2 at 1. destruct (decide (i < b)%nat) as [Hi|Hi].
    + rewrite Hcol by done.
      destruct (column_is_Some s b x i Hx Hi) as [c Hc]. rewrite Hc. simpl.
      apply at2_column; [done|lia].
    + rewrite (proj2 (lookup_ge_None y i)) by lia. simpl. unfold at2.
      destruct (lookup_lt_is_Some_2 x t) as [row Hrow]; [lia|]. rewrite Hrow. simpl.
      symmetry. apply lookup_ge_None.
      pose proof (Forall_lookup_1 _ _ _ _ Hxr Hrow). simpl in *. lia.
Qed.

Lemma transpose_involutive s b x y : has_shape s b x → (0 < s)%nat → (0 < b)%nat →
  transpose x = Some y → transpose y = Some x.
Proof.
  intros Hx Hs Hb Hy.
  destruct (transpose_Some s b x Hx Hs) as (y' & Hy' & Hshape & _ & Hat).
  rewrite Hy in Hy'. injection Hy' as <-.
  destruct (transpose_Some b s y Hshape Hb) as (z & Hz & Hzs & _ & Hzat).
  rewrite Hz. f_equal. apply (has_shape_ext s b); [done..|].
  intros t i Ht Hi. by rewrite Hzat, Hat.
Qed.
End transpose_lemmas.

Section softmax_lemmas.
Import Tensor MatchRNNEncoder.
Local Open Scope R_scope.

Lemma Rsum_nonneg (l : list R) : Forall (λ r, 0 <= r) l → 0 <= Rsum l.
Proof. induction 1 as [|r l Hr _ IH]; simpl; lra. Qed.

Lemma Rsum_scale (c : R) (l : list R) : Rsum ((λ r, r / c) <$> l) = Rsum l / c.
Proof.
  induction l as [|r l IH]; csimpl; [unfold Rsum; simpl; lra|].
  unfold Rsum in *. simpl. rewrite IH. lra.
Qed.

Lemma exp_score_nonneg s : 0 <= exp_score s.
Proof. destruct s; simpl; [lra|]. left. apply exp_pos. Qed.

Lemma Rsum_exp_score_pos (row : list score) :
  forallb is_neg_inf row = false → 0 < Rsum (exp_score <$> row).
Proof.
  induction row as [|s row IH]; simpl; [done|]. intros Hrow.
  assert (0 <= Rsum (exp_score <$> row)) as Hge.
  { apply Rsum_nonneg, Forall_fmap, Forall_forall. intros ? _. apply exp_score_nonneg. }
  change (0 < exp_score s + Rsum (exp_score <$> row)).
  destruct s as [|r]; simpl in *.
  - specialize (IH Hrow). lra.
  - pose proof (exp_pos r). lra.
Qed.

(** a softmax row is zero at every [-inf] score and is a probability
    vector *)
Lemma softmax_row_Some (row : list score) :
  forallb is_neg_inf row = false →
  ∃ w, softmax_row row = Some w ∧ length w = length row ∧
    (∀ j : nat, row !! j = Some NegInf → w !! j = Some 0) ∧
    Forall (λ r, 0 <= r) w ∧ Rsum w = 1.
Proof.
  intros Hrow. unfold softmax_row. rewrite Hrow. eexists. split; [done|].
  pose proof (Rsum_exp_score_pos row Hrow) as Hpos.
  split; [by rewrite length_fmap|]. split; [|split].
  - intros j Hj. rewrite list_lookup_fmap, Hj. simpl. f_equal. lra.
  - apply Forall_fmap, Forall_forall. intros s _. simpl.
    pose proof (exp_score_nonneg s). apply Rmult_le_pos; [done|].
    left. by apply Rinv_0_lt_compat.
  - assert ((λ s, exp_score s / Rsum (exp_score <$> row)) <$> row =
            (λ r, r / Rsum (exp_score <$> row)) <$> (exp_score <$> row)) as ->
      by (by rewrite <- list_fmap_compose).
    rewrite Rsum_scale. field. lra.
Qed.

Lemma masked_fill_row_Some (mask : list Z) (row : list R) :
  length row = length mask →
  ∃ r, masked_fill_row mask row = Some r ∧ length r = length mask ∧
    (∀ (j : nat) m, mask !! j = Some m → m ≠ 1%Z → r !! j = Some NegInf) ∧
    ((∃ j : nat, mask !! j = Some 1%Z) → forallb is_neg_inf r = false).
Proof.
  intros Hlen. unfold masked_fill_row. rewrite bool_decide_eq_true_2 by done.
  eexists. split; [done|]. split; [|split].
  - rewrite length_zip_with. lia.
  - intros j m Hm Hne. rewrite lookup_zip_with.
    destruct (lookup_lt_is_Some_2 row j) as [s Hs].
    { apply lookup_lt_Some in Hm. lia. }
    rewrite Hs, Hm. simpl. by rewrite bool_decide_eq_true_2 by lia.
  - intros [j Hj]. apply not_true_is_false. intros Hall.
    rewrite forallb_forall in Hall.
    destruct (lookup_lt_is_Some_2 row j) as [s Hs].
    { apply lookup_lt_Some in Hj. lia. }
    specialize (Hall (Fin s)). simpl in Hall.
    assert (Fin s ∈ zip_with (λ (s : R) (m : Z),
               if bool_decide (1 - m ≠ 0)%Z then NegInf else Fin s) row mask) as Hin.
    { apply list_elem_of_lookup. exists j. by rewrite lookup_zip_with, Hs, Hj. }
    apply list_elem_of_In in Hin. by specialize (Hall Hin).
Qed.

Lemma dot_Some (u v : list R) :
  length u = length v → dot u v = Some (Rsum (zip_with Rmult u v)).
Proof. intros. unfold dot. by rewrite bool_decide_eq_true_2. Qed.
End softmax_lemmas.

Section mapM_spec.
Context {A B : Type}.

(** a pointwise description of a successful [mapM] *)
Lemma mapM_spec (f : A → option B) (P : nat → B → Prop) (l : list A) :
  (∀ i a, l !! i = Some a → ∃ b, f a = Some b ∧ P i b) →
  ∃ k, mapM f l = Some k ∧ length k = length l ∧ ∀ i b, k !! i = Some b → P i b.
Proof.
  intros Hf. assert (is_Some (mapM f l)) as [k Hk].
  { apply mapM_is_Some, Forall_forall. intros a Ha.
    apply list_elem_of_lookup in Ha as [i Hi].
    destruct (Hf i a Hi) as (b & Hb & _). simpl. by rewrite Hb. }
  exists k. split; [done|]. split; [by eapply mapM_Some_length|].
  intros i b Hb. apply mapM_Some in Hk.
  destruct (Forall2_lookup_r _ _ _ _ _ Hk Hb) as (a & Ha & Hfa).
  destruct (Hf i a Ha) as (b' & Hb' & HP). congruence.
Qed.

Lemma mapM_total (f : A → option B) (g : A → B) (l : list A) :
  (∀ a, a ∈ l → f a = Some (g a)) → mapM f l = Some (g <$> l).
Proof.
  intros Hf. apply mapM_Some, Forall2_fmap_r, Forall_Forall2_diag, Forall_forall.
  exact Hf.
Qed.
End mapM_spec.

Section attention_lemmas.
Import Tensor MatchRNNEncoder.
Local Open Scope R_scope.

Lemma column_vec_dim d x b c : vec_dim d x → column x b = Some c →
  Forall (λ v : list R, length v = d) c.
Proof.
  intros Hd Hc. apply Forall_forall. intros v Hv.
  apply list_elem_of_lookup in Hv as [t Ht]. apply mapM_Some in Hc.
  destruct (Forall2_lookup_r _ _ _ _ _ Hc Ht) as (row & Hrow & Hv).
  pose proof (Forall_lookup_1 _ _ _ _ Hd Hrow) as Hr.
  by apply (Forall_lookup_1 _ _ _ _ Hr Hv).
Qed.

(** the scores of one batch element: all dot products of a passage
    vector with an answer vector *)
Lemma scores_one (d : nat) (sb ab abT : list (list R)) :
  (0 < d)%nat → ab ≠ [] →
  Forall (λ v, length v = d) sb → Forall (λ v, length v = d) ab →
  transpose ab = Some abT →
  matmul sb abT = Some ((λ r, (λ a, Rsum (zip_with Rmult r a)) <$> ab) <$> sb).
Proof.
  intros Hd Hne Hsb Hab HT. unfold matmul.
  rewrite (transpose_involutive (length ab) d ab abT); [|by split|..|done].
  2:{ destruct ab; [done|simpl; lia]. }
  2:{ done. }
  simpl. apply mapM_total. intros r Hr. apply mapM_total. intros a Ha.
  apply dot_Some.
  rewrite (proj1 (Forall_forall _ _) Hsb r Hr), (proj1 (Forall_forall _ _) Hab a Ha).
  done.
Qed.

(** the weighted sums of one batch element *)
Lemma matched_one (a d : nat) (alpha_b ab : list (list R)) :
  (0 < a)%nat → length ab = a →
  Forall (λ v, length v = d) ab → Forall (λ w, length w = a) alpha_b →
  ∃ out, matmul alpha_b ab = Some out ∧ length out = length alpha_b ∧
    ∀ i v, out !! i = Some v →
      length v = d ∧
      ∃ w, alpha_b !! i = Some w ∧
        ∀ (k : nat) a_k, column ab k = Some a_k → (k < d)%nat →
          v !! k = Some (Rsum (zip_with Rmult w a_k)).
Proof.
  intros Ha Hlen Hab Halpha. unfold matmul.
  destruct (transpose_Some a d ab) as (cols & -> & [Hcl Hcr] & Hcol & _);
    [by split|done|].
  simpl. apply mapM_spec. intros i w Hw.
  pose proof (Forall_lookup_1 _ _ _ _ Halpha Hw) as Hwl. simpl in Hwl.
  destruct (mapM_spec (dot w) (λ k r, ∀ a_k, column ab k = Some a_k →
              r = Rsum (zip_with Rmult w a_k)) cols) as (v & Hv & Hvl & Hvk).
  { intros k c Hc. assert (k < d)%nat as Hk by (apply lookup_lt_Some in Hc; lia).
    exists (Rsum (zip_with Rmult w c)). split.
    - apply dot_Some. rewrite (Forall_lookup_1 _ _ _ _ Hcr Hc). done.
    - intros a_k Hak. rewrite Hcol in Hc by done. congruence. }
  exists v. split; [done|]. split; [lia|]. exists w. split; [done|].
  intros k a_k Hak Hk. destruct (lookup_lt_is_Some_2 v k) as [r Hr]; [lia|].
  rewrite Hr. f_equal. by apply (Hvk k r Hr).
Qed.
End attention_lemmas.

Section match_layer_lemmas.
Import Tensor MatchRNNEncoder.
Local Open Scope R_scope.

Lemma not_blank_Some (a b : nat) (x : list (list (list Z))) mask :
  has_shape a b x → not_blank x = Some mask →
  has_shape a b mask ∧
  ∀ (j i : nat) tok rest, at2 x j i = Some (tok :: rest) →
    at2 mask j i = Some (if bool_decide (tok ≠ 1%Z) then 1%Z else 0%Z).
Proof.
  intros [Hxl Hxr] Hm. unfold not_blank in Hm. split; [split|].
  - apply mapM_Some_length in Hm. lia.
  - apply Forall_forall. intros mrow Hr. apply list_elem_of_lookup in Hr as [j Hj].
    apply mapM_Some in Hm. destruct (Forall2_lookup_r _ _ _ _ _ Hm Hj) as (row & Hrow & Hmr).
    apply mapM_Some_length in Hmr. rewrite Hmr.
    by apply (Forall_lookup_1 _ _ _ _ Hxr Hrow).
  - intros j i tok rest Hat. unfold at2 in *.
    destruct (x !! j) as [row|] eqn:Hrow; [|done]. simpl in Hat.
    destruct (mapM_lookup_Some _ _ _ _ _ Hm Hrow) as (mrow & -> & Hmr). simpl.
    destruct (mapM_lookup_Some _ _ _ _ _ Hmr Hat) as (m & -> & Hmv).
    simpl in Hmv. done.
Qed.

(** the attention weights of the match layer *)
Lemma attention_Some (s b a d : nat) (src ans : list (list (list R)))
    (mask : list (list Z)) :
  (0 < s)%nat → (0 < b)%nat → (0 < a)%nat → (0 < d)%nat →
  has_shape s b src → vec_dim d src → has_shape a b ans → vec_dim d ans →
  has_shape a b mask →
  (∀ i, (i < b)%nat → ∃ j : nat, at2 mask j i = Some 1%Z) →
  ∃ alpha, attention src ans mask = Some alpha ∧ has_shape b s alpha ∧
    ∀ (i t : nat) w, at2 alpha i t = Some w → weights_ok mask a i w.
Proof.
  intros Hs Hb Ha Hd Hsrc Hsd Hans Had Hmask Hunmasked. unfold attention.
  destruct (transpose_Some a b mask Hmask Ha) as (ym & -> & Hyms & Hymc & Hymat).
  destruct (transpose_Some s b src Hsrc Hs) as (ys & -> & Hyss & Hysc & _).
  destruct (transpose_Some a b ans Hans Ha) as (ya & -> & Hyas & Hyac & _).
  simpl.
  (* the transposed answer matrices *)
  destruct (mapM_spec transpose
              (λ i abT, ∃ ab, ya !! i = Some ab ∧ transpose ab = Some abT) ya)
    as (yaT & -> & HyaTl & HyaT).
  { intros i ab Hab. assert (i < b)%nat as Hi.
    { apply lookup_lt_Some in Hab. destruct Hyas. lia. }
    destruct (transpose_Some a d ab) as (abT & HabT & _); [|done|by eauto].
    split. { destruct Hyas as [_ Hr]. by apply (Forall_lookup_1 _ _ _ _ Hr Hab). }
    rewrite Hyac in Hab by done. exact (column_vec_dim d ans i ab Had Hab). }
  simpl.
  (* the scores *)
  pose proof Hyss as [Hysl Hysr]. pose proof Hyas as [Hyal Hyar].
  pose proof Hyms as [Hyml Hymr].
  unfold bmm. rewrite bool_decide_eq_true_2 by lia.
  destruct (mapM_spec (λ ab : list (list R) * list (list R), matmul ab.1 ab.2)
              (λ i sc, length sc = s ∧ Forall (λ r, length r = a) sc) (zip ys yaT))
    as (scores & -> & Hscl & Hsc).
  { intros i [sb abT] Hi. apply lookup_zip_with_Some in Hi as (? & ? & Heq & Hsb & HabT).
    injection Heq as <- <-. destruct (HyaT i abT HabT) as (ab & Hab & HT).
    assert (i < b)%nat as Hib by (apply lookup_lt_Some in Hab; lia).
    eexists. split.
    - simpl. apply (scores_one d sb ab abT); [done| | | |done].
      + pose proof (Forall_lookup_1 _ _ _ _ Hyar Hab) as Hl. simpl in Hl.
        intros ->. simpl in Hl. lia.
      + rewrite Hysc in Hsb by done. exact (column_vec_dim d src i sb Hsd Hsb).
      + rewrite Hyac in Hab by done. exact (column_vec_dim d ans i ab Had Hab).
    - split.
      + rewrite length_fmap. by apply (Forall_lookup_1 _ _ _ _ Hysr Hsb).
      + apply Forall_fmap, Forall_forall. intros r _. simpl. rewrite length_fmap.
        by apply (Forall_lookup_1 _ _ _ _ Hyar Hab). }
  simpl. rewrite length_zip_with in Hscl.
  (* masking *)
  unfold masked_fill. rewrite bool_decide_eq_true_2 by lia.
  destruct (mapM_spec (λ sm : list (list R) * list Z, mapM (masked_fill_row sm.2) sm.1)
              (λ i msc, length msc = s ∧ ∀ (t : nat) r, msc !! t = Some r →
                 length r = a ∧
                 (∀ (j : nat) (m : Z), at2 mask j i = Some m → m ≠ 1%Z →
                    r !! j = Some NegInf) ∧
                 forallb is_neg_inf r = false) (zip scores ym))
    as (masked & -> & Hmal & Hma).
  { intros i [sc mb] Hi. apply lookup_zip_with_Some in Hi as (? & ? & Heq & Hsci & Hmb).
    injection Heq as <- <-. destruct (Hsc i sc Hsci) as [Hscs Hscr].
    assert (i < b)%nat as Hib by (apply lookup_lt_Some in Hmb; lia).
    pose proof (Forall_lookup_1 _ _ _ _ Hymr Hmb) as Hmbl. simpl in Hmbl.
    assert (∀ j : nat, mb !! j = at2 mask j i) as Hmbat.
    { intros j. destruct (decide (j < a)%nat) as [Hj|Hj].
      - rewrite <- Hymat by done. unfold at2. by rewrite Hmb.
      - rewrite (proj2 (lookup_ge_None mb j)) by lia. unfold at2.
        destruct Hmask as [Hml _].
        by rewrite (proj2 (lookup_ge_None mask j)) by lia. }
    simpl.
    destruct (mapM_spec (masked_fill_row mb)
                (λ (_ : nat) r, length r = a ∧
                   (∀ (j : nat) (m : Z), at2 mask j i = Some m → m ≠ 1%Z →
                      r !! j = Some NegInf) ∧
                   forallb is_neg_inf r = false) sc) as (msc & Hmsc & Hmscl & Hmscr).
    { intros t row Hrow.
      destruct (masked_fill_row_Some mb row) as (r & Hr & Hrl & Hrm & Hrf).
      { rewrite (Forall_lookup_1 _ _ _ _ Hscr Hrow). lia. }
      exists r. split; [done|]. split; [lia|]. split.
      - intros j m Hm. apply Hrm. by rewrite Hmbat.
      - apply Hrf. destruct (Hunmasked i Hib) as [j Hj]. exists j. by rewrite Hmbat. }
    exists msc. split; [done|]. split; [lia|]. done. }
  simpl. rewrite length_zip_with in Hmal.
  (* softmax *)
  destruct (mapM_spec (mapM softmax_row)
              (λ i al, length al = s ∧
                 ∀ (t : nat) w, al !! t = Some w → weights_ok mask a i w) masked)
    as (alpha & Halpha & Hall & Hal).
  { intros i msc Hmsc. destruct (Hma i msc Hmsc) as [Hmscl Hmscr].
    destruct (mapM_spec softmax_row (λ (_ : nat) w, weights_ok mask a i w) msc)
      as (al & Hal & Hall & Halr).
    { intros t r Hr. destruct (Hmscr t r Hr) as (Hrl & Hrm & Hrf).
      destruct (softmax_row_Some r Hrf) as (w & Hw & Hwl & Hwz & Hwn & Hw1).
      exists w. split; [done|]. split; [lia|]. split; [|done].
      intros j m Hm Hne. apply Hwz. by apply (Hrm j m). }
    exists al. split; [done|]. split; [lia|done]. }
  exists alpha. split; [done|]. split.
  - split; [lia|]. apply Forall_forall. intros al Hi.
    apply list_elem_of_lookup in Hi as [i Hi]. by destruct (Hal i al Hi).
  - intros i t w Hw. unfold at2 in Hw. destruct (alpha !! i) as [al|] eqn:Hali; [|done].
    simpl in Hw. destruct (Hal i al Hali) as [_ Hrows]. by apply (Hrows t).
Qed.
End match_layer_lemmas.

(** C4. Let the passage outputs have shape [s x b x d], the answer
    outputs shape [a x b x d] and the answer input shape [a x b], and let
    every batch element have an answer position whose word is not the
    padding word [1].  Then the match layer is defined, and for every
    batch element [i] and passage position [t] the attention weights
    [alpha[i][t]] over the [a] answer positions are exactly zero on every
    padding position, are non-negative and sum to one, and the matched
    vector at [(t, i)] is the sum of the answer vectors of batch element
    [i] weighted by them (coordinate [k] is the weighted sum of the
    [k]-th coordinates [a_k]). *)
Theorem match_layer_ignores_padding (s b a d : nat) (src ans : list (list (list R)))
    (ans_input : list (list (list Z))) (mask : list (list Z)) :
  (0 < s)%nat → (0 < b)%nat → (0 < a)%nat → (0 < d)%nat →
  Tensor.has_shape s b src → MatchRNNEncoder.vec_dim d src →
  Tensor.has_shape a b ans → MatchRNNEncoder.vec_dim d ans →
  Tensor.has_shape a b ans_input →
  MatchRNNEncoder.not_blank ans_input = Some mask →
  (∀ i, (i < b)%nat →
     ∃ (j : nat) tok rest, Tensor.at2 ans_input j i = Some (tok :: rest) ∧ tok ≠ 1) →
  ∃ alpha matched,
    MatchRNNEncoder.attention src ans mask = Some alpha ∧
    MatchRNNEncoder.match_layer src ans mask = Some matched ∧
    Tensor.has_shape b s alpha ∧ Tensor.has_shape s b matched ∧
    ∀ i t, (i < b)%nat → (t < s)%nat →
      ∃ w v,
        Tensor.at2 alpha i t = Some w ∧ length w = a ∧
        (∀ (j : nat) rest, Tensor.at2 ans_input j i = Some (1 :: rest) →
           w !! j = Some 0%R) ∧
        Forall (λ r, (0 <= r)%R) w ∧ MatchRNNEncoder.Rsum w = 1%R ∧
        Tensor.at2 matched t i = Some v ∧ length v = d ∧
        ∀ (k : nat) a_k, (k < d)%nat →
          (ab ← Tensor.column ans i; Tensor.column ab k) = Some a_k →
          v !! k = Some (MatchRNNEncoder.Rsum (zip_with Rmult w a_k)).
Proof.
  intros Hs Hb Ha Hd Hsrc Hsd Hans Had Hin Hmask Hunmasked.
  destruct (not_blank_Some a b ans_input mask Hin Hmask) as [Hms Hmat].
  destruct (attention_Some s b a d src ans mask) as (alpha & Halpha & Hals & Hw); try done.
  { intros i Hi. destruct (Hunmasked i Hi) as (j & tok & rest & Hat & Hne).
    exists j. rewrite (Hmat j i tok rest Hat). by rewrite bool_decide_eq_true_2. }
  unfold MatchRNNEncoder.match_layer. rewrite Halpha. simpl.
  destruct (transpose_Some a b ans Hans Ha) as (ya & -> & [Hyal Hyar] & Hyac & _).
  simpl. pose proof Hals as [Hall Halr].
  unfold MatchRNNEncoder.bmm. rewrite bool_decide_eq_true_2 by lia.
  destruct (mapM_spec (λ ab : list (list R) * list (list R), MatchRNNEncoder.matmul ab.1 ab.2)
              (λ i out, ∃ al ab, alpha !! i = Some al ∧ Tensor.column ans i = Some ab ∧
                 length out = s ∧
                 ∀ t v, out !! t = Some v →
                   length v = d ∧
                   ∃ w, al !! t = Some w ∧
                     ∀ (k : nat) a_k, Tensor.column ab k = Some a_k → (k < d)%nat →
                       v !! k = Some (MatchRNNEncoder.Rsum (zip_with Rmult w a_k)))
              (zip alpha ya)) as (outs & -> & Houtl & Hout).
  { intros i [al ab] Hi. apply lookup_zip_with_Some in Hi as (? & ? & Heq & Hal & Hab).
    injection Heq as <- <-.
    assert (i < b)%nat as Hib by (apply lookup_lt_Some in Hab; lia).
    pose proof (Forall_lookup_1 _ _ _ _ Halr Hal) as Hall'. simpl in Hall'.
    destruct (matched_one a d al ab) as (out & Hm & Hol & Hov); try done.
    - by apply (Forall_lookup_1 _ _ _ _ Hyar Hab).
    - rewrite Hyac in Hab by done. exact (column_vec_dim d ans i ab Had Hab).
    - apply Forall_forall. intros w Hin'. apply list_elem_of_lookup in Hin' as [t Ht].
      destruct (Hw i t w) as [Hwl _]; [|done]. unfold Tensor.at2. by rewrite Hal.
    - exists out. split; [done|]. exists al, ab. rewrite <- Hyac by done.
      split; [done|]. split; [done|]. split; [lia|]. done. }
  simpl. rewrite length_zip_with in Houtl.
  destruct (transpose_Some b s outs) as (matched & -> & Hmshape & _ & Hmatat); [|done|].
  { split; [lia|]. apply Forall_forall. intros out Hi.
    apply list_elem_of_lookup in Hi as [i Hi].
    by destruct (Hout i out Hi) as (? & ? & _ & _ & ? & _). }
  exists alpha, matched. split; [done|]. split; [done|]. split; [done|]. split; [done|].
  intros i t Hi Ht.
  destruct (has_shape_at2 b s alpha i t Hals Hi Ht) as [w Hwat].
  destruct (Hw i t w Hwat) as (Hwl & Hwz & Hwn & Hw1).
  destruct (lookup_lt_is_Some_2 outs i) as [out Hout']; [lia|].
  destruct (Hout i out Hout') as (al & ab & Hal & Hab & Hol & Hov).
  destruct (lookup_lt_is_Some_2 out t) as [v Hv]; [lia|].
  destruct (Hov t v Hv) as (Hvl & w' & Hw' & Hvk).
  assert (w' = w) as ->.
  { unfold Tensor.at2 in Hwat. rewrite Hal in Hwat. simpl in Hwat. congruence. }
  exists w, v. split; [done|]. split; [done|]. split.
  { intros j rest Hat. apply (Hwz j 0%Z); [|done].
    rewrite (Hmat j i 1%Z rest Hat). by rewrite bool_decide_eq_false_2 by (intros ?; done). }
  split; [done|]. split; [done|]. split.
  { rewrite Hmatat by done. unfold Tensor.at2. rewrite Hout'. done. }
  split; [done|]. intros k a_k Hk Hak. rewrite Hab in Hak. simpl in Hak.
  by apply Hvk.
Qed.

Lemma match_layer_ignores_padding_example :
  ∃ alpha matched,
    MatchRNNEncoder.attention [[[1%R]]] [[[1%R]]; [[2%R]]] [[1]; [0]] = Some alpha ∧
    MatchRNNEncoder.match_layer [[[1%R]]] [[[1%R]]; [[2%R]]] [[1]; [0]] = Some matched ∧
    Tensor.has_shape 1 1 alpha ∧ Tensor.has_shape 1 1 matched ∧
    ∀ i t, (i < 1)%nat → (t < 1)%nat →
      ∃ w v,
        Tensor.at2 alpha i t = Some w ∧ length w = 2%nat ∧
        (∀ (j : nat) rest, Tensor.at2 [[[5]]; [[1]]] j i = Some (1 :: rest) →
           w !! j = Some 0%R) ∧
        Forall (λ r, (0 <= r)%R) w ∧ MatchRNNEncoder.Rsum w = 1%R ∧
        Tensor.at2 matched t i = Some v ∧ length v = 1%nat ∧
        ∀ (k : nat) a_k, (k < 1)%nat →
          (ab ← Tensor.column [[[1%R]]; [[2%R]]] i; Tensor.column ab k) = Some a_k →
          v !! k = Some (MatchRNNEncoder.Rsum (zip_with Rmult w a_k)).
Proof.
  apply (match_layer_ignores_padding 1 1 2 1 [[[1%R]]] [[[1%R]]; [[2%R]]]
           [[[5]]; [[1]]] [[1]; [0]]); try lia.
  - split; [reflexivity|]. repeat constructor.
  - repeat constructor.
  - split; [reflexivity|]. repeat constructor.
  - repeat constructor.
  - split; [reflexivity|]. repeat constructor.
  - reflexivity.
  - intros i Hi. exists 0%nat, 5, []. destruct i; [|lia]. split; [reflexivity|lia].
Defined.

(** ** The match layer of [forward] on numbers *)

Section match_layer_values.
Import Tensor MatchRNNEncoder.

Lemma mapM_fmap_in {A B C} (f : B → option C) (g : A → B) (l : list A) :
  mapM f (g <$> l) = mapM (λ a, f (g a)) l.
Proof.
  induction l as [|a l IH]; [done|]. rewrite fmap_cons. cbn [mapM].
  rewrite IH. done.
Qed.

Lemma mapM_fmap_out {A B C} (f : A → option B) (h : B → C) (l : list A) :
  mapM (λ a, h <$> f a) l = fmap (M:=list) h <$> mapM f l.
Proof.
  induction l as [|a l IH]; [done|]. cbn [mapM]. rewrite IH.
  destruct (f a); [|done]. simpl. by destruct (mapM f l).
Qed.

Lemma column_fmap {A B} (g : A → B) (x : list (list A)) i :
  column (fmap (M:=list) g <$> x) i = fmap (M:=list) g <$> column x i.
Proof.
  unfold column. rewrite mapM_fmap_in, <- mapM_fmap_out.
  apply mapM_ext. intros row. apply list_lookup_fmap.
Qed.

Lemma size1_fmap {A B} (g : A → B) (x : list (list A)) :
  size1 (fmap (M:=list) g <$> x) = size1 x.
Proof. destruct x; simpl; [done|apply length_fmap]. Qed.

Lemma transpose_fmap {A B} (g : A → B) (x : list (list A)) :
  transpose (fmap (M:=list) g <$> x) = fmap (M:=list) (fmap (M:=list) g) <$> transpose x.
Proof.
  unfold transpose. rewrite size1_fmap, <- mapM_fmap_out.
  apply mapM_ext. intros i. apply column_fmap.
Qed.

Lemma transpose_nums (x : list (list (list R))) :
  transpose (nums x) = nums <$> transpose x.
Proof. unfold nums. apply transpose_fmap. Qed.

Lemma fsum_nums (u v : list R) :
  fsum (zip_with fmul (Num <$> u) (Num <$> v)) = Num (Rsum (zip_with Rmult u v)).
Proof.
  revert v. induction u as [|a u IH]; intros [|b v]; try done.
  simpl. unfold fsum in IH. by rewrite IH.
Qed.

Lemma dot_f_nums (u v : list R) : dot_f (Num <$> u) (Num <$> v) = Num <$> dot u v.
Proof.
  unfold dot_f, dot. rewrite !length_fmap. case_bool_decide; [|done].
  simpl. by rewrite fsum_nums.
Qed.

Lemma matmul_f_nums (m1 m2 : list (list R)) :
  matmul_f (fmap (M:=list) Num <$> m1) (fmap (M:=list) Num <$> m2) = fmap (M:=list) (fmap (M:=list) Num) <$> matmul m1 m2.
Proof.
  unfold matmul_f, matmul. rewrite transpose_fmap.
  destruct (transpose m2) as [cols|]; [|done]. simpl.
  rewrite mapM_fmap_in, <- mapM_fmap_out. apply mapM_ext. intros r.
  rewrite mapM_fmap_in, <- mapM_fmap_out. apply mapM_ext. intros c.
  apply dot_f_nums.
Qed.

Lemma bmm_f_nums (x y : list (list (list R))) :
  bmm_f (nums x) (nums y) = nums <$> bmm x y.
Proof.
  unfold bmm_f, bmm, nums. rewrite !length_fmap. case_bool_decide; [|done].
  rewrite <- mapM_fmap_out.
  assert (zip (fmap (M:=list) (fmap (M:=list) Num) <$> x) (fmap (M:=list) (fmap (M:=list) Num) <$> y) =
          (λ ab : list (list R) * list (list R),
             (fmap (M:=list) (fmap (M:=list) Num) ab.1, fmap (M:=list) (fmap (M:=list) Num) ab.2)) <$> zip x y) as ->.
  { clear. revert y. induction x as [|a x IH]; intros [|b y]; try done.
    simpl. f_equal. apply IH. }
  rewrite mapM_fmap_in. apply mapM_ext. intros [a b]. apply matmul_f_nums.
Qed.

Lemma masked_fill_row_f_nums (mask : list Z) (row : list R) :
  masked_fill_row_f mask (Num <$> row) = fmap (M:=list) of_score <$> masked_fill_row mask row.
Proof.
  unfold masked_fill_row_f, masked_fill_row. rewrite length_fmap.
  case_bool_decide; [|done]. simpl. f_equal.
  clear. revert mask. induction row as [|r row IH]; intros [|m mask]; try done.
  simpl. rewrite IH. f_equal. by case_bool_decide.
Qed.

Lemma masked_fill_f_nums (scores : list (list (list R))) (mask : list (list Z)) :
  masked_fill_f (nums scores) mask =
  fmap (M:=list) (fmap (M:=list) (fmap (M:=list) of_score)) <$> masked_fill scores mask.
Proof.
  unfold masked_fill_f, masked_fill, nums. rewrite length_fmap.
  case_bool_decide; [|done]. rewrite <- mapM_fmap_out.
  assert (zip (fmap (M:=list) (fmap (M:=list) Num) <$> scores) mask =
          (λ sm : list (list R) * list Z, (fmap (M:=list) (fmap (M:=list) Num) sm.1, sm.2))
            <$> zip scores mask) as ->.
  { clear. revert mask. induction scores as [|a x IH]; intros [|b y]; try done.
    simpl. f_equal. apply IH. }
  rewrite mapM_fmap_in. apply mapM_ext. intros [sc m]. simpl.
  rewrite mapM_fmap_in, <- mapM_fmap_out. apply mapM_ext. intros row.
  apply masked_fill_row_f_nums.
Qed.

Lemma softmax_row_f_nums (row : list score) w :
  softmax_row row = Some w → softmax_row_f (of_score <$> row) = Num <$> w.
Proof.
  unfold softmax_row, softmax_row_f.
  assert (existsb (λ s, match s with NaN | PInf => true | _ => false end)
            (of_score <$> row) = false) as ->.
  { induction row as [|[|r] row IH]; simpl; done. }
  assert (forallb (λ s, match s with NInf => true | _ => false end) (of_score <$> row)
          = forallb is_neg_inf row) as ->.
  { induction row as [|[|r] row IH]; simpl; done. }
  destruct (forallb is_neg_inf row); [done|]. intros [= <-]. simpl.
  assert (exp_f <$> (of_score <$> row) = exp_score <$> row) as ->.
  { rewrite <- list_fmap_compose. apply list_fmap_ext. by intros _ [|r] _. }
  rewrite <- !list_fmap_compose.
  apply list_fmap_ext. intros _ [|r] _; done.
Qed.

Lemma softmax_f_nums (scores : list (list (list score))) alpha :
  softmax scores = Some alpha →
  softmax_f (fmap (M:=list) (fmap (M:=list) of_score) <$> scores) = nums alpha.
Proof.
  unfold softmax, softmax_f, nums. intros Hs. apply mapM_Some in Hs.
  rewrite <- list_fmap_compose. apply list_eq_Forall2.
  apply Forall2_fmap. eapply Forall2_impl; [exact Hs|].
  intros m al Hm. simpl. apply mapM_Some in Hm.
  rewrite <- list_fmap_compose. apply list_eq_Forall2.
  apply Forall2_fmap. eapply Forall2_impl; [exact Hm|].
  intros row w Hw. simpl. by apply softmax_row_f_nums.
Qed.

Lemma mapM_transpose_nums (x : list (list (list R))) :
  mapM transpose (nums x) = nums <$> mapM transpose x.
Proof.
  unfold nums. rewrite mapM_fmap_in, <- mapM_fmap_out. apply mapM_ext.
  intros m. apply transpose_fmap.
Qed.

(** where the match layer is a tensor of numbers, the match layer of
    [forward] is that tensor *)
Lemma attention_f_nums (src ans : list (list (list R))) (mask : list (list Z)) alpha :
  attention src ans mask = Some alpha →
  attention_f (nums src) (nums ans) mask = Some (nums alpha).
Proof.
  unfold attention, attention_f. intros Ha.
  destruct (transpose mask) as [ym|]; [|done]. simpl in *.
  rewrite !transpose_nums.
  destruct (transpose src) as [ys|]; [|done]. simpl in *.
  destruct (transpose ans) as [ya|]; [|done]. simpl in *.
  rewrite mapM_transpose_nums.
  destruct (mapM transpose ya) as [yaT|]; [|done]. simpl in *.
  rewrite bmm_f_nums.
  destruct (bmm ys yaT) as [scores|]; [|done]. simpl in *.
  rewrite masked_fill_f_nums.
  destruct (masked_fill scores ym) as [masked|]; [|done]. simpl in *.
  by rewrite (softmax_f_nums masked alpha).
Qed.

Lemma match_layer_f_nums (src ans : list (list (list R))) (mask : list (list Z)) matched :
  match_layer src ans mask = Some matched →
  match_layer_f (nums src) (nums ans) mask = Some (nums matched).
Proof.
  unfold match_layer, match_layer_f. intros Hm.
  destruct (attention src ans mask) as [alpha|] eqn:Ha; [|done]. simpl in Hm.
  rewrite (attention_f_nums src ans mask alpha Ha). simpl.
  rewrite transpose_nums.
  destruct (transpose ans) as [ya|]; [|done]. simpl in *.
  rewrite bmm_f_nums.
  destruct (bmm alpha ya) as [out|]; [|done]. simpl in *.
  rewrite transpose_nums, Hm. done.
Qed.
End match_layer_values.

(** ** The final state of the match-attention encoder *)

Section final_state.
Import MatchRNNEncoder.

Lemma cat0_Some {A} (x y l : list (list (list A))) : cat0 x y = Some l → l = x ++ y.
Proof.
  unfold cat0. destruct (x ++ y) as [|m t]; [by intros [= <-]|].
  case_bool_decide; [by intros [= <-]|done].
Qed.

Lemma fmul_zero (x : flt) : zeroed x (fmul x (Num 0)).
Proof.
  unfold zeroed. destruct x as [r| | |]; simpl; [by rewrite Rmult_0_r| | |done];
    unfold inf_times; by destruct (Req_EM_T 0 0).
Qed.

(** entry by entry, [t * 0] is zero where [t] is a number and NaN elsewhere *)
Lemma times_zero_zeroed (t : list (list (list flt))) :
  Forall2 (Forall2 (Forall2 zeroed)) t (times_zero t).
Proof.
  unfold times_zero. apply Forall2_fmap_r, Forall_Forall2_diag, Forall_forall.
  intros m _. apply Forall2_fmap_r, Forall_Forall2_diag, Forall_forall.
  intros v _. apply Forall2_fmap_r, Forall_Forall2_diag, Forall_forall.
  intros x _. apply fmul_zero.
Qed.

Lemma times_zero_all_zero (t : list (list (list flt))) :
  Forall (Forall (Forall (λ x, is_num x = true))) t →
  Forall (Forall (Forall (λ z, z = Num 0))) (times_zero t).
Proof.
  intros Ht. unfold times_zero. apply Forall_fmap.
  eapply Forall_impl; [exact Ht|]. intros m Hm. simpl. apply Forall_fmap.
  eapply Forall_impl; [exact Hm|]. intros v Hv. simpl. apply Forall_fmap.
  eapply Forall_impl; [exact Hv|]. intros x Hx. simpl.
  pose proof (fmul_zero x) as Hz. unfold zeroed in Hz. by rewrite Hx in Hz.
Qed.
End final_state.

(** C5 as stated fails: when the answer is all padding, every score of
    the match layer is masked, the softmax is NaN, the NaN reaches the
    second recurrent layer through the gate, and the final state that
    [forward] returns holds [NaN * 0], which is NaN and not zero.  Here the
    source and the answer have one position and one batch element, the
    answer word is the padding word [1], the gate's linear layer sums
    its inputs and the second recurrent layer ends in the state that is
    its input. *)
Lemma forward_all_padding_answer_state_is_nan :
  MatchRNNEncoder.forward TorchSort.sort_with_indices
    (fmap (M:=list) (fmap (M:=list) (λ _ : list Z, [MatchRNNEncoder.Num 1])))
    (λ x _, Some (x, ([[[MatchRNNEncoder.Num 2]]], [[[MatchRNNEncoder.Num 3]]])))
    MatchRNNEncoder.example_rnn MatchRNNEncoder.example_rnn
    MatchRNNEncoder.example_fc1 (λ x, x) ([[[5]]], [[[1]]]) ([1], [1])
  = Some (([[[MatchRNNEncoder.Num (2 * 0)]]; [[MatchRNNEncoder.NaN]]],
           [[[MatchRNNEncoder.Num (3 * 0)]]; [[MatchRNNEncoder.NaN]]]),
          [[[MatchRNNEncoder.NaN]]]) ∧
  ¬ Forall (Forall (Forall (λ x, x = MatchRNNEncoder.Num 0)))
      [[[MatchRNNEncoder.Num (2 * 0)]]; [[MatchRNNEncoder.NaN]]].
Proof.
  split; [reflexivity|]. intros H.
  apply Forall_cons in H as [_ H]. apply Forall_cons in H as [H _].
  apply Forall_cons in H as [H _]. apply Forall_cons in H as [H _]. discriminate H.
Qed.

(** C5, amended. Whatever the sub-modules and the input, when
    [MatchRNNEncoder.forward] returns, both components of the final state
    are the concatenations of the two layers' [h] (resp. [c]) multiplied
    by zero: an entry is zero where the entry of the layer state is a
    number and NaN where it is an infinity or NaN.  So the final state
    is zero throughout exactly when the two recurrent layers return
    states of numbers; and the context is the output [src_outputs2] of
    the second recurrent layer, which the zeroing does not touch. *)
Theorem forward_final_state_is_zero_where_finite
    (torch_sort : bool → list Z → list Z * list Z)
    (embeddings : list (list (list Z)) → list (list (list MatchRNNEncoder.flt)))
    (bi_rnn1 bi_rnn2 ans_bi_rnn : MatchRNNEncoder.lstm)
    (fc1 : list MatchRNNEncoder.flt → list MatchRNNEncoder.flt)
    (dropout : list (list (list MatchRNNEncoder.flt)) →
               list (list (list MatchRNNEncoder.flt)))
    input lengths hidden_t context :
  MatchRNNEncoder.forward torch_sort embeddings bi_rnn1 bi_rnn2 ans_bi_rnn fc1 dropout
    input lengths = Some (hidden_t, context) →
  ∃ src_hidden_t1 src_hidden_t2,
    MatchRNNEncoder.forward_body torch_sort embeddings bi_rnn1 bi_rnn2 ans_bi_rnn
      fc1 dropout input lengths = Some (src_hidden_t1, src_hidden_t2, context) ∧
    Forall2 (Forall2 (Forall2 MatchRNNEncoder.zeroed))
      (src_hidden_t1.1 ++ src_hidden_t2.1) hidden_t.1 ∧
    Forall2 (Forall2 (Forall2 MatchRNNEncoder.zeroed))
      (src_hidden_t1.2 ++ src_hidden_t2.2) hidden_t.2 ∧
    (Forall (Forall (Forall (λ x, MatchRNNEncoder.is_num x = true)))
       (src_hidden_t1.1 ++ src_hidden_t2.1) ↔
     Forall (Forall (Forall (λ z, z = MatchRNNEncoder.Num 0))) hidden_t.1) ∧
    (Forall (Forall (Forall (λ x, MatchRNNEncoder.is_num x = true)))
       (src_hidden_t1.2 ++ src_hidden_t2.2) ↔
     Forall (Forall (Forall (λ z, z = MatchRNNEncoder.Num 0))) hidden_t.2).
Proof.
  unfold MatchRNNEncoder.forward. intros Hfwd.
  destruct (MatchRNNEncoder.forward_body _ _ _ _ _ _ _ _ _)
    as [[[h1 h2] out]|]; [|done].
  cbn [mbind option_bind] in Hfwd.
  destruct (MatchRNNEncoder.cat0 h1.1 h2.1) as [h|] eqn:Hh; [|done].
  destruct (MatchRNNEncoder.cat0 h1.2 h2.2) as [c|] eqn:Hc; [|done].
  apply cat0_Some in Hh as ->. apply cat0_Some in Hc as ->.
  simpl in Hfwd. injection Hfwd as <- <-. cbn [fst snd].
  exists h1, h2. split; [done|].
  split; [apply times_zero_zeroed|]. split; [apply times_zero_zeroed|].
  assert (∀ t, Forall (Forall (Forall (λ z, z = MatchRNNEncoder.Num 0)))
                 (MatchRNNEncoder.times_zero t) →
               Forall (Forall (Forall (λ x, MatchRNNEncoder.is_num x = true))) t) as Hback.
  { intros t Hz. pose proof (times_zero_zeroed t) as Ht.
    apply Forall_forall. intros m Hm. apply list_elem_of_lookup in Hm as [i Hi].
    destruct (Forall2_lookup_l _ _ _ _ _ Ht Hi) as (m' & Hi' & Hmm).
    pose proof (Forall_lookup_1 _ _ _ _ Hz Hi') as Hzm.
    apply Forall_forall. intros v Hv. apply list_elem_of_lookup in Hv as [j Hj].
    destruct (Forall2_lookup_l _ _ _ _ _ Hmm Hj) as (v' & Hj' & Hvv).
    pose proof (Forall_lookup_1 _ _ _ _ Hzm Hj') as Hzv.
    apply Forall_forall. intros x Hx. apply list_elem_of_lookup in Hx as [k Hk].
    destruct (Forall2_lookup_l _ _ _ _ _ Hvv Hk) as (z & Hk' & Hxz).
    pose proof (Forall_lookup_1 _ _ _ _ Hzv Hk') as Hzz. simpl in Hzz.
    unfold MatchRNNEncoder.zeroed in Hxz. rewrite Hzz in Hxz.
    by destruct (MatchRNNEncoder.is_num x). }
  split; (split; [apply times_zero_all_zero|apply Hback]).
Qed.

Lemma forward_final_state_example :
  ∃ src_hidden_t1 src_hidden_t2,
    MatchRNNEncoder.forward_body TorchSort.sort_with_indices
      (fmap (M:=list) (fmap (M:=list) (λ _ : list Z, [MatchRNNEncoder.Num 1])))
      (λ x _, Some (x, ([[[MatchRNNEncoder.Num 2]]], [[[MatchRNNEncoder.Num 3]]])))
      (λ _ _, Some ([[[MatchRNNEncoder.Num 4]]],
                    ([[[MatchRNNEncoder.Num 2]]], [[[MatchRNNEncoder.Num 3]]])))
      MatchRNNEncoder.example_rnn MatchRNNEncoder.example_fc1 (λ x, x)
      ([[[5]]], [[[7]]]) ([1], [1])
      = Some (src_hidden_t1, src_hidden_t2, [[[MatchRNNEncoder.Num 4]]]) ∧
    Forall2 (Forall2 (Forall2 MatchRNNEncoder.zeroed))
      (src_hidden_t1.1 ++ src_hidden_t2.1)
      [[[MatchRNNEncoder.Num (2 * 0)]]; [[MatchRNNEncoder.Num (2 * 0)]]] ∧
    Forall2 (Forall2 (Forall2 MatchRNNEncoder.zeroed))
      (src_hidden_t1.2 ++ src_hidden_t2.2)
      [[[MatchRNNEncoder.Num (3 * 0)]]; [[MatchRNNEncoder.Num (3 * 0)]]] ∧
    (Forall (Forall (Forall (λ x, MatchRNNEncoder.is_num x = true)))
       (src_hidden_t1.1 ++ src_hidden_t2.1) ↔
     Forall (Forall (Forall (λ z, z = MatchRNNEncoder.Num 0)))
       [[[MatchRNNEncoder.Num (2 * 0)]]; [[MatchRNNEncoder.Num (2 * 0)]]]) ∧
    (Forall (Forall (Forall (λ x, MatchRNNEncoder.is_num x = true)))
       (src_hidden_t1.2 ++ src_hidden_t2.2) ↔
     Forall (Forall (Forall (λ z, z = MatchRNNEncoder.Num 0)))
       [[[MatchRNNEncoder.Num (3 * 0)]]; [[MatchRNNEncoder.Num (3 * 0)]]]).
Proof.
  apply (forward_final_state_is_zero_where_finite TorchSort.sort_with_indices
           (fmap (M:=list) (fmap (M:=list) (λ _ : list Z, [MatchRNNEncoder.Num 1])))
           (λ x _, Some (x, ([[[MatchRNNEncoder.Num 2]]], [[[MatchRNNEncoder.Num 3]]])))
           (λ _ _, Some ([[[MatchRNNEncoder.Num 4]]],
                         ([[[MatchRNNEncoder.Num 2]]], [[[MatchRNNEncoder.Num 3]]])))
           MatchRNNEncoder.example_rnn MatchRNNEncoder.example_fc1 (λ x, x)
           ([[[5]]], [[[7]]]) ([1], [1])
           ([[[MatchRNNEncoder.Num (2 * 0)]]; [[MatchRNNEncoder.Num (2 * 0)]]],
            [[[MatchRNNEncoder.Num (3 * 0)]]; [[MatchRNNEncoder.Num (3 * 0)]]])
           [[[MatchRNNEncoder.Num 4]]]).
  reflexivity.
Defined.

(** ** The decoders and the top-level models *)

Section decoder_lemmas.
Import Tensor DecoderState Decoder.
Variable self : decoder.

Lemma drop_last_shape {A} n b (tgt : list (list A)) :
  has_shape n b tgt → has_shape (n - 1) b (drop_last tgt).
Proof.
  intros [Hn Hrows]. unfold drop_last. split.
  - rewrite length_take. lia.
  - by apply Forall_take.
Qed.

Lemma every_other_length {A} (n : nat) (h : list A) :
  length h = (2 * n)%nat →
  length (every_other true h) = n ∧ length (every_other false h) = n.
Proof.
  revert h. induction n as [|n IH]; intros h Hh.
  - destruct h; [done|simpl in Hh; lia].
  - destruct h as [|x [|y h]]; simpl in Hh; try lia.
    destruct (IH h) as [He Ho]; [lia|]. simpl. by rewrite He, Ho.
Qed.

Lemma fix_enc_hidden_Some h :
  (bidirectional_encoder self = true → ∃ n, length h = (2 * n)%nat) →
  is_Some (_fix_enc_hidden self h).
Proof.
  intros Hh. unfold _fix_enc_hidden. destruct (bidirectional_encoder self); [|done].
  destruct (Hh eq_refl) as [n Hn]. destruct (every_other_length n h Hn) as [-> ->].
  by rewrite bool_decide_eq_true_2.
Qed.

Lemma init_decoder_state_Some context enc_hidden s :
  enc_state_ok self enc_hidden →
  ∃ st, init_decoder_state self context enc_hidden = Some st ∧
    state_ok (size1 context) s st.
Proof.
  intros Hok. unfold init_decoder_state, enc_state_ok in *.
  assert (∀ rnnstate, state_ok (size1 context) s (new_state self context rnnstate)) as Hnew.
  { intros rnnstate. split; simpl; [|by left]. eexists. split; [done|].
    by rewrite length_replicate. }
  destruct enc_hidden as [hs|h].
  - assert (is_Some (mapM (_fix_enc_hidden self) hs)) as [hs' ->].
    { apply mapM_is_Some, Forall_forall. intros h Hh. simpl.
      apply fix_enc_hidden_Some. intros Hbi.
      by apply (proj1 (Forall_forall _ _) (Hok Hbi) h Hh). }
    simpl. eauto.
  - destruct (fix_enc_hidden_Some h Hok) as [h' ->]. simpl. eauto.
Qed.

(** *** The tensor operations of the decoders on well-shaped arguments *)

Lemma has_shape_same {A} b d (x y : list (list A)) :
  has_shape b d x → has_shape b d y → same_shape x y.
Proof.
  intros [Hx Hxr] [Hy Hyr]. apply Forall2_same_length_lookup. split; [congruence|].
  intros i r1 r2 H1 H2.
  rewrite (Forall_lookup_1 _ _ _ _ Hxr H1), (Forall_lookup_1 _ _ _ _ Hyr H2). done.
Qed.

Lemma stack_Some {A} b d (l : list (list (list A))) :
  l ≠ [] → Forall (has_shape b d) l → stack l = Some l.
Proof.
  intros Hne Hl. unfold stack. destruct l as [|x l']; [done|].
  rewrite bool_decide_eq_true_2; [done|].
  pose proof (Forall_inv Hl) as Hx.
  eapply Forall_impl; [exact Hl|]. intros y Hy. by apply (has_shape_same b d).
Qed.

Lemma has_shape3_steps {A} n b d (x : list (list (list A))) :
  has_shape3 n b d x → Forall (has_shape b d) x.
Proof.
  intros [[_ Hr] Hv]. apply Forall_forall. intros e He. split.
  - by apply (proj1 (Forall_forall _ _) Hr).
  - by apply (proj1 (Forall_forall _ _) Hv).
Qed.

Lemma cat1_Some {A} (x y : list (list A)) :
  length x = length y →
  cat1 x y = Some (zip_with app x y) ∧ length (zip_with app x y) = length x.
Proof.
  intros Hl. unfold cat1. rewrite bool_decide_eq_true_2 by done.
  split; [done|]. rewrite length_zip_with. lia.
Qed.

Lemma broadcast_extent_same m : broadcast_extent m m = m.
Proof. unfold broadcast_extent. by case_bool_decide. Qed.

Lemma expand_to_same {A} (l : list A) : expand_to (length l) l = Some l.
Proof. unfold expand_to. by rewrite bool_decide_eq_true_2. Qed.

Lemma zip_add_shape b s (x y : list (list R)) :
  has_shape b s x → has_shape b s y → has_shape b s (zip_with (zip_with Rplus) x y).
Proof.
  intros [Hx Hxr] [Hy Hyr]. split; [rewrite length_zip_with; lia|].
  apply Forall_forall. intros r Hr. apply list_elem_of_lookup in Hr as [i Hi].
  apply lookup_zip_with_Some in Hi as (r1 & r2 & -> & H1 & H2).
  rewrite length_zip_with.
  rewrite (Forall_lookup_1 _ _ _ _ Hxr H1), (Forall_lookup_1 _ _ _ _ Hyr H2). lia.
Qed.

(** on two matrices of one shape [+] is the entry-wise sum *)
Lemma tensor_add_same_shape b s (x y : list (list R)) :
  has_shape b s x → has_shape b s y →
  tensor_add x y = Some (zip_with (zip_with Rplus) x y).
Proof.
  intros [Hx Hxr] [Hy Hyr]. unfold tensor_add.
  assert (size1 x = size1 y) as Hsz.
  { destruct x as [|r1 x], y as [|r2 y]; simpl in *; try lia.
    rewrite (Forall_inv Hxr), (Forall_inv Hyr). done. }
  rewrite Hx, Hy, <- Hsz, !broadcast_extent_same.
  assert (∀ z : list (list R), length z = b → Forall (λ row, length row = s) z →
            size1 z = size1 x →
            mapM (expand_to (size1 x)) z ≫= expand_to b = Some z) as Hexp.
  { intros z Hz Hzr Hzs.
    assert (mapM (expand_to (size1 x)) z = Some z) as ->.
    { apply mapM_Some, Forall_Forall2_diag, Forall_forall. intros row Hrow.
      assert (length row = size1 x) as <-; [|apply expand_to_same].
      rewrite <- Hzs. destruct z as [|r0 z]; [by apply elem_of_nil in Hrow|]. simpl.
      rewrite (Forall_inv Hzr). by apply (proj1 (Forall_forall _ _) Hzr). }
    simpl. rewrite <- Hz. apply expand_to_same. }
  rewrite (Hexp x), (Hexp y) by (done || lia). done.
Qed.

Lemma chunks_shape {A} n m (flat : list A) :
  length flat = (n * m)%nat → has_shape n m (chunks n m flat).
Proof.
  revert flat. induction n as [|n IH]; intros flat Hl; [by split|].
  destruct (IH (drop m flat)) as [Hn Hr]; [rewrite length_drop; lia|].
  split; simpl; [by rewrite Hn|]. constructor; [|done]. rewrite length_take. lia.
Qed.

Lemma chunks_Forall {A} (P : A → Prop) n m (flat : list A) :
  Forall P flat → Forall (Forall P) (chunks n m flat).
Proof.
  revert flat. induction n as [|n IH]; intros flat Hf; simpl; [done|].
  constructor; [by apply Forall_take|]. by apply IH, Forall_drop.
Qed.

Lemma length_concat_shape {A} n b (x : list (list A)) :
  has_shape n b x → length (concat x) = (n * b)%nat.
Proof.
  intros [<- Hrows]. induction Hrows as [|row x Hrow _ IH]; simpl; [done|].
  rewrite length_app, IH, Hrow. done.
Qed.

Lemma view3_Some {A} n m h (x : list (list A)) :
  has_shape (n * m) h x →
  ∃ v, view3 n m h x = Some v ∧ has_shape3 n m h v.
Proof.
  intros Hx. unfold view3. rewrite (length_concat_shape (n * m) h) by done.
  rewrite bool_decide_eq_true_2 by done. eexists. split; [done|].
  destruct (chunks_shape (n * m) h (concat x)) as [Hl Hr].
  { by apply (length_concat_shape (n * m) h). }
  split; [by apply chunks_shape|]. by apply chunks_Forall.
Qed.

(** *** The attention dictionary *)

Lemma lookup_append_attn k a (m : gmap string (list (list (list R)))) k' :
  append_attn k a m !! k' =
    if decide (k = k') then Some (default [] (m !! k) ++ [a]) else m !! k'.
Proof. unfold append_attn. by rewrite lookup_insert. Qed.

Lemma append_attn_Forall (P : list (list R) → Prop) k a
    (m : gmap string (list (list (list R)))) :
  (∀ k' v, m !! k' = Some v → Forall P v) → P a →
  ∀ k' v, append_attn k a m !! k' = Some v → Forall P v.
Proof.
  intros Hm Ha k' v. rewrite lookup_append_attn. case_decide as Hk; [|apply Hm].
  intros [= <-]. apply Forall_app. split; [|by constructor].
  destruct (m !! k) as [w|] eqn:Hw; simpl; [by apply (Hm k)|done].
Qed.

(** one more step of every recorded attention kind *)
Lemma record_attns_steps n a c cp (m : gmap string (list (list (list R)))) :
  attns_have_steps self n m →
  attns_have_steps self (S n)
    (if _copy self
     then append_attn "copy" cp
            (if _coverage self then append_attn "coverage" c (append_attn "std" a m)
             else append_attn "std" a m)
     else if _coverage self then append_attn "coverage" c (append_attn "std" a m)
          else append_attn "std" a m).
Proof.
  intros Hatt k. specialize (Hatt k). unfold attn_kind in *.
  destruct (_coverage self) eqn:Hcov; destruct (_copy self) eqn:Hcopy;
    repeat rewrite lookup_append_attn;
    repeat (case_decide; subst; simplify_eq/=);
    repeat match goal with
    | |- context [?m !! ?k] => destruct (m !! k) as [?|] eqn:?; simpl in *
    end;
    rewrite ?length_app; simpl; intuition (try lia; try congruence).
Qed.

Lemma initial_attns_steps :
  attns_have_steps self 0
    (if _coverage self
     then <["coverage" := []]> (if _copy self then <["copy" := []]> {["std" := []]}
                                else {["std" := []]})
     else (if _copy self then <["copy" := []]> {["std" := []]} else {["std" := []]})).
Proof.
  intros k. unfold attn_kind.
  destruct (_coverage self), (_copy self);
    repeat (rewrite lookup_insert; case_decide; subst; simpl);
    rewrite ?lookup_singleton; repeat (case_decide; subst; simpl);
    rewrite ?lookup_empty; intuition (try done; try congruence).
Qed.

Lemma initial_attns_shapes (P : list (list R) → Prop) k v :
  ((if _coverage self
    then <["coverage" := []]> (if _copy self then <["copy" := []]> {["std" := []]}
                               else {["std" := []]})
    else (if _copy self then <["copy" := []]> {["std" := []]} else {["std" := []]}))
     : gmap string (list (list (list R)))) !! k = Some v → Forall P v.
Proof.
  destruct (_coverage self), (_copy self);
    repeat (rewrite lookup_insert; case_decide; subst; simpl);
    rewrite ?lookup_singleton; repeat (case_decide; subst; simpl);
    rewrite ?lookup_empty; intros [= <-]; done.
Qed.

(** *** The input feeding pass *)

(** what one step computes, once its tensor operations are known to
    succeed *)
Lemma feed_step_eq context_T context_lengths p output emb_t b s :
  module_contracts self → has_shape b s context_T → length emb_t = b →
  feed_ok b s p output →
  ∃ a cov output',
    has_shape b s a ∧ has_shape b (hidden_size self) output' ∧
    (_coverage self = true →
       has_shape b s cov ∧
       cov = match p_coverage p with
             | Some c => zip_with (zip_with Rplus) c a
             | None => a
             end) ∧
    has_shape b s (copy_attn self output' context_T context_lengths).2 ∧
    feed_step self context_T context_lengths (p, output) emb_t =
      Some (mkPass (rnn_cell self (zip_with app emb_t output) (p_hidden p)).2
              (p_outputs p ++ [output'])
              (if _copy self
               then append_attn "copy"
                      (copy_attn self output' context_T context_lengths).2
                      (if _coverage self
                       then append_attn "coverage" cov (append_attn "std" a (p_attns p))
                       else append_attn "std" a (p_attns p))
               else if _coverage self
                    then append_attn "coverage" cov (append_attn "std" a (p_attns p))
                    else append_attn "std" a (p_attns p))
              (if _coverage self then Some cov else p_coverage p),
            output').
Proof.
  intros Hmod Hctx Hemb [Hout Hcov]. unfold feed_step.
  destruct (cat1_Some emb_t output) as [-> Hel]; [lia|]. cbn [mbind option_bind].
  pose proof (rnn_cell_shape self Hmod (zip_with app emb_t output) (p_hidden p)) as Hrnn.
  destruct (rnn_cell self _ _) as [rnn_output hidden'] eqn:Hcell. cbn [fst snd] in *.
  rewrite Hel, Hemb in Hrnn. pose proof Hrnn as [Hrl _].
  pose proof (attn_shape self Hmod rnn_output context_T context_lengths b s Hrl Hctx)
    as [Hao Ha].
  destruct (attn self _ _ _) as [attn_output a]. cbn [fst snd] in *.
  set (output' := match context_gate self with
                  | Some gate => dropout self (gate (zip_with app emb_t output)
                                                    rnn_output attn_output)
                  | None => dropout self attn_output
                  end).
  assert (has_shape b (hidden_size self) output') as Ho'.
  { unfold output'. destruct (context_gate self) as [gate|] eqn:Hg.
    - apply (dropout_shape self Hmod).
      pose proof (context_gate_shape self Hmod gate Hg (zip_with app emb_t output)
                    rnn_output attn_output) as Hgs.
      by rewrite Hel, Hemb in Hgs.
    - by apply (dropout_shape self Hmod). }
  pose proof (copy_attn_shape self Hmod output' context_T context_lengths b s
                (proj1 Ho') Hctx) as Hcp.
  set (cov := match p_coverage p with
              | Some c => zip_with (zip_with Rplus) c a
              | None => a
              end).
  assert (has_shape b s cov) as Hcs.
  { unfold cov. destruct Hcov as [->|(c & -> & Hc)]; [done|]. by apply zip_add_shape. }
  assert (match p_coverage p with
          | Some c => tensor_add c a
          | None => Some a
          end = Some cov) as Hadd.
  { unfold cov. destruct Hcov as [->|(c & -> & Hc)]; [done|].
    by apply (tensor_add_same_shape b s). }
  exists a, cov, output'. split; [done|]. split; [done|]. split; [done|]. split; [done|].
  destruct (_coverage self); [rewrite Hadd|]; cbn [mbind option_bind];
    by destruct (_copy self).
Qed.

Lemma feed_step_ok context_T context_lengths n p output emb_t b s :
  module_contracts self → has_shape b s context_T → length emb_t = b →
  pass_ok self n b s p → feed_ok b s p output →
  ∃ p' output', feed_step self context_T context_lengths (p, output) emb_t
                  = Some (p', output') ∧
    pass_ok self (S n) b s p' ∧ feed_ok b s p' output'.
Proof.
  intros Hmod Hctx Hemb (Hn & Hos & Hsteps & Hshapes) Hfeed.
  destruct (feed_step_eq context_T context_lengths p output emb_t b s)
    as (a & cov & output' & Ha & Ho' & Hcov & Hcp & ->); try done.
  eexists _, _. split; [done|]. split; [|split].
  - split; [|split; [|split]]; cbn [p_outputs p_attns].
    + rewrite length_app. simpl. lia.
    + apply Forall_app. split; [done|by constructor].
    + by apply record_attns_steps.
    + assert (_coverage self = true → has_shape b s cov) as Hcs
        by (intros Hc; by destruct (Hcov Hc)).
      destruct (_coverage self); destruct (_copy self);
        repeat (apply append_attn_Forall; [|by auto]); done.
  - by destruct Ho'.
  - cbn [p_coverage]. destruct (_coverage self); [|by destruct Hfeed].
    right. exists cov. split; [done|]. by destruct (Hcov eq_refl).
Qed.

Lemma feed_loop_None context_T context_lengths emb :
  foldl (λ acc emb_t, acc ≫= λ a, feed_step self context_T context_lengths a emb_t)
        None emb = None.
Proof. by induction emb. Qed.

Lemma feed_loop_cons context_T context_lengths acc emb_t emb :
  feed_loop self context_T context_lengths acc (emb_t :: emb) =
  feed_step self context_T context_lengths acc emb_t ≫= λ acc',
    feed_loop self context_T context_lengths acc' emb.
Proof.
  unfold feed_loop. cbn [foldl mbind option_bind].
  destruct (feed_step self context_T context_lengths acc emb_t); [done|].
  apply feed_loop_None.
Qed.

Lemma feed_loop_ok context_T context_lengths emb n p output b s :
  module_contracts self → has_shape b s context_T →
  Forall (λ emb_t, length emb_t = b) emb →
  pass_ok self n b s p → feed_ok b s p output →
  ∃ p' output', feed_loop self context_T context_lengths (p, output) emb
                  = Some (p', output') ∧
    pass_ok self (n + length emb) b s p' ∧ feed_ok b s p' output'.
Proof.
  intros Hmod Hctx Hemb. revert n p output.
  induction Hemb as [|emb_t emb Ht _ IH]; intros n p output Hp Hf.
  - exists p, output. split; [done|]. by rewrite Nat.add_0_r.
  - rewrite feed_loop_cons.
    destruct (feed_step_ok context_T context_lengths n p output emb_t b s)
      as (p1 & o1 & -> & Hp1 & Hf1); try done.
    cbn [mbind option_bind].
    destruct (IH (S n) p1 o1 Hp1 Hf1) as (p' & o' & -> & Hp' & Hf').
    exists p', o'. split; [done|].
    replace (n + length (emb_t :: emb))%nat with (S n + length emb)%nat by (simpl; lia).
    done.
Qed.

Lemma input_feed_pass_Some n b s (input : list (list (list Z))) context st lengths :
  (0 < n)%nat → (0 < s)%nat → (0 < b)%nat →
  has_shape n b input → has_shape s b context → state_ok b s st →
  module_contracts self →
  ∃ p, input_feed_run_forward_pass self input context st lengths = Some p ∧
    pass_ok self n b s p.
Proof.
  intros Hn Hs Hb Hin Hctx [(o & Hfeed & Hol) Hcov] Hmod.
  unfold input_feed_run_forward_pass. rewrite Hfeed. simpl.
  rewrite (size1_shape n b) by done. rewrite bool_decide_eq_true_2 by done.
  assert (∃ cov, match coverage st with
                 | Some c => Some <$> squeeze0 c
                 | None => Some None
                 end = Some cov ∧
                 (cov = None ∨ ∃ c, cov = Some c ∧ has_shape b s c)) as (cov & -> & Hc).
  { destruct Hcov as [->|(c & -> & Hc)]; simpl; eauto 10. }
  simpl. destruct (transpose_Some s b context Hctx Hs) as (cT & -> & HcT & _). simpl.
  pose proof (embeddings_shape self Hmod input n b Hin) as [Hel Her].
  match goal with
  | |- context [feed_loop _ _ _ (?p0, _) _] =>
      destruct (feed_loop_ok cT lengths (embeddings self input) 0 p0 o b s Hmod HcT Her)
        as (p & o' & -> & Hp & _)
  end.
  - split; [done|]. split; [done|]. split; [apply initial_attns_steps|].
    apply initial_attns_shapes.
  - done.
  - exists p. split; [done|]. by rewrite Hel in Hp.
Qed.

(** *** The standard pass *)

Lemma std_pass_Some n b s (input : list (list (list Z))) context st lengths :
  (0 < n)%nat → (0 < s)%nat → (0 < b)%nat →
  has_shape n b input → has_shape s b context →
  module_contracts self → _copy self = false → _coverage self = false →
  ∃ p, std_run_forward_pass self input context st lengths = Some p ∧
    pass_ok self n b s p.
Proof.
  intros Hn Hs Hb Hin Hctx Hmod Hcopy Hcov. unfold std_run_forward_pass.
  rewrite Hcopy, Hcov. simpl.
  pose proof (embeddings_shape self Hmod input n b Hin) as Hemb.
  pose proof (rnn_seq_shape self Hmod (embeddings self input) (hidden st) n b Hemb) as Hrnn.
  destruct (rnn_seq self _ _) as [rnn_output hidden']. simpl in Hrnn.
  pose proof Hin as [Hinl _]. pose proof Hrnn as [Hrl _].
  unfold size0. rewrite (size1_shape n b input), (size1_shape n b rnn_output) by done.
  rewrite bool_decide_eq_true_2 by (split; congruence).
  destruct (transpose_Some n b rnn_output Hrnn Hn) as (rT & -> & HrT & _).
  destruct (transpose_Some s b context Hctx Hs) as (cT & -> & HcT & _). simpl.
  pose proof (attn_seq_shape self Hmod rT cT lengths n b s Hb HrT HcT) as [Ha1 Ha2].
  destruct (attn_seq self rT cT lengths) as [attn_outputs attn_scores].
  simpl in Ha1, Ha2.
  assert (∃ outputs,
    match context_gate self with
    | Some gate => view3 (length input) b (hidden_size self)
                     (gate (concat (embeddings self input)) (concat rnn_output)
                           (concat attn_outputs))
    | None => Some attn_outputs
    end = Some outputs ∧ has_shape3 n b (hidden_size self) outputs)
    as (outputs & -> & Hout).
  { destruct (context_gate self) as [gate|] eqn:Hg; [|eauto].
    rewrite Hinl. apply view3_Some.
    pose proof (context_gate_shape self Hmod gate Hg (concat (embeddings self input))
                  (concat rnn_output) (concat attn_outputs)) as Hgs.
    by rewrite (length_concat_shape n b) in Hgs. }
  simpl. eexists. split; [done|]. pose proof Hout as [[Hol _] _].
  split; [|split; [|split]]; cbn [p_outputs p_attns].
  - by rewrite length_fmap.
  - apply Forall_fmap. eapply Forall_impl; [exact (has_shape3_steps _ _ _ _ Hout)|].
    intros o Ho. by apply (dropout_shape self Hmod).
  - intros k. unfold attn_kind. rewrite Hcopy, Hcov.
    destruct (decide (k = "std")) as [->|Hne].
    + rewrite lookup_singleton_eq. destruct Ha2 as [[? _] _]. split; [done|by left].
    + rewrite lookup_singleton_ne by done. intros [?|[[_ ?]|[_ ?]]]; done.
  - intros k v Hk. apply lookup_singleton_Some in Hk as [_ <-].
    by apply (has_shape3_steps n).
Qed.

(** [RNNDecoderBase.forward] on an input of [n >= 1] steps *)
Lemma decoder_forward_Some n b s (input : list (list (list Z))) context st lengths :
  (0 < n)%nat → (0 < s)%nat → (0 < b)%nat →
  has_shape n b input → has_shape s b context → state_ok b s st →
  module_contracts self →
  (kind self = StdRNNDecoder → _copy self = false ∧ _coverage self = false) →
  ∃ out st' attns, decoder_forward self input context st lengths = Some (out, st', attns) ∧
    length out = n ∧ attns_have_steps self n attns.
Proof.
  intros Hn Hs Hb Hin Hctx Hst Hmod Hstd. unfold decoder_forward.
  rewrite (size1_shape n b input), (size1_shape s b context) by done.
  rewrite bool_decide_eq_true_2 by done.
  assert (∃ p, _run_forward_pass self input context st lengths = Some p ∧
            pass_ok self n b s p) as (p & -> & Hpl & Hps & Hpa & Hpsh).
  { unfold _run_forward_pass. destruct (kind self).
    - destruct (Hstd eq_refl). by apply (std_pass_Some n b s).
    - by apply (input_feed_pass_Some n b s). }
  simpl. unfold py_last.
  assert (p_outputs p ≠ []) as Hne by (intros Heq; rewrite Heq in Hpl; simpl in Hpl; lia).
  assert (is_Some (last (p_outputs p))) as [final ->].
  { destruct (p_outputs p); [done|]. by apply last_is_Some. }
  simpl. rewrite (stack_Some b (hidden_size self)) by done. simpl.
  rewrite bool_decide_eq_true_2.
  - eexists _, _, _. split; [done|]. split; [done|done].
  - intros k v Hk. rewrite (stack_Some b s); [done| |by apply (Hpsh k)].
    specialize (Hpa k). rewrite Hk in Hpa. destruct Hpa as [Hv _].
    intros ->. simpl in Hv. lia.
Qed.
End decoder_lemmas.

Section model_lemmas.
Import Tensor DecoderState Decoder.
Variable self : decoder.

Lemma run_decoder_steps multigpu n b s (tgt : list (list (list Z))) enc_hidden context
    lengths dec_state :
  (0 < n)%nat → (0 < s)%nat → (0 < b)%nat →
  has_shape n b tgt → has_shape s b context →
  enc_state_ok self enc_hidden →
  (∀ st, dec_state = Some st → state_ok b s st) →
  module_contracts self →
  (kind self = StdRNNDecoder → _copy self = false ∧ _coverage self = false) →
  returns_steps n multigpu
    (run_decoder self multigpu tgt enc_hidden context lengths dec_state).
Proof.
  intros Hn Hs Hb Htgt Hctx Henc Hdec Hmod Hstd. unfold run_decoder.
  destruct (init_decoder_state_Some self context enc_hidden s Henc) as (st0 & -> & Hst0).
  simpl. rewrite (size1_shape s b) in Hst0 by done.
  assert (state_ok b s (default st0 dec_state)) as Hst.
  { destruct dec_state as [st|]; simpl; [by apply Hdec|done]. }
  destruct (decoder_forward_Some self n b s tgt context (default st0 dec_state) lengths)
    as (out & st' & attns & -> & Hout & Hattns); try done.
  simpl. unfold returns_steps. destruct multigpu.
  - by eexists _, _, _.
  - eexists _, _, _. split; [done|]. split; [done|]. eexists. split; [done|]. split.
    + specialize (Hattns "std"). destruct (attns !! "std"); [done|].
      destruct Hattns. by left.
    + intros k v Hk. specialize (Hattns k). rewrite Hk in Hattns. by destruct Hattns.
Qed.

Lemma zeros_shape {A B} (f : A → B) b s (c : list (list A)) :
  has_shape b s c → has_shape b s ((fmap (M:=list) f) <$> c).
Proof.
  intros [Hl Hr]. split; [by rewrite length_fmap|].
  apply Forall_fmap. eapply Forall_impl; [exact Hr|]. intros row Hrow. simpl.
  by rewrite length_fmap.
Qed.

Lemma example_decoder_contracts k : module_contracts (example_decoder k).
Proof.
  split; simpl.
  - intros x s b Hx. by apply zeros_shape.
  - intros x _. split; [by rewrite length_fmap|].
    apply Forall_fmap, Forall_forall. by intros v _.
  - done.
  - intros q c _ b s Hq Hc. split; [|by apply zeros_shape].
    split; [by rewrite length_fmap|]. apply Forall_fmap, Forall_forall. by intros v _.
  - intros q c _ b s Hq Hc. by apply zeros_shape.
  - intros q c _ n b s Hb Hq Hc.
    destruct (transpose_Some b n q Hq Hb) as (y & -> & Hy & _). simpl.
    pose proof Hy as [Hyl Hyr]. split; split.
    + by apply zeros_shape.
    + apply Forall_fmap, Forall_forall. intros row _. simpl.
      apply Forall_fmap, Forall_forall. by intros v _.
    + split; [by rewrite length_fmap|]. apply Forall_fmap, Forall_forall.
      intros row _. simpl. rewrite length_fmap. by destruct Hc.
    + apply Forall_fmap, Forall_forall. intros row _. simpl.
      destruct Hc as [_ Hcr]. apply Forall_fmap. eapply Forall_impl; [exact Hcr|].
      intros v Hv. simpl. by rewrite length_fmap.
  - done.
  - done.
Qed.
End model_lemmas.

(** C10 as stated fails at [tgt_len = 1]: the decoder then receives an
    empty input, [outputs[-1]] raises, and [forward] returns nothing,
    so no outputs with [tgt_len - 1 = 0] steps are returned; for either
    kind of decoder. *)
Lemma forward_one_token_target_returns_nothing :
  ¬ Decoder.returns_steps 0 false
      (Decoder.NMTModel_forward (Decoder.example_decoder Decoder.InputFeedRNNDecoder)
         Decoder.example_encoder false [[[4]]] [[[2]]] [1] None) ∧
  ¬ Decoder.returns_steps 0 false
      (Decoder.NMTModel_forward (Decoder.example_decoder Decoder.StdRNNDecoder)
         Decoder.example_encoder false [[[4]]] [[[2]]] [1] None).
Proof. split; intros (out & attns & st & Hrun & _); vm_compute in Hrun; discriminate. Qed.

(** C10, amended. For every target of [tgt_len >= 2] steps, both
    [NMTModel.forward] and [SelEncNMTModel.forward] feed the decoder the
    target without its last step and, for an encoder that returns a
    context of the batch extent of the target and a decoder of either
    kind whose sub-modules return tensors of the shapes of the real
    modules (so that every concatenation, sum, view and stack of the
    pass is defined), return decoder outputs of exactly [tgt_len - 1]
    steps and, unless dropped for multi-GPU, the standard attention and
    every other attention sequence with exactly [tgt_len - 1] steps. *)
Theorem forward_returns_tgt_len_minus_one_steps (self : Decoder.decoder) {Src : Type}
    (encoder : Src → list Z → option (Decoder.enc_state * list (list (list R))))
    (sel_encoder : Src * Src → list Z * list Z →
                   option (Decoder.enc_state * list (list (list R))))
    (multigpu : bool) (src ans : Src) (tgt : list (list (list Z)))
    (lengths ans_lengths : list Z) dec_state enc_hidden context (b s : nat) :
  (2 ≤ length tgt)%nat → (0 < b)%nat → (0 < s)%nat →
  Tensor.has_shape (length tgt) b tgt →
  encoder src lengths = Some (enc_hidden, context) →
  sel_encoder (src, ans) (lengths, ans_lengths) = Some (enc_hidden, context) →
  Tensor.has_shape s b context →
  Decoder.enc_state_ok self enc_hidden →
  (∀ st, dec_state = Some st → Decoder.state_ok b s st) →
  Decoder.module_contracts self →
  (Decoder.kind self = Decoder.StdRNNDecoder →
   Decoder._copy self = false ∧ Decoder._coverage self = false) →
  Decoder.returns_steps (length tgt - 1) multigpu
    (Decoder.NMTModel_forward self encoder multigpu src tgt lengths dec_state) ∧
  Decoder.returns_steps (length tgt - 1) multigpu
    (Decoder.SelEncNMTModel_forward self sel_encoder multigpu src ans tgt
       lengths ans_lengths dec_state).
Proof.
  intros Hlen Hb Hs Htgt Henc Hsel Hctx Hok Hdec Hmod Hstd.
  unfold Decoder.NMTModel_forward, Decoder.SelEncNMTModel_forward.
  rewrite Henc, Hsel. simpl.
  split; apply (run_decoder_steps self multigpu (length tgt - 1) b s); try done;
    try lia; by apply drop_last_shape.
Qed.

Lemma forward_four_token_target_example :
  Decoder.returns_steps 3 false
    (Decoder.NMTModel_forward (Decoder.example_decoder Decoder.InputFeedRNNDecoder)
       Decoder.example_encoder false [[[4]]] [[[2]]; [[3]]; [[6]]; [[7]]] [1] None) ∧
  Decoder.returns_steps 3 false
    (Decoder.SelEncNMTModel_forward (Decoder.example_decoder Decoder.InputFeedRNNDecoder)
       Decoder.example_sel_encoder false [[[4]]] [[[5]]]
       [[[2]]; [[3]]; [[6]]; [[7]]] [1] [1] None).
Proof.
  apply (forward_returns_tgt_len_minus_one_steps
           (Decoder.example_decoder Decoder.InputFeedRNNDecoder)
           Decoder.example_encoder Decoder.example_sel_encoder false
           [[[4]]] [[[5]]] [[[2]]; [[3]]; [[6]]; [[7]]] [1] [1] None
           (Decoder.StateTuple [[[[0%R]]]; [[[0%R]]]]) [[[0%R]]] 1 1).
  - simpl. lia.
  - lia.
  - lia.
  - split; [reflexivity|]. repeat constructor.
  - reflexivity.
  - reflexivity.
  - split; [reflexivity|]. repeat constructor.
  - intros Hbi. discriminate Hbi.
  - intros st Hst. discriminate Hst.
  - apply example_decoder_contracts.
  - intros Hk. discriminate Hk.
Defined.

(** * Further properties *)

(** ** The embedding matcher *)

Section matcher_invariant.
Import EmbeddingMatch EmbeddingTool.
Context {F : Type} (py_float : string → option F).
Variables (vocab : Vocab) (emb_dim : Z) (init : list (list F)).
Hypothesis Hwf : well_formed vocab.

Lemma assign_inv w_id v (st : locals) :
  loop_inv vocab emb_dim init st → (w_id < vocab_len vocab)%nat →
  Z.of_nat (length v) = emb_dim →
  ∃ st', assign w_id v st = Ok st' ∧ loop_inv vocab emb_dim init st' ∧
         vec st' = vec st ∧ printed st' = printed st ∧
         filtered_embeddings st' !! w_id = Some v ∧ done_flag st' !! w_id = Some 1 ∧
         ∀ j : nat, j ≠ w_id →
           filtered_embeddings st' !! j = filtered_embeddings st !! j ∧
           done_flag st' !! j = done_flag st !! j.
Proof.
  intros [[Hrows Hwidth] Hfl Hf01 Hun] Hid Hv. unfold assign.
  rewrite !bool_decide_eq_true_2 by lia. eexists. split; [done|]. simpl.
  split.
  { split; simpl.
    - split; [by rewrite length_insert|]. by apply Forall_insert.
    - by rewrite length_insert.
    - apply Forall_insert; [done|by right].
    - intros i Hi. destruct (decide (i = w_id)) as [->|Hne].
      + rewrite list_lookup_insert_eq in Hi by lia. discriminate.
      + rewrite list_lookup_insert_ne in Hi by done.
        rewrite list_lookup_insert_ne by done. by apply Hun. }
  split; [done|]. split; [done|].
  rewrite !list_lookup_insert_eq by lia. split; [done|]. split; [done|].
  intros j Hj. by rewrite !list_lookup_insert_ne by done.
Qed.

Lemma assign_if_free_inv w_id v (st : locals) :
  loop_inv vocab emb_dim init st → (w_id < vocab_len vocab)%nat →
  Z.of_nat (length v) = emb_dim →
  ∃ st', assign_if_free w_id v st = Ok st' ∧ loop_inv vocab emb_dim init st' ∧
         vec st' = vec st ∧ printed st' = printed st ∧
         done_flag st' !! w_id = Some 1 ∧
         (done_flag st !! w_id = Some 1 → st' = st) ∧
         ∀ j : nat, j ≠ w_id →
           filtered_embeddings st' !! j = filtered_embeddings st !! j ∧
           done_flag st' !! j = done_flag st !! j.
Proof.
  intros Hinv Hid Hv. unfold assign_if_free.
  destruct (lookup_lt_is_Some_2 (done_flag st) w_id) as [flag Hflag].
  { rewrite (inv_flags_len _ _ _ _ Hinv). lia. }
  rewrite Hflag. case_bool_decide as Hz.
  - destruct (assign_inv w_id v st Hinv Hid Hv)
      as (st' & -> & ? & ? & ? & ? & ? & ?).
    exists st'. subst flag. do 5 (split; [done|]). split; [|done].
    intros ?; congruence.
  - exists st. do 4 (split; [done|]).
    assert (flag = 1) as ->.
    { pose proof (Forall_lookup_1 _ _ _ _ (inv_flags _ _ _ _ Hinv) Hflag) as [?|?];
        simpl in *; congruence. }
    done.
Qed.

(** the part of the loop body after the [try] statement never raises and
    touches at most the row it matched *)
Lemma match_word_inv w v (st : locals) :
  loop_inv vocab emb_dim init st → Z.of_nat (length v) = emb_dim →
  ∃ st', match_word vocab w v st = Ok st' ∧ loop_inv vocab emb_dim init st' ∧
         vec st' = vec st ∧ printed st' = printed st ∧
         ∀ i : nat, stoi vocab !! w ≠ Some i → done_flag st !! i = Some 1 →
           filtered_embeddings st' !! i = filtered_embeddings st !! i ∧
           done_flag st' !! i = Some 1.
Proof.
  intros Hinv Hv. unfold match_word.
  destruct (stoi vocab !! w) as [w_id|] eqn:Hw.
  - destruct (assign_inv w_id v st Hinv (map_Forall_lookup_1 _ _ _ _ Hwf Hw) Hv)
      as (st' & -> & ? & ? & ? & ? & ? & Hother).
    exists st'. do 4 (split; [done|]). intros i Hi Hflag.
    destruct (Hother i) as [-> ->]; [congruence|done].
  - assert (∀ w_id, (w_id < vocab_len vocab)%nat →
      ∃ st', assign_if_free w_id v st = Ok st' ∧ loop_inv vocab emb_dim init st' ∧
        vec st' = vec st ∧ printed st' = printed st ∧
        ∀ i : nat, done_flag st !! i = Some 1 →
          filtered_embeddings st' !! i = filtered_embeddings st !! i ∧
          done_flag st' !! i = Some 1) as Hfree.
    { intros w_id Hid.
      destruct (assign_if_free_inv w_id v st Hinv Hid Hv)
        as (st' & -> & ? & ? & ? & ? & Hsame & Hother).
      exists st'. do 4 (split; [done|]). intros i Hflag.
      destruct (decide (i = w_id)) as [->|Hne]; [by rewrite Hsame|].
      destruct (Hother i Hne) as [-> ->]. done. }
    destruct (stoi vocab !! PyStr.lower w) as [w_id|] eqn:Hl.
    { destruct (Hfree w_id (map_Forall_lookup_1 _ _ _ _ Hwf Hl)) as (st' & ? & ? & ? & ? & Hkeep).
      exists st'. do 4 (split; [done|]). intros i _ Hflag. by apply Hkeep. }
    destruct (stoi vocab !! PyStr.upper w) as [w_id|] eqn:Hu.
    { destruct (Hfree w_id (map_Forall_lookup_1 _ _ _ _ Hwf Hu)) as (st' & ? & ? & ? & ? & Hkeep).
      exists st'. do 4 (split; [done|]). intros i _ Hflag. by apply Hkeep. }
    exists st. do 4 (split; [done|]). done.
Qed.

(** one line: either the handler meets an unbound [vec], or the
    invariant is kept and [vec] is bound afterwards *)
Lemma step_inv (st : locals) line :
  loop_inv vocab emb_dim init st →
  (step py_float vocab emb_dim st line = Raise UnboundLocalError ∧ vec st = None ∧
   mapM py_float (fields line) = None) ∨
  ∃ st', step py_float vocab emb_dim st line = Ok st' ∧
         loop_inv vocab emb_dim init st' ∧ is_Some (vec st') ∧
         ∀ i : nat, stoi vocab !! word_of line ≠ Some i → done_flag st !! i = Some 1 →
           filtered_embeddings st' !! i = filtered_embeddings st !! i ∧
           done_flag st' !! i = Some 1.
Proof.
  intros Hinv. unfold step. fold (word_of line).
  destruct (mapM py_float (fields line)) as [v|] eqn:Hparse.
  - right. case_bool_decide as Hdim.
    + set (st1 := mkLocals _ _ (Some v) _).
      assert (loop_inv vocab emb_dim init st1) as Hinv1 by (by destruct Hinv).
      destruct (match_word_inv (word_of line) v st1 Hinv1 Hdim)
        as (st' & -> & ? & Hvec & _ & Hkeep).
      exists st'. split; [done|]. split; [done|]. split; [by rewrite Hvec|].
      intros i Hi Hflag. by apply Hkeep.
    + unfold handler. simpl. eexists. split; [done|]. simpl.
      split; [by destruct Hinv|]. split; [done|]. done.
  - unfold handler. destruct (vec st) as [v0|] eqn:Hvec.
    + right. eexists. split; [done|]. simpl. split; [by destruct Hinv|].
      split; [done|]. done.
    + by left.
Qed.


Lemma loop_inv_result lines (st st' : locals) :
  loop_inv vocab emb_dim init st →
  loop py_float vocab emb_dim st lines = Ok st' → loop_inv vocab emb_dim init st'.
Proof.
  revert st. induction lines as [|line lines IH]; intros st Hinv Hloop; simpl in Hloop.
  - by injection Hloop as <-.
  - destruct (step_inv st line Hinv) as [(Hr & _)|(st1 & Hs & Hinv' & _)].
    + by rewrite Hr in Hloop.
    + rewrite Hs in Hloop. by eapply IH.
Qed.

Lemma loop_no_index_error lines (st : locals) :
  loop_inv vocab emb_dim init st →
  loop py_float vocab emb_dim st lines ≠ Raise IndexError.
Proof.
  revert st. induction lines as [|line lines IH]; intros st Hinv; simpl; [done|].
  destruct (step_inv st line Hinv) as [(-> & _)|(st1 & -> & Hinv' & _)]; [done|].
  by apply IH.
Qed.

(** a matched row is changed by exact matches only *)
Lemma loop_keeps_matched lines (st st' : locals) (i : nat) :
  loop_inv vocab emb_dim init st →
  Forall (λ line, stoi vocab !! word_of line ≠ Some i) lines →
  done_flag st !! i = Some 1 →
  loop py_float vocab emb_dim st lines = Ok st' →
  filtered_embeddings st' !! i = filtered_embeddings st !! i ∧
  done_flag st' !! i = Some 1.
Proof.
  revert st. induction lines as [|line lines IH]; intros st Hinv Hlines Hflag Hloop;
    simpl in Hloop.
  - by injection Hloop as <-.
  - apply Forall_cons in Hlines as [Hline Hlines].
    destruct (step_inv st line Hinv) as [(Hr & _)|(st1 & Hs & Hinv' & _ & Hkeep)].
    + by rewrite Hr in Hloop.
    + rewrite Hs in Hloop. destruct (Hkeep i Hline Hflag) as [Hrow Hflag1].
      destruct (IH st1 Hinv' Hlines Hflag1 Hloop) as [Hrow' ?].
      split; [congruence|done].
Qed.

Lemma loop_app lines1 lines2 (st : locals) :
  loop py_float vocab emb_dim st (lines1 ++ lines2) =
  match loop py_float vocab emb_dim st lines1 with
  | Ok st' => loop py_float vocab emb_dim st' lines2
  | Raise e => Raise e
  end.
Proof.
  revert st. induction lines1 as [|line lines1 IH]; intros st; simpl; [done|].
  destruct (step py_float vocab emb_dim st line); [apply IH|done].
Qed.

Lemma initial_inv :
  matrix_ok vocab emb_dim init →
  loop_inv vocab emb_dim init (mkLocals init (replicate (vocab_len vocab) 0) None []).
Proof.
  intros Hm. split; simpl; [done|by rewrite length_replicate| |done].
  apply Forall_replicate. by left.
Qed.

Lemma flags_sum_bounds (flags : list Z) :
  Forall (λ f, f = 0 ∨ f = 1) flags →
  0 ≤ foldr Z.add 0 flags ≤ Z.of_nat (length flags).
Proof. induction 1 as [|f flags [->| ->] _ IH]; simpl length; simpl foldr; lia. Qed.

Lemma flags_sum_zero (flags : list Z) (i : nat) f :
  Forall (λ f, f = 0 ∨ f = 1) flags → foldr Z.add 0 flags = 0 →
  flags !! i = Some f → f = 0.
Proof.
  intros Hf. revert i. induction Hf as [|f0 flags Hf0 Hf IH]; intros i Hsum Hi; [done|].
  simpl in Hsum. pose proof (flags_sum_bounds flags Hf).
  destruct i as [|i]; simpl in Hi.
  - injection Hi as <-. destruct Hf0; lia.
  - apply (IH i); [destruct Hf0; lia|done].
Qed.
(** what the loop body does to the index it picks, and to the others *)
Lemma match_word_target w v (st : locals) :
  loop_inv vocab emb_dim init st → Z.of_nat (length v) = emb_dim →
  ∃ st', match_word vocab w v st = Ok st' ∧
    match target vocab w with
    | None => st' = st
    | Some (i, exact) =>
        done_flag st' !! i = Some 1 ∧
        (exact = true ∨ done_flag st !! i = Some 0 →
         filtered_embeddings st' !! i = Some v) ∧
        ∀ j : nat, j ≠ i →
          filtered_embeddings st' !! j = filtered_embeddings st !! j ∧
          done_flag st' !! j = done_flag st !! j
    end.
Proof.
  intros Hinv Hv. unfold match_word, target.
  assert (∀ w_id, (w_id < vocab_len vocab)%nat →
    ∃ st', assign_if_free w_id v st = Ok st' ∧
      done_flag st' !! w_id = Some 1 ∧
      (false = true ∨ done_flag st !! w_id = Some 0 →
       filtered_embeddings st' !! w_id = Some v) ∧
      ∀ j : nat, j ≠ w_id →
        filtered_embeddings st' !! j = filtered_embeddings st !! j ∧
        done_flag st' !! j = done_flag st !! j) as Hfree.
  { intros w_id Hid.
    destruct (assign_if_free_inv w_id v st Hinv Hid Hv)
      as (st' & Hst' & _ & _ & _ & ? & _ & ?).
    exists st'. do 2 (split; [done|]). split; [|done].
    intros [?|Hzero]; [done|]. unfold assign_if_free in Hst'.
    rewrite Hzero, bool_decide_eq_true_2 in Hst' by done.
    destruct (assign_inv w_id v st Hinv Hid Hv) as (st'' & Hst'' & _ & _ & _ & ? & _).
    congruence. }
  destruct (stoi vocab !! w) as [w_id|] eqn:Hw.
  - destruct (assign_inv w_id v st Hinv (map_Forall_lookup_1 _ _ _ _ Hwf Hw) Hv)
      as (st' & -> & _ & _ & _ & ? & ? & ?).
    exists st'. by do 3 (split; [done|]).
  - destruct (stoi vocab !! PyStr.lower w) as [w_id|] eqn:Hl.
    { destruct (Hfree w_id (map_Forall_lookup_1 _ _ _ _ Hwf Hl)) as (st' & ? & ?).
      by exists st'. }
    destruct (stoi vocab !! PyStr.upper w) as [w_id|] eqn:Hu; simpl.
    { destruct (Hfree w_id (map_Forall_lookup_1 _ _ _ _ Hwf Hu)) as (st' & ? & ?).
      by exists st'. }
    by exists st.
Qed.

Lemma target_reaches w i exact : target vocab w = Some (i, exact) → reaches vocab w i.
Proof.
  unfold target, reaches. destruct (stoi vocab !! w) as [k|].
  { intros [= -> _]. by left. }
  destruct (stoi vocab !! PyStr.lower w) as [k|].
  { intros [= -> _]. right. by left. }
  destruct (stoi vocab !! PyStr.upper w) as [k|]; [|done].
  intros [= -> _]. right. by right.
Qed.

(** a line that does not lead to index [i] leaves its row and flag alone *)
Lemma step_frame (st st' : locals) line (i : nat) :
  loop_inv vocab emb_dim init st →
  step py_float vocab emb_dim st line = Ok st' →
  ¬ reaches vocab (word_of line) i →
  filtered_embeddings st' !! i = filtered_embeddings st !! i ∧
  done_flag st' !! i = done_flag st !! i.
Proof.
  intros Hinv Hstep Hno. unfold step in Hstep. fold (word_of line) in Hstep.
  destruct (mapM py_float (fields line)) as [v|].
  - case_bool_decide as Hdim.
    + set (st1 := mkLocals _ _ (Some v) _) in Hstep.
      assert (loop_inv vocab emb_dim init st1) as Hinv1 by (by destruct Hinv).
      destruct (match_word_target (word_of line) v st1 Hinv1 Hdim) as (st2 & Hst2 & Ht).
      rewrite Hst2 in Hstep. injection Hstep as <-.
      destruct (target vocab (word_of line)) as [[k exact]|] eqn:Htarget.
      * destruct Ht as (_ & _ & Hother). apply (Hother i). intros ->.
        apply Hno. by eapply target_reaches.
      * by subst st2.
    + unfold handler in Hstep. simpl in Hstep. by injection Hstep as <-.
  - unfold handler in Hstep. destruct (vec st); [|done]. by injection Hstep as <-.
Qed.

Lemma loop_frame lines (st st' : locals) (i : nat) :
  loop_inv vocab emb_dim init st →
  Forall (λ line, ¬ reaches vocab (word_of line) i) lines →
  loop py_float vocab emb_dim st lines = Ok st' →
  filtered_embeddings st' !! i = filtered_embeddings st !! i ∧
  done_flag st' !! i = done_flag st !! i.
Proof.
  revert st. induction lines as [|line lines IH]; intros st Hinv Hlines Hloop;
    simpl in Hloop.
  - by injection Hloop as <-.
  - apply Forall_cons in Hlines as [Hline Hlines].
    destruct (step py_float vocab emb_dim st line) as [st1|] eqn:Hstep; [|done].
    destruct (step_frame st st1 line i Hinv Hstep Hline) as [Hr Hf].
    assert (loop_inv vocab emb_dim init st1) as Hinv1.
    { destruct (step_inv st line Hinv) as [(Hr' & _)|(st2 & Hs & ? & _)]; congruence. }
    destruct (IH st1 Hinv1 Hlines Hloop) as [Hr' Hf']. split; congruence.
Qed.

(** a well-formed line gives its vector to the index it picks, unless it
    picked it by case folding and the index was matched before *)
Lemma step_target (st : locals) line v (i : nat) exact :
  loop_inv vocab emb_dim init st →
  mapM py_float (fields line) = Some v → Z.of_nat (length v) = emb_dim →
  target vocab (word_of line) = Some (i, exact) →
  exact = true ∨ done_flag st !! i = Some 0 →
  ∃ st', step py_float vocab emb_dim st line = Ok st' ∧
    filtered_embeddings st' !! i = Some v ∧ done_flag st' !! i = Some 1.
Proof.
  intros Hinv Hparse Hdim Htarget Hfree. unfold step. fold (word_of line).
  rewrite Hparse, bool_decide_eq_true_2 by done.
  set (st1 := mkLocals _ _ (Some v) _).
  assert (loop_inv vocab emb_dim init st1) as Hinv1 by (by destruct Hinv).
  destruct (match_word_target (word_of line) v st1 Hinv1 Hdim) as (st2 & -> & Ht).
  rewrite Htarget in Ht. destruct Ht as (? & Hrow & _).
  exists st2. split; [done|]. split; [by apply Hrow|done].
Qed.
End matcher_invariant.

Section matcher_results.
Import EmbeddingMatch EmbeddingTool.
Context {F : Type} (py_float : string → option F).
Variables (vocab : Vocab) (emb_dim : Z) (init : list (list F)).
Hypothesis Hwf : well_formed vocab.
Hypothesis Hinit : matrix_ok vocab emb_dim init.

(** the final variables of a pass that returned *)
Lemma match_embeddings_Ok lines emb c log :
  match_embeddings py_float vocab emb_dim init lines = Ok (emb, c, log) →
  ∃ st, loop py_float vocab emb_dim
          (mkLocals init (replicate (vocab_len vocab) 0) None []) lines = Ok st ∧
        loop_inv vocab emb_dim init st ∧ emb = filtered_embeddings st ∧
        count_match c = foldr Z.add 0 (done_flag st) ∧
        count_miss c = Z.of_nat (vocab_len vocab) - count_match c.
Proof.
  unfold match_embeddings. intros Hrun.
  destruct (loop _ _ _ _ lines) as [st|] eqn:Hloop; [|done].
  injection Hrun as <- <- _. exists st. split; [done|]. split; [|done].
  eapply loop_inv_result; [done| |done]. by apply initial_inv.
Qed.
End matcher_results.

(** X1. When the vocabulary indices are below [len(vocab)] and the initial
    matrix has [len(vocab)] rows of [emb_dim] numbers, the matrix that
    [match_embeddings] returns has the same shape. *)
Theorem match_embeddings_keeps_shape {F} (py_float : string → option F)
    vocab emb_dim init lines emb c log :
  EmbeddingTool.well_formed vocab → EmbeddingTool.matrix_ok vocab emb_dim init →
  EmbeddingMatch.match_embeddings py_float vocab emb_dim init lines
    = EmbeddingMatch.Ok (emb, c, log) →
  EmbeddingTool.matrix_ok vocab emb_dim emb.
Proof.
  intros Hwf Hinit Hrun.
  destruct (match_embeddings_Ok py_float vocab emb_dim init Hwf Hinit lines emb c log Hrun)
    as (st & _ & Hinv & -> & _).
  by destruct Hinv.
Qed.

(** X2. Under the same conditions the reported counts satisfy
    [0 <= match <= len(vocab)] and [miss = len(vocab) - match >= 0]. *)
Theorem match_embeddings_counts_in_range {F} (py_float : string → option F)
    vocab emb_dim init lines emb c log :
  EmbeddingTool.well_formed vocab → EmbeddingTool.matrix_ok vocab emb_dim init →
  EmbeddingMatch.match_embeddings py_float vocab emb_dim init lines
    = EmbeddingMatch.Ok (emb, c, log) →
  0 ≤ EmbeddingMatch.count_match c ≤ Z.of_nat (EmbeddingMatch.vocab_len vocab) ∧
  0 ≤ EmbeddingMatch.count_miss c ∧
  EmbeddingMatch.count_match c + EmbeddingMatch.count_miss c
    = Z.of_nat (EmbeddingMatch.vocab_len vocab).
Proof.
  intros Hwf Hinit Hrun.
  destruct (match_embeddings_Ok py_float vocab emb_dim init Hwf Hinit lines emb c log Hrun)
    as (st & _ & Hinv & _ & Hm & Hmiss).
  pose proof (flags_sum_bounds _ (EmbeddingTool.inv_flags _ _ _ _ Hinv)) as Hb.
  rewrite (EmbeddingTool.inv_flags_len _ _ _ _ Hinv) in Hb. lia.
Qed.

(** X3. A vocabulary index that no line of the file leads to (neither its
    word nor its lower- or upper-cased form is a key with that index)
    keeps its initial random vector. *)
Theorem match_embeddings_unreached_keeps_init {F} (py_float : string → option F)
    vocab emb_dim init lines emb c log (i : nat) :
  EmbeddingTool.well_formed vocab → EmbeddingTool.matrix_ok vocab emb_dim init →
  EmbeddingMatch.match_embeddings py_float vocab emb_dim init lines
    = EmbeddingMatch.Ok (emb, c, log) →
  Forall (λ line, ¬ EmbeddingTool.reaches vocab (EmbeddingTool.word_of line) i) lines →
  emb !! i = init !! i.
Proof.
  intros Hwf Hinit Hrun Hlines.
  destruct (match_embeddings_Ok py_float vocab emb_dim init Hwf Hinit lines emb c log Hrun)
    as (st & Hloop & _ & -> & _).
  by destruct (loop_frame py_float vocab emb_dim init Hwf lines _ st i
                 (initial_inv vocab emb_dim init Hinit) Hlines Hloop).
Qed.

(** X4. Under the same conditions no row or flag is ever indexed out of
    range: [match_embeddings] never raises [IndexError]. *)
Theorem match_embeddings_never_index_error {F} (py_float : string → option F)
    vocab emb_dim init lines :
  EmbeddingTool.well_formed vocab → EmbeddingTool.matrix_ok vocab emb_dim init →
  EmbeddingMatch.match_embeddings py_float vocab emb_dim init lines
    ≠ EmbeddingMatch.Raise EmbeddingMatch.IndexError.
Proof.
  intros Hwf Hinit. unfold EmbeddingMatch.match_embeddings.
  pose proof (loop_no_index_error py_float vocab emb_dim init Hwf lines _
                (initial_inv vocab emb_dim init Hinit)) as Hno.
  destruct (EmbeddingMatch.loop _ _ _ _ lines) as [st|e]; [done|].
  intros [= ->]. done.
Qed.


(** X6. The last exact match wins: if a line whose fields are [emb_dim]
    numbers [v] has a word that is a key of the vocabulary with index
    [i], and no later line has a word that is a key with index [i], the
    returned matrix has [v] at [i]; later lines that lead to [i] only by
    case folding do not change it. *)
Theorem match_embeddings_exact_match_wins {F} (py_float : string → option F)
    vocab emb_dim init pre line post v (i : nat) emb c log :
  EmbeddingTool.well_formed vocab → EmbeddingTool.matrix_ok vocab emb_dim init →
  EmbeddingMatch.match_embeddings py_float vocab emb_dim init (pre ++ line :: post)
    = EmbeddingMatch.Ok (emb, c, log) →
  mapM py_float (EmbeddingMatch.fields line) = Some v → Z.of_nat (length v) = emb_dim →
  EmbeddingMatch.stoi vocab !! EmbeddingTool.word_of line = Some i →
  Forall (λ l, EmbeddingMatch.stoi vocab !! EmbeddingTool.word_of l ≠ Some i) post →
  emb !! i = Some v.
Proof.
  intros Hwf Hinit Hrun Hparse Hdim Hkey Hpost.
  destruct (match_embeddings_Ok py_float vocab emb_dim init Hwf Hinit _ emb c log Hrun)
    as (st & Hloop & _ & -> & _).
  rewrite loop_app in Hloop.
  destruct (EmbeddingMatch.loop _ _ _ _ pre) as [st1|] eqn:Hpre; [|done].
  pose proof (loop_inv_result py_float vocab emb_dim init Hwf pre _ st1
                (initial_inv vocab emb_dim init Hinit) Hpre) as Hinv1.
  simpl in Hloop.
  destruct (step_target py_float vocab emb_dim init Hwf st1 line v i true Hinv1 Hparse Hdim)
    as (st2 & Hstep & Hrow & Hflag).
  { unfold EmbeddingTool.target. by rewrite Hkey. }
  { by left. }
  rewrite Hstep in Hloop.
  assert (EmbeddingTool.loop_inv vocab emb_dim init st2) as Hinv2.
  { destruct (step_inv py_float vocab emb_dim init Hwf st1 line Hinv1)
      as [(? & _)|(? & ? & ? & _)]; congruence. }
  destruct (loop_keeps_matched py_float vocab emb_dim init Hwf post st2 st i
              Hinv2 Hpost Hflag Hloop) as [-> _]. done.
Qed.

(** X7. The first case-folded match wins: if no earlier line leads to
    index [i], a line with [emb_dim] numbers [v] picks [i] through lower-
    or upper-casing, and no later line has a word that is a key with
    index [i], the returned matrix has [v] at [i]. *)
Theorem match_embeddings_first_folded_match_wins {F} (py_float : string → option F)
    vocab emb_dim init pre line post v (i : nat) emb c log :
  EmbeddingTool.well_formed vocab → EmbeddingTool.matrix_ok vocab emb_dim init →
  EmbeddingMatch.match_embeddings py_float vocab emb_dim init (pre ++ line :: post)
    = EmbeddingMatch.Ok (emb, c, log) →
  Forall (λ l, ¬ EmbeddingTool.reaches vocab (EmbeddingTool.word_of l) i) pre →
  mapM py_float (EmbeddingMatch.fields line) = Some v → Z.of_nat (length v) = emb_dim →
  EmbeddingTool.target vocab (EmbeddingTool.word_of line) = Some (i, false) →
  Forall (λ l, EmbeddingMatch.stoi vocab !! EmbeddingTool.word_of l ≠ Some i) post →
  emb !! i = Some v.
Proof.
  intros Hwf Hinit Hrun Hpre_no Hparse Hdim Htarget Hpost.
  destruct (match_embeddings_Ok py_float vocab emb_dim init Hwf Hinit _ emb c log Hrun)
    as (st & Hloop & _ & -> & _).
  rewrite loop_app in Hloop.
  destruct (EmbeddingMatch.loop _ _ _ _ pre) as [st1|] eqn:Hpre; [|done].
  pose proof (initial_inv vocab emb_dim init Hinit) as Hinv0.
  pose proof (loop_inv_result py_float vocab emb_dim init Hwf pre _ st1 Hinv0 Hpre) as Hinv1.
  destruct (loop_frame py_float vocab emb_dim init Hwf pre _ st1 i Hinv0 Hpre_no Hpre)
    as [_ Hflag1].
  simpl in Hflag1, Hloop.
  assert (i < EmbeddingMatch.vocab_len vocab)%nat as Hi.
  { apply target_reaches in Htarget as [Hk|[Hk|Hk]];
      exact (map_Forall_lookup_1 _ _ _ _ Hwf Hk). }
  rewrite lookup_replicate_2 in Hflag1 by done.
  destruct (step_target py_float vocab emb_dim init Hwf st1 line v i false Hinv1 Hparse Hdim
              Htarget) as (st2 & Hstep & Hrow & Hflag); [by right|].
  rewrite Hstep in Hloop.
  assert (EmbeddingTool.loop_inv vocab emb_dim init st2) as Hinv2.
  { destruct (step_inv py_float vocab emb_dim init Hwf st1 line Hinv1)
      as [(? & _)|(? & ? & ? & _)]; congruence. }
  destruct (loop_keeps_matched py_float vocab emb_dim init Hwf post st2 st i
              Hinv2 Hpost Hflag Hloop) as [-> _]. done.
Qed.

Lemma example_vocab_well_formed : EmbeddingTool.well_formed EmbeddingMatch.example_vocab.
Proof. apply (bool_decide_unpack _). vm_compute. exact I. Qed.

Lemma example_init_ok :
  EmbeddingTool.matrix_ok EmbeddingMatch.example_vocab 2 EmbeddingTool.example_init.
Proof. split; [reflexivity|]. repeat constructor. Qed.

Lemma match_embeddings_keeps_shape_example :
  EmbeddingTool.matrix_ok EmbeddingMatch.example_vocab 2
    [[1 # 1; 2 # 1]; [3 # 10; 4 # 10]; [5 # 1; 6 # 1]]%Q.
Proof.
  apply (match_embeddings_keeps_shape EmbeddingMatch.decimal_float
           EmbeddingMatch.example_vocab 2 EmbeddingTool.example_init
           EmbeddingMatch.example_lines _ (EmbeddingMatch.mkCounts 1 2) []).
  - exact example_vocab_well_formed.
  - exact example_init_ok.
  - reflexivity.
Defined.

Lemma match_embeddings_counts_in_range_example :
  0 ≤ 1 ≤ Z.of_nat 3 ∧ 0 ≤ 2 ∧ 1 + 2 = Z.of_nat 3.
Proof.
  apply (match_embeddings_counts_in_range EmbeddingMatch.decimal_float
           EmbeddingMatch.example_vocab 2 EmbeddingTool.example_init
           EmbeddingMatch.example_lines
           [[1 # 1; 2 # 1]; [3 # 10; 4 # 10]; [5 # 1; 6 # 1]]%Q
           (EmbeddingMatch.mkCounts 1 2) []).
  - exact example_vocab_well_formed.
  - exact example_init_ok.
  - reflexivity.
Defined.

Lemma match_embeddings_unreached_keeps_init_example :
  [[1 # 1; 2 # 1]; [3 # 10; 4 # 10]; [5 # 1; 6 # 1]]%Q !! 2%nat
  = EmbeddingTool.example_init !! 2%nat.
Proof.
  apply (match_embeddings_unreached_keeps_init EmbeddingMatch.decimal_float
           EmbeddingMatch.example_vocab 2 EmbeddingTool.example_init
           EmbeddingMatch.example_lines _ (EmbeddingMatch.mkCounts 1 2) [] 2).
  - exact example_vocab_well_formed.
  - exact example_init_ok.
  - reflexivity.
  - repeat constructor; intros [H|[H|H]]; vm_compute in H; discriminate.
Defined.

Lemma match_embeddings_never_index_error_example :
  EmbeddingMatch.match_embeddings EmbeddingMatch.decimal_float
    EmbeddingMatch.example_vocab 2 EmbeddingTool.example_init
    ["table 0.1 x"; "TABLE 0.3 0.4"]%string
  ≠ EmbeddingMatch.Raise EmbeddingMatch.IndexError.
Proof.
  apply (match_embeddings_never_index_error EmbeddingMatch.decimal_float).
  - exact example_vocab_well_formed.
  - exact example_init_ok.
Defined.


Lemma match_embeddings_exact_match_wins_example :
  [[1 # 1; 2 # 1]; [7 # 1; 8 # 1]; [5 # 1; 6 # 1]]%Q !! 1%nat = Some [7 # 1; 8 # 1]%Q.
Proof.
  apply (match_embeddings_exact_match_wins EmbeddingMatch.decimal_float
           EmbeddingMatch.example_vocab 2 EmbeddingTool.example_init
           ["TABLE 0.3 0.4"]%string "table 7 8"%string ["Table 9 9"]%string
           [7 # 1; 8 # 1]%Q 1 _ (EmbeddingMatch.mkCounts 1 2) []).
  - exact example_vocab_well_formed.
  - exact example_init_ok.
  - reflexivity.
  - reflexivity.
  - reflexivity.
  - reflexivity.
  - repeat constructor. intros H. vm_compute in H. discriminate.
Defined.

Lemma match_embeddings_first_folded_match_wins_example :
  [[1 # 1; 2 # 1]; [3 # 10; 4 # 10]; [5 # 1; 6 # 1]]%Q !! 1%nat
  = Some [3 # 10; 4 # 10]%Q.
Proof.
  apply (match_embeddings_first_folded_match_wins EmbeddingMatch.decimal_float
           EmbeddingMatch.example_vocab 2 EmbeddingTool.example_init
           ["apple 0.1 0.2"]%string "TABLE 0.3 0.4"%string ["Table 9 9"]%string
           [3 # 10; 4 # 10]%Q 1 _ (EmbeddingMatch.mkCounts 1 2) []).
  - exact example_vocab_well_formed.
  - exact example_init_ok.
  - reflexivity.
  - repeat constructor; intros [H|[H|H]]; vm_compute in H; discriminate.
  - reflexivity.
  - reflexivity.
  - reflexivity.
  - repeat constructor. intros H. vm_compute in H. discriminate.
Defined.

(** X8. The match percentage that [main] prints is defined exactly when
    the vocabulary is not empty (an empty one divides by zero), and then
    lies between 0 and 100. *)
Theorem match_percent_defined_and_bounded {F} (py_float : string → option F)
    vocab emb_dim init lines emb c log :
  EmbeddingTool.well_formed vocab → EmbeddingTool.matrix_ok vocab emb_dim init →
  EmbeddingMatch.match_embeddings py_float vocab emb_dim init lines
    = EmbeddingMatch.Ok (emb, c, log) →
  (EmbeddingMatch.vocab_len vocab = 0%nat → EmbeddingTool.match_percent c = None) ∧
  ((0 < EmbeddingMatch.vocab_len vocab)%nat →
   ∃ p, EmbeddingTool.match_percent c = Some p ∧ (0 <= p)%Q ∧ (p <= inject_Z 100)%Q).
Proof.
  intros Hwf Hinit Hrun.
  destruct (match_embeddings_Ok py_float vocab emb_dim init Hwf Hinit lines emb c log Hrun)
    as (st & _ & Hinv & _ & Hm & Hmiss).
  pose proof (flags_sum_bounds _ (EmbeddingTool.inv_flags _ _ _ _ Hinv)) as Hb.
  rewrite (EmbeddingTool.inv_flags_len _ _ _ _ Hinv), <- Hm in Hb.
  unfold EmbeddingTool.match_percent.
  replace (EmbeddingMatch.count_match c + EmbeddingMatch.count_miss c)
    with (Z.of_nat (EmbeddingMatch.vocab_len vocab)) by lia.
  split.
  - intros ->. done.
  - intros Hpos. rewrite bool_decide_eq_false_2 by lia. eexists. split; [done|].
    set (m := EmbeddingMatch.count_match c) in *.
    set (n := Z.of_nat (EmbeddingMatch.vocab_len vocab)) in *.
    assert (0 < n) as Hn by lia.
    assert (0 < inject_Z n)%Q as HnQ by (unfold Qlt; simpl; lia).
    assert (0 <= inject_Z m / inject_Z n)%Q as H0.
    { apply Qle_shift_div_l; [done|]. rewrite Qmult_0_l. unfold Qle; simpl. lia. }
    assert (inject_Z m / inject_Z n <= 1)%Q as H1.
    { apply Qle_shift_div_r; [done|]. rewrite Qmult_1_l. unfold Qle; simpl. lia. }
    split.
    + apply Qmult_le_0_compat; [done|]. unfold Qle; simpl. lia.
    + rewrite <- (Qmult_1_l (inject_Z 100)) at 2.
      apply Qmult_le_compat_r; [done|]. unfold Qle; simpl. lia.
Qed.

Lemma match_percent_defined_and_bounded_example :
  (EmbeddingMatch.vocab_len EmbeddingMatch.example_vocab = 0%nat →
   EmbeddingTool.match_percent (EmbeddingMatch.mkCounts 1 2) = None) ∧
  ((0 < EmbeddingMatch.vocab_len EmbeddingMatch.example_vocab)%nat →
   ∃ p, EmbeddingTool.match_percent (EmbeddingMatch.mkCounts 1 2) = Some p ∧
        (0 <= p)%Q ∧ (p <= inject_Z 100)%Q).
Proof.
  apply (match_percent_defined_and_bounded EmbeddingMatch.decimal_float
           EmbeddingMatch.example_vocab 2 EmbeddingTool.example_init
           EmbeddingMatch.example_lines
           [[1 # 1; 2 # 1]; [3 # 10; 4 # 10]; [5 # 1; 6 # 1]]%Q
           (EmbeddingMatch.mkCounts 1 2) []).
  - exact example_vocab_well_formed.
  - exact example_init_ok.
  - reflexivity.
Defined.

Section get_vocabs_lemmas.
Import EmbeddingMatch EmbeddingTool.
Context {V : Type}.

Lemma get_vocabs_fold (vocabs : list (string * V)) :
  foldl (λ (acc : option V * option V) (vocab : string * V),
           if bool_decide (vocab.1 = "src"%string) then (Some vocab.2, acc.2)
           else if bool_decide (vocab.1 = "tgt"%string) then (acc.1, Some vocab.2)
           else acc) (None, None) vocabs
  = (snd <$> last (filter (λ p, p.1 = "src"%string) vocabs),
     snd <$> last (filter (λ p, p.1 = "tgt"%string) vocabs)).
Proof.
  induction vocabs as [|[name v] vocabs IH] using rev_ind; [done|].
  rewrite foldl_app, IH, !filter_app. simpl.
  rewrite !filter_cons, !filter_nil. simpl.
  repeat case_bool_decide; repeat case_decide; simplify_eq/=;
    rewrite ?app_nil_r, ?last_snoc; try done.
Qed.
End get_vocabs_lemmas.

(** X9. [get_vocabs] returns the vocabulary of the last entry named "src"
    and that of the last entry named "tgt"; when either name is missing
    from the loaded list it raises [UnboundLocalError]. *)
Theorem get_vocabs_last_entries {V} (vocabs : list (string * V)) :
  EmbeddingTool.get_vocabs vocabs =
  match last (filter (λ p, p.1 = "src"%string) vocabs),
        last (filter (λ p, p.1 = "tgt"%string) vocabs) with
  | Some enc, Some dec => EmbeddingMatch.Ok (enc.2, dec.2)
  | _, _ => EmbeddingMatch.Raise EmbeddingMatch.UnboundLocalError
  end.
Proof.
  unfold EmbeddingTool.get_vocabs. rewrite get_vocabs_fold.
  destruct (last (filter _ vocabs)) as [enc|];
    destruct (last (filter _ vocabs)) as [dec|]; done.
Qed.

Section beam_state_lemmas.
Import Tensor DecoderState BeamState.
Context {A : Type}.
Implicit Types (row : list A) (e : list (list A)) (st : RNNDecoderState A).

Lemma length_concat_replicate n row :
  length (concat (replicate n row)) = (n * length row)%nat.
Proof. induction n as [|n IH]; simpl; [done|]. by rewrite length_app, IH. Qed.

Lemma lookup_concat_replicate n row (k s : nat) :
  (k < n)%nat → (s < length row)%nat →
  concat (replicate n row) !! (k * length row + s)%nat = row !! s.
Proof.
  revert k. induction n as [|n IH]; intros k Hk Hs; [lia|]. simpl.
  destruct k as [|k].
  - by rewrite lookup_app_l by lia.
  - rewrite lookup_app_r by lia.
    replace (S k * length row + s - length row)%nat with (k * length row + s)%nat by lia.
    apply IH; lia.
Qed.

Lemma batch_index_split (beam nb j : nat) :
  (j < beam * nb)%nat → ∃ k s : nat, j = (k * nb + s)%nat ∧ (k < beam)%nat ∧ (s < nb)%nat.
Proof.
  intros Hj. assert (0 < nb)%nat as Hnb by nia.
  exists (j / nb)%nat, (j mod nb)%nat.
  pose proof (Nat.div_mod_eq j nb). pose proof (Nat.mod_upper_bound j nb).
  split; [lia|]. split; [|lia].
  apply Nat.Div0.div_lt_upper_bound. lia.
Qed.

Lemma tensor_repeat_Some a nb (beam : nat) e :
  has_shape a nb e → (0 < beam)%nat →
  ∃ e', tensor_repeat (Z.of_nat beam) e = Some e' ∧ has_shape a (beam * nb) e' ∧
    ∀ layer k s : nat, (k < beam)%nat → (s < nb)%nat →
      at2 e' layer (k * nb + s) = at2 e layer s.
Proof.
  intros [Hel Hrows] Hbeam. unfold tensor_repeat.
  rewrite bool_decide_eq_true_2 by lia. rewrite Nat2Z.id.
  eexists. split; [done|]. split.
  - split; [by rewrite length_fmap|].
    apply Forall_fmap. eapply Forall_impl; [exact Hrows|]. intros row Hrow. simpl in *.
    by rewrite length_concat_replicate, Hrow.
  - intros layer k s Hk Hs. unfold at2. rewrite list_lookup_fmap.
    destruct (e !! layer) as [row|] eqn:Hl; [|done]. simpl.
    pose proof (Forall_lookup_1 _ _ _ _ Hrows Hl) as Hrow. simpl in Hrow. subst nb.
    by apply lookup_concat_replicate.
Qed.

(** a tensor with the entries that [beam_update] prescribes is its result *)
Lemma beam_update_tensor_char a (beam nb : nat) (idx : Z) (positions : list Z) e e' :
  has_shape a (beam * nb) e → (0 < a)%nat → (0 < beam)%nat →
  0 ≤ idx < Z.of_nat nb → length positions = beam →
  Forall (λ p, 0 ≤ p < Z.of_nat beam) positions →
  has_shape a (beam * nb) e' →
  (∀ layer k s : nat, (layer < a)%nat → (k < beam)%nat → (s < nb)%nat →
     at2 e' layer (k * nb + s) =
       if bool_decide (s = Z.to_nat idx)
       then p ← positions !! k; at2 e layer (Z.to_nat p * nb + Z.to_nat idx)
       else at2 e layer (k * nb + s)) →
  beam_update_tensor idx positions (Z.of_nat beam) e = Some e'.
Proof.
  intros He Ha Hbeam Hidx Hpl Hpos He' Hat.
  destruct (beam_update_tensor_Some a beam nb idx positions e)
    as (e'' & -> & He'' & Hat''); try done.
  f_equal. apply (has_shape_ext a (beam * nb)); [done..|].
  intros layer j Hlayer Hj.
  destruct (batch_index_split beam nb j Hj) as (k & s & -> & Hk & Hs).
  by rewrite Hat'', Hat.
Qed.

(** [beam_update] acts on every tensor of [_all] on its own *)
Lemma beam_update_by_tensor (f : list (list A) → list (list A)) idx positions beam_size st :
  (∀ e, e ∈ _all st → beam_update_tensor idx positions beam_size e = Some (f e)) →
  beam_update idx positions beam_size st =
    Some (mkState (f <$> hidden st) (f (input_feed st)) (coverage st)).
Proof.
  intros Hf. unfold beam_update, _all in *.
  rewrite (mapM_total _ f) by (intros e He; apply Hf, elem_of_app; by left).
  simpl. rewrite Hf by (apply elem_of_app; right; by apply list_elem_of_singleton).
  done.
Qed.

Lemma repeat_beam_size_times_Some (beam nb : nat) st :
  (0 < beam)%nat → batch_is nb st →
  ∃ st', repeat_beam_size_times (Z.of_nat beam) st = Some st' ∧
    coverage st' = coverage st ∧
    Forall2 (λ e e', ∃ a, (0 < a)%nat ∧ has_shape a nb e ∧ has_shape a (beam * nb) e' ∧
               ∀ layer k s : nat, (k < beam)%nat → (s < nb)%nat →
                 at2 e' layer (k * nb + s) = at2 e layer s)
            (_all st) (_all st').
Proof.
  intros Hbeam Hall. unfold repeat_beam_size_times.
  destruct (mapM_spec (tensor_repeat (Z.of_nat beam))
              (λ i e', ∃ e a, _all st !! i = Some e ∧ (0 < a)%nat ∧ has_shape a nb e ∧
                 has_shape a (beam * nb) e' ∧
                 ∀ layer k s : nat, (k < beam)%nat → (s < nb)%nat →
                   at2 e' layer (k * nb + s) = at2 e layer s) (_all st))
    as (vars & -> & Hlen & Hvars).
  { intros i e Hi. destruct (Forall_lookup_1 _ _ _ _ Hall Hi) as (a & Ha & He).
    destruct (tensor_repeat_Some a nb beam e He Hbeam) as (e' & ? & ? & ?).
    exists e'. split; [done|]. by exists e, a. }
  simpl. unfold _all in Hlen. rewrite length_app in Hlen. simpl in Hlen.
  destruct (decide (vars = [])) as [->|Hne]; [simpl in Hlen; lia|].
  apply exists_last in Hne as (hid' & feed' & ->).
  unfold Decoder.py_last, Decoder.drop_last. rewrite last_snoc. simpl.
  rewrite length_app, Nat.add_sub. simpl. rewrite take_app_length.
  eexists. split; [done|]. split; [done|]. unfold _all at 2. simpl.
  apply Forall2_same_length_lookup. split.
  { unfold _all. rewrite !length_app in *. simpl in *. lia. }
  intros i e e' He He'. destruct (Hvars i e' He') as (e0 & a & He0 & ?).
  rewrite He in He0. injection He0 as <-. by exists a.
Qed.
End beam_state_lemmas.
Section beam_state_more.
Import Tensor DecoderState BeamState.
Context {A : Type}.
Implicit Types (row : list A) (e : list (list A)) (st : RNNDecoderState A).

(** two updates in a row, tensor by tensor *)
Lemma beam_update_tensor_twice a (beam nb : nat) (idx1 idx2 : Z) (p1 p2 : list Z) e :
  has_shape a (beam * nb) e → (0 < a)%nat → (0 < beam)%nat →
  0 ≤ idx1 < Z.of_nat nb → length p1 = beam → Forall (λ p, 0 ≤ p < Z.of_nat beam) p1 →
  0 ≤ idx2 < Z.of_nat nb → length p2 = beam → Forall (λ p, 0 ≤ p < Z.of_nat beam) p2 →
  ∃ e1 e2, beam_update_tensor idx1 p1 (Z.of_nat beam) e = Some e1 ∧
    beam_update_tensor idx2 p2 (Z.of_nat beam) e1 = Some e2 ∧
    has_shape a (beam * nb) e2 ∧
    ∀ layer k s : nat, (k < beam)%nat → (s < nb)%nat →
      at2 e2 layer (k * nb + s) =
        if bool_decide (s = Z.to_nat idx2)
        then p ← p2 !! k;
             if bool_decide (idx2 = idx1)
             then q ← p1 !! Z.to_nat p; at2 e layer (Z.to_nat q * nb + Z.to_nat idx1)
             else at2 e layer (Z.to_nat p * nb + Z.to_nat idx2)
        else if bool_decide (s = Z.to_nat idx1)
             then q ← p1 !! k; at2 e layer (Z.to_nat q * nb + Z.to_nat idx1)
             else at2 e layer (k * nb + s).
Proof.
  intros He Ha Hbeam Hidx1 Hl1 Hp1 Hidx2 Hl2 Hp2.
  destruct (beam_update_tensor_Some a beam nb idx1 p1 e) as (e1 & He1 & Hs1 & Hat1);
    try done.
  destruct (beam_update_tensor_Some a beam nb idx2 p2 e1) as (e2 & He2 & Hs2 & Hat2);
    try done.
  exists e1, e2. split; [done|]. split; [done|]. split; [done|].
  intros layer k s Hk Hs. rewrite Hat2 by done.
  case_bool_decide as Hs2'.
  - destruct (p2 !! k) as [p|] eqn:Hp; [|done]. simpl.
    pose proof (Forall_lookup_1 _ _ _ _ Hp2 Hp) as Hpb. simpl in Hpb.
    rewrite Hat1 by lia.
    case_bool_decide as Hi; case_bool_decide as Hi'; try done; lia.
  - by rewrite Hat1.
Qed.

Lemma beam_update_twice (beam nb : nat) (idx1 idx2 : Z) (p1 p2 : list Z) st :
  (0 < beam)%nat → batch_is (beam * nb) st →
  0 ≤ idx1 < Z.of_nat nb → length p1 = beam → Forall (λ p, 0 ≤ p < Z.of_nat beam) p1 →
  0 ≤ idx2 < Z.of_nat nb → length p2 = beam → Forall (λ p, 0 ≤ p < Z.of_nat beam) p2 →
  let g := λ e, default e (beam_update_tensor idx1 p1 (Z.of_nat beam) e ≫=
                             beam_update_tensor idx2 p2 (Z.of_nat beam)) in
  beam_update idx1 p1 (Z.of_nat beam) st ≫= beam_update idx2 p2 (Z.of_nat beam) =
    Some (mkState (g <$> hidden st) (g (input_feed st)) (coverage st)).
Proof.
  intros Hbeam Hall Hidx1 Hl1 Hp1 Hidx2 Hl2 Hp2 g.
  set (f1 := λ e, default e (beam_update_tensor idx1 p1 (Z.of_nat beam) e)).
  set (f2 := λ e, default e (beam_update_tensor idx2 p2 (Z.of_nat beam) e)).
  assert (∀ e, e ∈ _all st →
    beam_update_tensor idx1 p1 (Z.of_nat beam) e = Some (f1 e) ∧
    beam_update_tensor idx2 p2 (Z.of_nat beam) (f1 e) = Some (f2 (f1 e)) ∧
    g e = f2 (f1 e)) as Hboth.
  { intros e He. destruct (proj1 (Forall_forall _ _) Hall e He) as (a & Ha & Hsh).
    destruct (beam_update_tensor_twice a beam nb idx1 idx2 p1 p2 e)
      as (e1 & e2 & He1 & He2 & _); try done.
    unfold g, f1, f2. rewrite He1. simpl. rewrite He2. done. }
  rewrite (beam_update_by_tensor f1) by (intros e He; by apply Hboth). simpl.
  rewrite (beam_update_by_tensor f2).
  - simpl. f_equal. f_equal.
    + rewrite <- list_fmap_compose. apply list_fmap_ext. intros i e Hi. simpl.
      symmetry. apply Hboth. unfold _all. apply elem_of_app. left.
      apply list_elem_of_lookup. eauto.
    + symmetry. apply Hboth. unfold _all. apply elem_of_app. right.
      by apply list_elem_of_singleton.
  - intros e1 He1. unfold _all in He1. simpl in He1.
    apply elem_of_app in He1 as [He1|He1].
    + apply list_elem_of_fmap in He1 as (e & -> & He). apply Hboth.
      unfold _all. apply elem_of_app. by left.
    + apply list_elem_of_singleton in He1 as ->. apply Hboth.
      unfold _all. apply elem_of_app. right. by apply list_elem_of_singleton.
Qed.
End beam_state_more.
(** X10. [repeat_beam_size_times beam_size] tiles the batch axis of every
    tensor of the state: a batch of [nb] sentences becomes one of
    [beam_size * nb], the entry of beam [k] and sentence [s] is the old
    entry of sentence [s], and the number of hidden components and the
    coverage stay as they were. *)
Theorem repeat_beam_size_times_tiles_batch {A} (st : DecoderState.RNNDecoderState A)
    (beam nb : nat) :
  (0 < beam)%nat → BeamState.batch_is nb st →
  ∃ st', BeamState.repeat_beam_size_times (Z.of_nat beam) st = Some st' ∧
    DecoderState.coverage st' = DecoderState.coverage st ∧
    length (DecoderState.hidden st') = length (DecoderState.hidden st) ∧
    BeamState.batch_is (beam * nb) st' ∧
    ∀ n e, DecoderState._all st !! n = Some e →
      ∃ e', DecoderState._all st' !! n = Some e' ∧ length e' = length e ∧
        ∀ layer k s : nat, (k < beam)%nat → (s < nb)%nat →
          Tensor.at2 e' layer (k * nb + s) = Tensor.at2 e layer s.
Proof.
  intros Hbeam Hall.
  destruct (repeat_beam_size_times_Some beam nb st Hbeam Hall) as (st' & Hst' & Hcov & Hrel).
  exists st'. split; [done|]. split; [done|].
  pose proof (Forall2_length _ _ _ Hrel) as Hlen. split.
  { unfold DecoderState._all in Hlen. rewrite !length_app in Hlen. simpl in Hlen. lia. }
  split.
  - apply Forall_forall. intros e' He'. apply list_elem_of_lookup in He' as [n Hn].
    destruct (Forall2_lookup_r _ _ _ _ _ Hrel Hn) as (e & _ & a & Ha & _ & He' & _).
    by exists a.
  - intros n e Hn.
    destruct (Forall2_lookup_l _ _ _ _ _ Hrel Hn) as (e' & Hn' & a & _ & He & He' & Hat).
    exists e'. split; [done|]. split; [|done].
    destruct He as [-> _]. by destruct He' as [-> _].
Qed.

Lemma repeat_beam_size_times_example :
  ∃ st', BeamState.repeat_beam_size_times 2
           (DecoderState.mkState [[[10; 11]]] [[30; 31]] None) = Some st' ∧
    DecoderState.coverage st' = None ∧
    length (DecoderState.hidden st') = 1%nat ∧
    BeamState.batch_is (2 * 2) st' ∧
    ∀ n e, [[[10; 11]]; [[30; 31]]] !! n = Some e →
      ∃ e', DecoderState._all st' !! n = Some e' ∧ length e' = length e ∧
        ∀ layer k s : nat, (k < 2)%nat → (s < 2)%nat →
          Tensor.at2 e' layer (k * 2 + s) = Tensor.at2 e layer s.
Proof.
  apply (repeat_beam_size_times_tiles_batch
           (DecoderState.mkState [[[10; 11]]] [[30; 31]] None) 2 2).
  - lia.
  - repeat constructor; exists 1%nat; (split; [lia|]); (split; [reflexivity|]);
      repeat constructor.
Defined.

(** X11. Right after [repeat_beam_size_times] all beams of a sentence hold
    the same state, so a [beam_update] with any valid positions leaves the
    state as it is. *)
Theorem beam_update_after_repeat_is_noop {A} (st : DecoderState.RNNDecoderState A)
    (beam nb : nat) (idx : Z) (positions : list Z) :
  (0 < beam)%nat → BeamState.batch_is nb st →
  0 ≤ idx < Z.of_nat nb → length positions = beam →
  Forall (λ p, 0 ≤ p < Z.of_nat beam) positions →
  ∃ st', BeamState.repeat_beam_size_times (Z.of_nat beam) st = Some st' ∧
    DecoderState.beam_update idx positions (Z.of_nat beam) st' = Some st'.
Proof.
  intros Hbeam Hall Hidx Hpl Hpos.
  destruct (repeat_beam_size_times_Some beam nb st Hbeam Hall) as (st' & Hst' & _ & Hrel).
  exists st'. split; [done|].
  rewrite (beam_update_by_tensor (λ e, e)).
  - destruct st'. simpl. by rewrite list_fmap_id.
  - intros e' He'. apply list_elem_of_lookup in He' as [n Hn].
    destruct (Forall2_lookup_r _ _ _ _ _ Hrel Hn) as (e & _ & a & Ha & _ & He' & Hat).
    apply (beam_update_tensor_char a beam nb); try done.
    intros layer k s _ Hk Hs. case_bool_decide as Hsi; [|done]. subst s.
    destruct (lookup_lt_is_Some_2 positions k) as [p Hp]; [lia|]. rewrite Hp. simpl.
    pose proof (Forall_lookup_1 _ _ _ _ Hpos Hp) as Hpb. simpl in Hpb.
    rewrite !Hat by lia. done.
Qed.

Lemma beam_update_after_repeat_example :
  ∃ st', BeamState.repeat_beam_size_times 2
           (DecoderState.mkState [[[10; 11]]] [[30; 31]] None) = Some st' ∧
    DecoderState.beam_update 1 [1; 0] 2 st' = Some st'.
Proof.
  apply (beam_update_after_repeat_is_noop
           (DecoderState.mkState [[[10; 11]]] [[30; 31]] None) 2 2 1 [1; 0]).
  - lia.
  - repeat constructor; exists 1%nat; (split; [lia|]); (split; [reflexivity|]);
      repeat constructor.
  - lia.
  - reflexivity.
  - repeat constructor; lia.
Defined.

(** X12. A [beam_update] whose positions keep every beam in its place
    ([positions = [0, ..., beam_size - 1]]) changes nothing. *)
Theorem beam_update_identity_positions {A} (st : DecoderState.RNNDecoderState A)
    (beam nb : nat) (idx : Z) :
  (0 < beam)%nat → BeamState.batch_is (beam * nb) st → 0 ≤ idx < Z.of_nat nb →
  DecoderState.beam_update idx (seqZ 0 (Z.of_nat beam)) (Z.of_nat beam) st = Some st.
Proof.
  intros Hbeam Hall Hidx.
  rewrite (beam_update_by_tensor (λ e, e)).
  - destruct st. simpl. by rewrite list_fmap_id.
  - intros e He. destruct (proj1 (Forall_forall _ _) Hall e He) as (a & Ha & Hsh).
    apply (beam_update_tensor_char a beam nb); try done.
    + rewrite length_seqZ. lia.
    + apply Forall_forall. intros p Hp. apply elem_of_seqZ in Hp. lia.
    + intros layer k s _ Hk Hs. case_bool_decide as Hsi; [|done]. subst s.
      rewrite lookup_seqZ_lt by lia. simpl.
      by replace (Z.to_nat (0 + Z.of_nat k)) with k by lia.
Qed.

Lemma beam_update_identity_positions_example :
  DecoderState.beam_update 1 (seqZ 0 2) 2
    (DecoderState.mkState [[[10; 11; 20; 21]]] [[30; 31; 40; 41]] None)
  = Some (DecoderState.mkState [[[10; 11; 20; 21]]] [[30; 31; 40; 41]] None).
Proof.
  apply (beam_update_identity_positions
           (DecoderState.mkState [[[10; 11; 20; 21]]] [[30; 31; 40; 41]] None) 2 2 1).
  - lia.
  - repeat constructor; exists 1%nat; (split; [lia|]); (split; [reflexivity|]);
      repeat constructor.
  - lia.
Defined.

(** X13. Updates of two different sentences do not interfere: both orders
    succeed and give the same state. *)
Theorem beam_update_distinct_sentences_commute {A} (st : DecoderState.RNNDecoderState A)
    (beam nb : nat) (idx1 idx2 : Z) (p1 p2 : list Z) :
  (0 < beam)%nat → BeamState.batch_is (beam * nb) st →
  0 ≤ idx1 < Z.of_nat nb → length p1 = beam → Forall (λ p, 0 ≤ p < Z.of_nat beam) p1 →
  0 ≤ idx2 < Z.of_nat nb → length p2 = beam → Forall (λ p, 0 ≤ p < Z.of_nat beam) p2 →
  idx1 ≠ idx2 →
  ∃ st', DecoderState.beam_update idx1 p1 (Z.of_nat beam) st ≫=
           DecoderState.beam_update idx2 p2 (Z.of_nat beam) = Some st' ∧
         DecoderState.beam_update idx2 p2 (Z.of_nat beam) st ≫=
           DecoderState.beam_update idx1 p1 (Z.of_nat beam) = Some st'.
Proof.
  intros Hbeam Hall Hidx1 Hl1 Hp1 Hidx2 Hl2 Hp2 Hne.
  rewrite (beam_update_twice beam nb idx1 idx2 p1 p2) by done.
  rewrite (beam_update_twice beam nb idx2 idx1 p2 p1) by done.
  eexists. split; [done|]. simpl.
  assert (∀ e, e ∈ DecoderState._all st →
    DecoderState.beam_update_tensor idx2 p2 (Z.of_nat beam) e ≫=
      DecoderState.beam_update_tensor idx1 p1 (Z.of_nat beam) =
    DecoderState.beam_update_tensor idx1 p1 (Z.of_nat beam) e ≫=
      DecoderState.beam_update_tensor idx2 p2 (Z.of_nat beam)) as Hcomm.
  { intros e He. destruct (proj1 (Forall_forall _ _) Hall e He) as (a & Ha & Hsh).
    destruct (beam_update_tensor_twice a beam nb idx1 idx2 p1 p2 e)
      as (e1 & e12 & -> & He12 & Hs12 & Hat12); try done.
    destruct (beam_update_tensor_twice a beam nb idx2 idx1 p2 p1 e)
      as (e2 & e21 & -> & He21 & Hs21 & Hat21); try done.
    simpl. rewrite He12, He21. f_equal.
    apply (has_shape_ext a (beam * nb)); [done..|].
    intros layer j _ Hj.
    destruct (batch_index_split beam nb j Hj) as (k & s & -> & Hk & Hs).
    rewrite Hat12, Hat21 by done.
    rewrite (bool_decide_eq_false_2 (idx1 = idx2)) by done.
    rewrite (bool_decide_eq_false_2 (idx2 = idx1)) by done.
    repeat case_bool_decide; try done; try lia.
    all: by destruct (_ !! k). }
  f_equal. f_equal.
  - apply list_fmap_ext. intros i e Hi. simpl. rewrite Hcomm; [done|].
    unfold DecoderState._all. apply elem_of_app. left. apply list_elem_of_lookup. eauto.
  - rewrite Hcomm; [done|].
    unfold DecoderState._all. apply elem_of_app. right. by apply list_elem_of_singleton.
Qed.

Lemma beam_update_distinct_sentences_example :
  ∃ st', DecoderState.beam_update 0 [1; 1] 2
           (DecoderState.mkState [[[10; 11; 20; 21]]] [[30; 31; 40; 41]] None) ≫=
           DecoderState.beam_update 1 [0; 0] 2 = Some st' ∧
         DecoderState.beam_update 1 [0; 0] 2
           (DecoderState.mkState [[[10; 11; 20; 21]]] [[30; 31; 40; 41]] None) ≫=
           DecoderState.beam_update 0 [1; 1] 2 = Some st'.
Proof.
  apply (beam_update_distinct_sentences_commute
           (DecoderState.mkState [[[10; 11; 20; 21]]] [[30; 31; 40; 41]] None)
           2 2 0 1 [1; 1] [0; 0]).
  - lia.
  - repeat constructor; exists 1%nat; (split; [lia|]); (split; [reflexivity|]);
      repeat constructor.
  - lia.
  - reflexivity.
  - repeat constructor; lia.
  - lia.
  - reflexivity.
  - repeat constructor; lia.
  - lia.
Defined.


(** X15. [reverse] is its own inverse on a batch with true lengths between
    0 and the padded length: reversing the reversed batch with the same
    lengths gives the batch back, which is what puts the outputs of the
    backward network in position again. *)
Theorem reverse_involutive {A} s b (x : list (list A)) (lengths : list Z) :
  Tensor.has_shape s b x → length lengths = b → lengths ≠ [] →
  Forall (λ l, 0 ≤ l ≤ Z.of_nat s) lengths →
  ∃ y, LuaBiRNNEncoder.reverse x lengths = Some y ∧
       LuaBiRNNEncoder.reverse y lengths = Some x.
Proof.
  intros Hx Hb Hne Hl.
  destruct (reverse_Some s b x lengths Hx Hb Hne Hl) as (y & Hy & Hys & Hyat).
  destruct (reverse_Some s b y lengths Hys Hb Hne Hl) as (z & Hz & Hzs & Hzat).
  exists y. split; [done|]. rewrite Hz. f_equal.
  apply (has_shape_ext s b); [done..|]. intros j i Hj Hi.
  destruct (lookup_lt_is_Some_2 lengths i) as [l Hli]; [lia|].
  pose proof (Forall_lookup_1 _ _ _ _ Hl Hli) as Hlb. simpl in Hlb.
  rewrite (Hzat i l Hli j Hj). case_bool_decide as Hjl.
  - rewrite (Hyat i l Hli) by lia. rewrite bool_decide_eq_true_2 by lia.
    f_equal. lia.
  - rewrite (Hyat i l Hli j Hj). by rewrite bool_decide_eq_false_2.
Qed.

Lemma reverse_involutive_example :
  ∃ y, LuaBiRNNEncoder.reverse [[1; 4]; [2; 5]; [3; 0]] [3; 2] = Some y ∧
       LuaBiRNNEncoder.reverse y [3; 2] = Some [[1; 4]; [2; 5]; [3; 0]].
Proof.
  apply (reverse_involutive 3 2 [[1; 4]; [2; 5]; [3; 0]] [3; 2]).
  - split; [reflexivity|]. repeat constructor.
  - reflexivity.
  - discriminate.
  - repeat constructor; lia.
Defined.

(** X16. A true length below 0 or above the padded length makes the index
    list of [reverse] too long or too short, the assertion on its length
    fails and [reverse] raises. *)
Theorem reverse_raises_on_length_out_of_range {A} (x : list (list A)) (lengths : list Z)
    (i : nat) (l : Z) :
  lengths !! i = Some l → ¬ (0 ≤ l ≤ Z.of_nat (Tensor.size0 x)) →
  LuaBiRNNEncoder.reverse x lengths = None.
Proof.
  intros Hi Hout. unfold LuaBiRNNEncoder.reverse.
  assert (mapM (LuaBiRNNEncoder.reverse_one x) (Py.enumerate lengths) = None) as ->; [|done].
  apply mapM_None, Exists_exists. exists (i, l). split.
  - apply list_elem_of_lookup. exists i. by rewrite enumerate_lookup, Hi.
  - unfold LuaBiRNNEncoder.reverse_one, LuaBiRNNEncoder.idx_reversed.
    rewrite bool_decide_eq_false_2; [done|].
    unfold Py.range_down, Py.range.
    rewrite length_app, length_fmap, !length_seqZ. lia.
Qed.

Lemma reverse_raises_on_length_out_of_range_example :
  LuaBiRNNEncoder.reverse [[1; 4]; [2; 5]; [3; 0]] [3; 4] = None.
Proof.
  apply (reverse_raises_on_length_out_of_range [[1; 4]; [2; 5]; [3; 0]] [3; 4] 1 4).
  - reflexivity.
  - simpl. lia.
Defined.
Section ans_posi_more.
Import Tensor LuaBiRNNEncoder.

Lemma nonzero_from_no_mark k (v : list bool) :
  (∀ t, v !! t ≠ Some true) → nonzero_from k v = [].
Proof.
  revert k. induction v as [|c v IH]; intros k Hv; [done|]. simpl.
  destruct c; [by destruct (Hv 0%nat)|]. apply IH. intros t. apply (Hv (S t)).
Qed.

(** the first index that [nonzero] returns is the first marked position *)
Lemma head_nonzero_from k (v : list bool) (j : nat) :
  v !! j = Some true → (∀ t, (t < j)%nat → v !! t ≠ Some true) →
  head (nonzero_from k v) = Some (k + Z.of_nat j).
Proof.
  revert k j. induction v as [|c v IH]; intros k j Hj Hfirst; [done|]. simpl.
  destruct j as [|j].
  - simpl in Hj. injection Hj as ->. simpl. f_equal. lia.
  - destruct c; [by destruct (Hfirst 0%nat); [lia|]|].
    rewrite (IH (k + 1) j); [f_equal; lia|done|].
    intros t Ht. apply (Hfirst (S t)). lia.
Qed.

(** and the last one is the last marked position *)
Lemma last_nonzero_from k (v : list bool) (j : nat) :
  v !! j = Some true → (∀ t, (j < t)%nat → v !! t ≠ Some true) →
  last (nonzero_from k v) = Some (k + Z.of_nat j).
Proof.
  revert k j. induction v as [|c v IH]; intros k j Hj Hlast; [done|]. simpl.
  destruct j as [|j].
  - simpl in Hj. injection Hj as ->.
    rewrite (nonzero_from_no_mark (k + 1) v).
    + simpl. f_equal. lia.
    + intros t. apply (Hlast (S t)). lia.
  - assert (last (nonzero_from (k + 1) v) = Some (k + Z.of_nat (S j))) as Hl.
    { rewrite (IH (k + 1) j); [f_equal; lia|done|].
      intros t Ht. apply (Hlast (S t)). lia. }
    destruct c; [|done].
    destruct (nonzero_from (k + 1) v) as [|z zs] eqn:Hnz; [done|].
    by rewrite last_cons, Hl.
Qed.

Lemma ans_span_first_last (v : list bool) (st en : nat) :
  (st < en)%nat → v !! st = Some true → v !! (en - 1)%nat = Some true →
  (∀ t, v !! t = Some true → (st ≤ t < en)%nat) →
  ans_span (nonzero v) = Some (Z.of_nat st, Z.of_nat en).
Proof.
  intros Hse Hst Hen Hin. unfold ans_span, nonzero.
  rewrite (head_nonzero_from 0 v st), (last_nonzero_from 0 v (en - 1)); try done.
  - simpl. do 2 f_equal; lia.
  - intros t Ht Hv. apply Hin in Hv. lia.
  - intros t Ht Hv. apply Hin in Hv. lia.
Qed.
End ans_posi_more.

(** X17. The answer-span locator needs no contiguous run: if batch
    element [i] carries the indicator [3] at [st], at [en - 1] and nowhere
    outside [st, en), its span is [(st, en)], whatever lies in between. *)
Theorem get_ans_posi_spans_first_to_last_mark s b (x : list (list Z))
    (spans : list (nat * nat)) :
  Tensor.has_shape s b x → (0 < b)%nat → length spans = b →
  (∀ i st en, spans !! i = Some (st, en) →
     (st < en ≤ s)%nat ∧
     Tensor.at2 x st i = Some 3 ∧ Tensor.at2 x (en - 1) i = Some 3 ∧
     ∀ t, Tensor.at2 x t i = Some 3 → (st ≤ t < en)%nat) →
  LuaBiRNNEncoder.get_ans_posi x =
    Some [(λ r, Z.of_nat r.1) <$> spans; (λ r, Z.of_nat r.2) <$> spans].
Proof.
  intros Hx Hb Hlen Hspans. pose proof Hx as [Hs _].
  assert (0 < s)%nat as Hspos.
  { destruct (lookup_lt_is_Some_2 spans 0) as [[st en] Hr]; [lia|].
    destruct (Hspans 0%nat st en Hr) as [? _]. lia. }
  unfold LuaBiRNNEncoder.get_ans_posi.
  pose proof (is_ans_shape s b x Hx) as Hshape.
  rewrite (size1_shape s b) by done.
  assert (mapM (λ i, col ← Tensor.column (LuaBiRNNEncoder.is_ans_of x) i;
                     LuaBiRNNEncoder.ans_span (LuaBiRNNEncoder.nonzero col)) (seq 0 b)
          = Some ((λ r, (Z.of_nat r.1, Z.of_nat r.2)) <$> spans)) as ->.
  { apply mapM_Some, Forall2_same_length_lookup. split.
    { by rewrite length_seq, length_fmap. }
    intros i n sp Hi Hsp. apply lookup_seq in Hi as [-> Hi]. simpl.
    rewrite list_lookup_fmap in Hsp.
    destruct (spans !! i) as [[st en]|] eqn:Hri; [|done]. simpl in Hsp.
    injection Hsp as <-. destruct (Hspans i st en Hri) as (Hse & Hst & Hen & Hin).
    destruct (column_is_Some s b (LuaBiRNNEncoder.is_ans_of x) i Hshape Hi) as [col Hcol].
    rewrite Hcol. simpl.
    pose proof (column_length _ _ _ Hcol) as Hcl. destruct Hshape as [Hs' _].
    assert (length (LuaBiRNNEncoder.is_ans_of x) = length x) as Hlx
      by (unfold LuaBiRNNEncoder.is_ans_of; by rewrite length_fmap).
    apply ans_span_first_last; [lia| | |].
    - rewrite (is_ans_column x i col st Hcol) by lia. done.
    - rewrite (is_ans_column x i col (en - 1) Hcol) by lia. done.
    - intros t Ht. apply Hin. rewrite <- (is_ans_column x i col t Hcol); [done|].
      apply lookup_lt_Some in Ht. lia. }
  simpl. unfold LuaBiRNNEncoder.stack_spans.
  destruct spans as [|p spans]; [simpl in Hlen; lia|].
  simpl. by rewrite <- !list_fmap_compose.
Qed.

Lemma get_ans_posi_spans_example :
  LuaBiRNNEncoder.get_ans_posi [[3; 0]; [0; 3]; [3; 0]; [0; 3]] = Some [[0; 1]; [3; 4]].
Proof.
  apply (get_ans_posi_spans_first_to_last_mark 4 2 [[3; 0]; [0; 3]; [3; 0]; [0; 3]]
           [(0, 3); (1, 4)]%nat).
  - split; [reflexivity|]. repeat constructor.
  - lia.
  - reflexivity.
  - intros [|[|i]] st en Hi; simplify_eq/=.
    + split; [lia|]. split; [reflexivity|]. split; [reflexivity|].
      intros [|[|[|[|t]]]]; unfold Tensor.at2; simpl; intros; (lia || congruence).
    + split; [lia|]. split; [reflexivity|]. split; [reflexivity|].
      intros [|[|[|[|t]]]]; unfold Tensor.at2; simpl; intros; (lia || congruence).
Defined.
Section decoder_more.
Import Tensor DecoderState Decoder DecoderFacts.
Variable self : decoder.

Lemma every_other_lookup {A} (h : list A) (l : nat) :
  every_other true h !! l = h !! (2 * l)%nat ∧
  every_other false h !! l = h !! (2 * l + 1)%nat.
Proof.
  revert l. induction h as [|x h IH]; intros l; [done|]. simpl. split.
  - destruct l as [|l]; [done|]. simpl.
    replace (l + S (l + 0))%nat with (S (2 * l)) by lia. simpl.
    rewrite (proj2 (IH l)). f_equal. lia.
  - replace (l + (l + 0) + 1)%nat with (S (2 * l)) by lia. simpl.
    apply (proj1 (IH l)).
Qed.

Lemma every_other_lengths {A} (h : list A) :
  (length (every_other true h) + length (every_other false h) = length h)%nat ∧
  (length (every_other false h) ≤ length (every_other true h)
     ≤ length (every_other false h) + 1)%nat.
Proof. induction h as [|x h IH]; simpl; lia. Qed.

Lemma std_coverage_lookup k a (m : gmap string (list (list (list R)))) :
  k ≠ "std"%string → k ≠ "coverage"%string →
  append_attn k a m !! "std"%string = m !! "std"%string ∧
  append_attn k a m !! "coverage"%string = m !! "coverage"%string.
Proof.
  intros H1 H2. rewrite !lookup_append_attn. by rewrite !decide_False by done.
Qed.

(** one step keeps the running sums *)
Lemma feed_step_coverage_sums context_T context_lengths c0 p output emb_t b s p' output' :
  module_contracts self → _coverage self = true →
  has_shape b s context_T → length emb_t = b → feed_ok b s p output →
  coverage_sums c0 p →
  feed_step self context_T context_lengths (p, output) emb_t = Some (p', output') →
  coverage_sums c0 p'.
Proof.
  intros Hmod Hcov Hctx Hemb Hfeed (stds & covs & Hstd & Hcv & Hlen & H0 & Hstep & Hlast).
  destruct (feed_step_eq self context_T context_lengths p output emb_t b s)
    as (a & c' & o & _ & _ & Hc' & _ & ->); try done.
  destruct (Hc' Hcov) as [_ Hc'eq]. clear Hc'. rewrite Hcov. intros [= <- <-].
  exists (stds ++ [a]), (covs ++ [c']). cbn [p_attns p_coverage].
  assert (append_attn "coverage" c' (append_attn "std" a (p_attns p)) !! "std"%string
            = Some (stds ++ [a]) ∧
          append_attn "coverage" c' (append_attn "std" a (p_attns p)) !! "coverage"%string
            = Some (covs ++ [c'])) as [Hs' Hcv'].
  { rewrite !lookup_append_attn. rewrite decide_False by done.
    rewrite !decide_True by done. rewrite decide_False by done.
    rewrite Hstd, Hcv. done. }
  split; [|split].
  { destruct (_copy self); [|done].
    by rewrite (proj1 (std_coverage_lookup "copy" _ _ ltac:(done) ltac:(done))). }
  { destruct (_copy self); [|done].
    by rewrite (proj2 (std_coverage_lookup "copy" _ _ ltac:(done) ltac:(done))). }
  split; [rewrite !length_app; simpl; lia|]. split; [|split].
  - intros a0 Ha0. destruct stds as [|s0 stds]; destruct covs as [|v0 covs];
      simpl in *; try lia.
    + injection Ha0 as <-. rewrite Hc'eq, Hlast. done.
    + injection Ha0 as <-. apply (H0 s0 eq_refl).
  - intros t c a1 Hc Ha1.
    destruct (decide (S t < length covs)%nat) as [Hlt|Hge].
    + rewrite lookup_app_l in Hc by lia. rewrite lookup_app_l in Ha1 by lia.
      rewrite lookup_app_l by lia. by apply (Hstep t c a1).
    + assert (S t = length covs) as Heq.
      { apply lookup_lt_Some in Ha1. rewrite length_app in Ha1. simpl in Ha1. lia. }
      rewrite lookup_app_l in Hc by lia.
      rewrite lookup_app_r in Ha1 by lia. rewrite lookup_app_r by lia.
      replace (S t - length stds)%nat with 0%nat in Ha1 by lia.
      replace (S t - length covs)%nat with 0%nat by lia.
      simpl in *. injection Ha1 as <-. f_equal. rewrite Hc'eq, Hlast.
      assert (last covs = Some c) as ->; [|done].
      rewrite last_lookup, <- Hc. f_equal. lia.
  - by rewrite last_snoc.
Qed.

Lemma feed_loop_coverage_sums context_T context_lengths c0 emb n p output b s p' output' :
  module_contracts self → _coverage self = true →
  has_shape b s context_T → Forall (λ emb_t, length emb_t = b) emb →
  pass_ok self n b s p → feed_ok b s p output → coverage_sums c0 p →
  feed_loop self context_T context_lengths (p, output) emb = Some (p', output') →
  coverage_sums c0 p'.
Proof.
  intros Hmod Hcov Hctx Hemb. revert n p output.
  induction Hemb as [|emb_t emb Ht _ IH]; intros n p output Hp Hf Hsum.
  - by intros [= <- <-].
  - rewrite feed_loop_cons.
    destruct (feed_step_ok self context_T context_lengths n p output emb_t b s)
      as (p1 & o1 & Hstep & Hp1 & Hf1); try done.
    rewrite Hstep. cbn [mbind option_bind].
    apply (IH (S n) p1 o1 Hp1 Hf1).
    by apply (feed_step_coverage_sums context_T context_lengths c0 p output emb_t b s p1 o1).
Qed.

Lemma example_coverage_decoder_contracts : module_contracts example_coverage_decoder.
Proof.
  split; simpl.
  - intros x s b Hx. by apply zeros_shape.
  - intros x _. split; [by rewrite length_fmap|].
    apply Forall_fmap, Forall_forall. by intros v _.
  - done.
  - intros q c _ b s Hq Hc. split; [|by apply zeros_shape].
    split; [by rewrite length_fmap|]. apply Forall_fmap, Forall_forall. by intros v _.
  - intros q c _ b s Hq Hc. by apply zeros_shape.
  - intros q c _ n b s Hb Hq Hc.
    destruct (transpose_Some b n q Hq Hb) as (y & -> & Hy & _). simpl.
    pose proof Hy as [Hyl Hyr]. split; split.
    + by apply zeros_shape.
    + apply Forall_fmap, Forall_forall. intros row _. simpl.
      apply Forall_fmap, Forall_forall. by intros v _.
    + split; [by rewrite length_fmap|]. apply Forall_fmap, Forall_forall.
      intros row _. simpl. rewrite length_fmap. by destruct Hc.
    + apply Forall_fmap, Forall_forall. intros row _. simpl.
      destruct Hc as [_ Hcr]. apply Forall_fmap. eapply Forall_impl; [exact Hcr|].
      intros v Hv. simpl. by rewrite length_fmap.
  - done.
  - done.
Qed.
End decoder_more.
(** X18. For a bidirectional encoder [_fix_enc_hidden] turns a state of
    [2 n] layer-directions into [n] layers: layer [l] of the result joins,
    batch element by batch element, the forward state [h[2 l]] and the
    backward state [h[2 l + 1]]. *)
Theorem fix_enc_hidden_joins_directions (self : Decoder.decoder)
    (h : list (list (list R))) (n : nat) :
  Decoder.bidirectional_encoder self = true → length h = (2 * n)%nat →
  ∃ out, Decoder._fix_enc_hidden self h = Some out ∧ length out = n ∧
    ∀ (l : nat) fw bw, h !! (2 * l)%nat = Some fw → h !! (2 * l + 1)%nat = Some bw →
      out !! l = Some (zip_with app fw bw).
Proof.
  intros Hbi Hlen. unfold Decoder._fix_enc_hidden. rewrite Hbi.
  destruct (every_other_length n h Hlen) as [He Ho].
  rewrite bool_decide_eq_true_2 by lia.
  eexists. split; [done|]. split.
  - rewrite length_zip_with. lia.
  - intros l fw bw Hfw Hbw. rewrite lookup_zip_with.
    rewrite (proj1 (every_other_lookup h l)), (proj2 (every_other_lookup h l)).
    by rewrite Hfw, Hbw.
Qed.

Lemma fix_enc_hidden_joins_directions_example :
  ∃ out, Decoder._fix_enc_hidden
           (Decoder.mkDecoder Decoder.StdRNNDecoder true 1 false false
              (λ _, []) (λ x h, (x, h)) (λ x h, (x, h)) (λ q _ _, (q, q))
              (λ q _ _, (q, q)) (λ q _ _, (q, q)) None (λ x, x))
           [[[1%R]]; [[2%R]]; [[3%R]]; [[4%R]]] = Some out ∧
    length out = 2%nat ∧
    ∀ (l : nat) fw bw,
      [[[1%R]]; [[2%R]]; [[3%R]]; [[4%R]]] !! (2 * l)%nat = Some fw →
      [[[1%R]]; [[2%R]]; [[3%R]]; [[4%R]]] !! (2 * l + 1)%nat = Some bw →
      out !! l = Some (zip_with app fw bw).
Proof.
  apply (fix_enc_hidden_joins_directions
           (Decoder.mkDecoder Decoder.StdRNNDecoder true 1 false false
              (λ _, []) (λ x h, (x, h)) (λ x h, (x, h)) (λ q _ _, (q, q))
              (λ q _ _, (q, q)) (λ q _ _, (q, q)) None (λ x, x))
           [[[1%R]]; [[2%R]]; [[3%R]]; [[4%R]]] 2).
  - reflexivity.
  - reflexivity.
Defined.

(** X19. With a bidirectional encoder a final state with an odd number of
    layer-directions cannot be split into forward and backward halves of
    one size: [_fix_enc_hidden] raises, and so does [init_decoder_state]
    on a state that holds such a tensor. *)
Theorem fix_enc_hidden_raises_on_odd_layers (self : Decoder.decoder)
    (context : list (list (list R))) (h : list (list (list R))) (n : nat) :
  Decoder.bidirectional_encoder self = true → length h = (2 * n + 1)%nat →
  Decoder._fix_enc_hidden self h = None ∧
  Decoder.init_decoder_state self context (Decoder.StateTensor h) = None ∧
  ∀ hs, h ∈ hs → Decoder.init_decoder_state self context (Decoder.StateTuple hs) = None.
Proof.
  intros Hbi Hlen.
  assert (Decoder._fix_enc_hidden self h = None) as Hfix.
  { unfold Decoder._fix_enc_hidden. rewrite Hbi.
    pose proof (every_other_lengths h). rewrite bool_decide_eq_false_2; [done|]. lia. }
  split; [done|]. split.
  - simpl. by rewrite Hfix.
  - intros hs Hin. simpl.
    assert (mapM (Decoder._fix_enc_hidden self) hs = None) as ->; [|done].
    apply mapM_None, Exists_exists. eauto.
Qed.

Lemma fix_enc_hidden_raises_on_odd_layers_example :
  Decoder._fix_enc_hidden
    (Decoder.mkDecoder Decoder.StdRNNDecoder true 1 false false
       (λ _, []) (λ x h, (x, h)) (λ x h, (x, h)) (λ q _ _, (q, q))
       (λ q _ _, (q, q)) (λ q _ _, (q, q)) None (λ x, x))
    [[[1%R]]; [[2%R]]; [[3%R]]] = None ∧
  Decoder.init_decoder_state
    (Decoder.mkDecoder Decoder.StdRNNDecoder true 1 false false
       (λ _, []) (λ x h, (x, h)) (λ x h, (x, h)) (λ q _ _, (q, q))
       (λ q _ _, (q, q)) (λ q _ _, (q, q)) None (λ x, x))
    [[[0%R]]] (Decoder.StateTensor [[[1%R]]; [[2%R]]; [[3%R]]]) = None ∧
  ∀ hs, [[[1%R]]; [[2%R]]; [[3%R]]] ∈ hs →
    Decoder.init_decoder_state
      (Decoder.mkDecoder Decoder.StdRNNDecoder true 1 false false
         (λ _, []) (λ x h, (x, h)) (λ x h, (x, h)) (λ q _ _, (q, q))
         (λ q _ _, (q, q)) (λ q _ _, (q, q)) None (λ x, x))
      [[[0%R]]] (Decoder.StateTuple hs) = None.
Proof.
  apply (fix_enc_hidden_raises_on_odd_layers
           (Decoder.mkDecoder Decoder.StdRNNDecoder true 1 false false
              (λ _, []) (λ x h, (x, h)) (λ x h, (x, h)) (λ q _ _, (q, q))
              (λ q _ _, (q, q)) (λ q _ _, (q, q)) None (λ x, x))
           [[[0%R]]] [[[1%R]]; [[2%R]]; [[3%R]]] 1).
  - reflexivity.
  - reflexivity.
Defined.

(** X20. In the input feeding decoder with coverage attention, whose
    sub-modules return tensors of the shapes of the real modules, the
    coverage is the running sum of the standard attention: the pass
    succeeds with one output and one score matrix [batch x src_len] of
    every recorded kind per step, the coverage recorded at step 0 is the
    incoming coverage plus the attention of step 0 (or that attention
    alone when the state has no coverage yet), the one recorded at a
    later step is the previous one plus the attention of that step, and
    the coverage returned is the last one recorded. *)
Theorem input_feed_coverage_is_running_sum (self : Decoder.decoder) n b s
    (input : list (list (list Z))) context
    (st : DecoderState.RNNDecoderState (list R)) lengths
    (c0 : option (list (list R))) :
  Decoder._coverage self = true →
  (0 < n)%nat → (0 < s)%nat → (0 < b)%nat →
  Tensor.has_shape n b input → Tensor.has_shape s b context →
  Decoder.state_ok b s st → DecoderState.coverage st = (λ c, [c]) <$> c0 →
  Decoder.module_contracts self →
  ∃ p, Decoder.input_feed_run_forward_pass self input context st lengths = Some p ∧
    Decoder.pass_ok self n b s p ∧ DecoderFacts.coverage_sums c0 p.
Proof.
  intros Hcov Hn Hs Hb Hin Hctx Hst Hc0 Hmod.
  destruct (input_feed_pass_Some self n b s input context st lengths) as (p & Hp & Hok);
    try done.
  exists p. split; [done|]. split; [done|].
  destruct Hst as [(o & Hfeed & Hol) Hcs].
  unfold Decoder.input_feed_run_forward_pass in Hp.
  rewrite Hfeed in Hp. simpl in Hp. case_bool_decide; [|done].
  rewrite Hc0, Hcov in Hp.
  assert (match (λ c : list (list R), [c]) <$> c0 with
          | Some c => Some <$> Decoder.squeeze0 c
          | None => Some None
          end = Some c0) as Hsq by (by destruct c0).
  rewrite Hsq in Hp. simpl in Hp.
  destruct (transpose_Some s b context Hctx Hs) as (cT & HcT & HcTs & _).
  rewrite HcT in Hp. simpl in Hp.
  destruct (Decoder.feed_loop self cT lengths _ _) as [[p' o']|] eqn:Hloop; [|done].
  injection Hp as <-.
  pose proof (Decoder.embeddings_shape self Hmod input n b Hin) as [_ Her].
  refine (feed_loop_coverage_sums self cT lengths c0 _ 0 _ o b s p' o'
            Hmod Hcov HcTs Her _ _ _ Hloop).
  - split; [done|]. split; [done|]. cbn [Decoder.p_attns].
    pose proof (initial_attns_steps self) as Hi.
    pose proof (initial_attns_shapes self (Tensor.has_shape b s)) as Hsh.
    rewrite Hcov in Hi, Hsh. done.
  - split; [done|]. cbn [Decoder.p_coverage].
    destruct c0 as [c|]; [|by left]. right. exists c. split; [done|].
    rewrite Hc0 in Hcs. destruct Hcs as [?|(c' & [= <-] & ?)]; done.
  - exists [], []. cbn [Decoder.p_attns Decoder.p_coverage].
    split. { destruct (Decoder._copy self); by rewrite lookup_insert_ne. }
    split. { by rewrite lookup_insert_eq. }
    done.
Qed.

Lemma input_feed_coverage_example :
  ∃ p, Decoder.input_feed_run_forward_pass DecoderFacts.example_coverage_decoder
         [[[7]]; [[8]]; [[9]]] [[[0%R]]; [[0%R]]]
         (DecoderState.mkState [[[[0%R]]]] [[[0%R]]] None) [2] = Some p ∧
    Decoder.pass_ok DecoderFacts.example_coverage_decoder 3 1 2 p ∧
    DecoderFacts.coverage_sums None p.
Proof.
  apply (input_feed_coverage_is_running_sum DecoderFacts.example_coverage_decoder
           3 1 2 [[[7]]; [[8]]; [[9]]] [[[0%R]]; [[0%R]]]
           (DecoderState.mkState [[[[0%R]]]] [[[0%R]]] None) [2] None).
  - reflexivity.
  - lia.
  - lia.
  - lia.
  - split; [reflexivity|]. repeat constructor.
  - split; [reflexivity|]. repeat constructor.
  - split; [by exists [[0%R]]|by left].
  - reflexivity.
  - apply example_coverage_decoder_contracts.
Defined.

(** X21. Neither model reads the last target step: two targets that
    differ only there give the same result, whatever the encoder, the
    decoder and the other arguments are. *)
Theorem forward_ignores_last_target_step (self : Decoder.decoder) {Src : Type}
    (encoder : Src → list Z → option (Decoder.enc_state * list (list (list R))))
    (sel_encoder : Src * Src → list Z * list Z →
                   option (Decoder.enc_state * list (list (list R))))
    (multigpu : bool) (src ans : Src) (tgt : list (list (list Z)))
    (last1 last2 : list (list Z)) (lengths ans_lengths : list Z)
    (dec_state : option (DecoderState.RNNDecoderState (list R))) :
  Decoder.NMTModel_forward self encoder multigpu src (tgt ++ [last1]) lengths dec_state =
  Decoder.NMTModel_forward self encoder multigpu src (tgt ++ [last2]) lengths dec_state ∧
  Decoder.SelEncNMTModel_forward self sel_encoder multigpu src ans (tgt ++ [last1])
    lengths ans_lengths dec_state =
  Decoder.SelEncNMTModel_forward self sel_encoder multigpu src ans (tgt ++ [last2])
    lengths ans_lengths dec_state.
Proof.
  assert (∀ x : list (list Z), Decoder.drop_last (tgt ++ [x]) = tgt) as Hdrop.
  { intros x. unfold Decoder.drop_last. rewrite length_app, Nat.add_sub.
    apply take_app_length. }
  unfold Decoder.NMTModel_forward, Decoder.SelEncNMTModel_forward.
  by rewrite !Hdrop.
Qed.
Section json_lemmas.
Import JsonFilePreprocess.

Lemma getitem_nonneg {A} (l : list A) (i : Z) :
  0 ≤ i < Z.of_nat (length l) → getitem l i = l !! Z.to_nat i.
Proof. intros Hi. unfold getitem. by rewrite py_index_nonneg. Qed.

Lemma slice_within {A} (l : list A) (a b : Z) :
  0 ≤ a ≤ Z.of_nat (length l) → 0 ≤ b ≤ Z.of_nat (length l) →
  slice l a b = take (Z.to_nat b - Z.to_nat a) (drop (Z.to_nat a) l).
Proof.
  intros Ha Hb. unfold slice, slice_bound.
  rewrite !bool_decide_eq_false_2 by lia. by rewrite !Z.min_l by lia.
Qed.

Lemma slice_prefix {A} (l : list A) (n : Z) : 0 ≤ n → slice l 0 n = take (Z.to_nat n) l.
Proof.
  intros Hn. unfold slice, slice_bound. rewrite !bool_decide_eq_false_2 by lia.
  rewrite (Z.min_l 0) by lia. change (Z.to_nat 0) with 0%nat. rewrite Nat.sub_0_r, drop_0.
  destruct (decide (n ≤ Z.of_nat (length l))) as [Hle|Hgt].
  - by rewrite Z.min_l by lia.
  - rewrite Z.min_r by lia. rewrite Nat2Z.id.
    rewrite (take_ge l (length l)) by lia. rewrite (take_ge l (Z.to_nat n)) by lia. done.
Qed.

Lemma sum_lengths (context : list (list string)) :
  sum ((λ sent_i : list string, Z.of_nat (length sent_i)) <$> context) =
  Z.of_nat (length (concat context)).
Proof.
  unfold sum. induction context as [|sent context IH]; [done|].
  rewrite fmap_cons. cbn [foldr concat]. rewrite IH, length_app. lia.
Qed.

Lemma sum_lens_offset (context : list (list string)) (s : Z) :
  0 ≤ s →
  sum (slice ((λ sent_i : list string, Z.of_nat (length sent_i)) <$> context) 0 s) =
  offset context s.
Proof.
  intros Hs. rewrite slice_prefix by done. rewrite <- fmap_take. apply sum_lengths.
Qed.

Lemma concat_take_S {A} (context : list (list A)) (s : nat) sent :
  context !! s = Some sent →
  concat (take (S s) context) = concat (take s context) ++ sent.
Proof.
  intros Hs. rewrite (take_S_r _ _ _ Hs), concat_app. simpl. by rewrite app_nil_r.
Qed.

Lemma concat_split {A} (context : list (list A)) (s : nat) sent :
  context !! s = Some sent →
  concat context = concat (take s context) ++ sent ++ concat (drop (S s) context).
Proof.
  intros Hs. rewrite <- (take_drop_middle _ _ _ Hs) at 1.
  by rewrite concat_app.
Qed.

(** word [w] of sentence [s] is word [offset s + w] of the flat paragraph *)
Lemma concat_lookup {A} (context : list (list A)) (s w : nat) sent :
  context !! s = Some sent → (w < length sent)%nat →
  concat context !! (length (concat (take s context)) + w)%nat = sent !! w.
Proof.
  intros Hs Hw. rewrite (concat_split context s sent Hs).
  rewrite lookup_app_r by lia. rewrite lookup_app_l by lia. f_equal. lia.
Qed.

Lemma offset_le (context : list (list string)) (s s' : Z) :
  0 ≤ s ≤ s' → offset context s ≤ offset context s'.
Proof.
  intros Hs. unfold offset.
  assert (take (Z.to_nat s') context =
          take (Z.to_nat s) context ++ drop (Z.to_nat s) (take (Z.to_nat s') context)) as ->.
  { rewrite <- (take_drop (Z.to_nat s) (take (Z.to_nat s') context)) at 1.
    by rewrite take_take, Nat.min_l by lia. }
  rewrite concat_app, length_app. lia.
Qed.

Lemma offset_succ (context : list (list string)) (s : Z) sent :
  0 ≤ s → context !! Z.to_nat s = Some sent →
  offset context (s + 1) = offset context s + Z.of_nat (length sent).
Proof.
  intros Hs Hsent. unfold offset.
  replace (Z.to_nat (s + 1)) with (S (Z.to_nat s)) by lia.
  rewrite (concat_take_S _ _ _ Hsent), length_app. lia.
Qed.

Lemma offset_length (context : list (list string)) (s : Z) :
  offset context s ≤ Z.of_nat (length (concat context)).
Proof.
  unfold offset. rewrite <- (take_drop (Z.to_nat s) context) at 2.
  rewrite concat_app, length_app. lia.
Qed.
End json_lemmas.
Section json_generate.
Import JsonFilePreprocess.
Variable squash : string → string.

Lemma generate_in_paragraph (train rich_feature : bool) stop_words
    (context context_ner context_pos : list (list string)) (sp : span) q :
  in_paragraph context sp →
  length (concat context) = length (concat context_ner) →
  length (concat context) = length (concat context_pos) →
  ∃ para,
    length para = length (concat context) ∧
    (∀ (i : nat) w, para !! i = Some w →
       ∃ w_i ner_i pos_i, concat context !! i = Some w_i ∧
         w = feature_rich_word squash rich_feature
               (offset context (start_sent sp) + start_word sp,
                offset context (end_sent sp) + end_word sp) i w_i ner_i pos_i) ∧
    generate squash train rich_feature stop_words context context_ner context_pos sp q =
      inr (if train && negb (check_src_tgt
                               (slice (concat context) (offset context (start_sent sp))
                                      (offset context (end_sent sp + 1))) q stop_words)
           then Filtered
           else Written para
                  (offset context (start_sent sp) + start_word sp,
                   offset context (end_sent sp) + end_word sp)
                  (slice para (offset context (start_sent sp))
                         (offset context (end_sent sp + 1)))
                  (start_word sp,
                   offset context (end_sent sp) + end_word sp
                     - offset context (start_sent sp)) q).
Proof.
  intros (sent0 & sent1 & Hs0 & Hsent0 & Hw0 & Hs1 & Hsent1 & Hw1) Hner Hpos.
  set (a := offset context (start_sent sp) + start_word sp).
  set (b := offset context (end_sent sp) + end_word sp).
  pose proof (lookup_lt_Some _ _ _ Hsent0) as Hl0.
  pose proof (lookup_lt_Some _ _ _ Hsent1) as Hl1.
  pose proof (offset_succ context _ _ Hs0 Hsent0) as Hsucc0.
  pose proof (offset_succ context _ _ Hs1 Hsent1) as Hsucc1.
  pose proof (offset_length context (start_sent sp + 1)) as Hlen0.
  pose proof (offset_length context (end_sent sp + 1)) as Hlen1.
  (* the paragraph words *)
  destruct (mapM_spec
              (λ i : nat, w_i ← concat context !! i;
                    ner_i ← concat context_ner !! i;
                    pos_i ← concat context_pos !! i;
                    Some (feature_rich_word squash rich_feature (a, b) i w_i ner_i pos_i))
              (λ i w, ∃ w_i ner_i pos_i, concat context !! i = Some w_i ∧
                 w = feature_rich_word squash rich_feature (a, b) i w_i ner_i pos_i)
              (seq 0 (length (concat context)))) as (para & Hpara & Hpl & Hpw).
  { intros i k Hk. apply lookup_seq in Hk as [-> Hi]. simpl in *.
    destruct (lookup_lt_is_Some_2 (concat context) i) as [w_i Hwi]; [lia|].
    destruct (lookup_lt_is_Some_2 (concat context_ner) i) as [ner_i Hni]; [lia|].
    destruct (lookup_lt_is_Some_2 (concat context_pos) i) as [pos_i Hpi]; [lia|].
    rewrite Hwi, Hni, Hpi. simpl. eauto 10. }
  rewrite length_seq in Hpl.
  exists para. split; [done|]. split; [done|].
  unfold generate, ans_sents. rewrite !sum_lens_offset by lia.
  destruct (train && negb _); [done|].
  fold a b. cbn [fst snd].
  (* the first assertion *)
  rewrite (getitem_nonneg context) by lia. rewrite Hsent0. cbn [mbind option_bind].
  rewrite (getitem_nonneg sent0) by lia.
  destruct (lookup_lt_is_Some_2 sent0 (Z.to_nat (start_word sp))) as [w Hw]; [lia|].
  rewrite Hw.
  assert (getitem (concat context) a = Some w) as ->.
  { rewrite getitem_nonneg by (unfold a; unfold offset in *; lia).
    rewrite <- Hw, <- (concat_lookup context _ _ sent0 Hsent0) by lia.
    f_equal. unfold a, offset. lia. }
  rewrite bool_decide_eq_true_2 by done.
  (* the second assertion *)
  rewrite (getitem_nonneg context) by lia. rewrite Hsent1. cbn [mbind option_bind].
  rewrite (getitem_nonneg sent1) by lia.
  destruct (lookup_lt_is_Some_2 sent1 (Z.to_nat (end_word sp - 1))) as [v Hv]; [lia|].
  rewrite Hv.
  assert (getitem (concat context) (b - 1) = Some v) as ->.
  { rewrite getitem_nonneg by (unfold b; unfold offset in *; lia).
    rewrite <- Hv, <- (concat_lookup context _ _ sent1 Hsent1) by lia.
    f_equal. unfold b, offset. lia. }
  rewrite bool_decide_eq_true_2 by done.
  rewrite Hpara. do 2 f_equal. f_equal; lia.
Qed.
End json_generate.
Section tags.
Import ProcessUtils JsonFilePreprocess.

Lemma last_char_app (x y : string) c :
  last_char y = Some c → last_char (x +:+ y) = Some c.
Proof.
  intros Hy. induction x as [|a x IH]; [done|].
  change (String a x +:+ y) with (String a (x +:+ y)).
  destruct (x +:+ y) as [|a' s] eqn:Hs; [done|]. exact IH.
Qed.

(** the last character of a feature-rich word is its answer tag *)
Lemma last_char_feature_rich_word squash (flat_ans_span : Z * Z) (i : nat) w ner_i pos_i :
  last_char (feature_rich_word squash true flat_ans_span i w ner_i pos_i) =
  Some (if bool_decide (flat_ans_span.1 ≤ Z.of_nat i < flat_ans_span.2)
        then "I"%char else "O"%char).
Proof.
  unfold feature_rich_word. do 6 apply last_char_app. by case_bool_decide.
Qed.

(** on words tagged [I] exactly at the positions [A, B), the loop of
    [extract_ans] returns the words at these positions *)
Lemma ans_words_interval (l : list string) (A B : nat) :
  (∀ (j : nat) x, l !! j = Some x →
     ∃ c, last_char x = Some c ∧ (c = "I"%char ↔ (A ≤ j < B)%nat)) →
  ans_words l = Some (take (B - A) (drop A l)).
Proof.
  revert A B. induction l as [|x l IH]; intros A B Hl.
  { by rewrite drop_nil, take_nil. }
  destruct (Hl 0%nat x eq_refl) as (c & Hc & Hiff).
  assert (ans_words l = Some (take (pred B - pred A) (drop (pred A) l))) as Hrest.
  { apply IH. intros j y Hy. destruct (Hl (S j) y Hy) as (c' & Hc' & Hiff').
    exists c'. split; [done|]. rewrite Hiff'. lia. }
  cbn [ans_words]. rewrite Hc, Hrest. cbn [mbind option_bind]. f_equal.
  case_bool_decide as HI.
  - apply Hiff in HI. destruct A as [|A]; [|lia]. destruct B as [|B]; [lia|].
    simpl. by rewrite Nat.sub_0_r.
  - destruct A as [|A].
    + destruct B as [|B]; [done|]. destruct HI. apply Hiff. lia.
    + simpl. destruct B as [|B]; [done|]. done.
Qed.

Lemma check_loop_true (overlap stopwords : list string) :
  check_loop overlap stopwords = true ↔ ∃ word, word ∈ overlap ∧ word ∉ stopwords.
Proof.
  induction overlap as [|w overlap IH]; simpl.
  - split; [done|]. intros (word & Hin & _). by apply elem_of_nil in Hin.
  - case_bool_decide as Hw.
    + split; [|done]. intros _. exists w. split; [by left|done].
    + rewrite IH. split.
      * intros (word & Hin & Hns). exists word. split; [by right|done].
      * intros (word & Hin & Hns). apply elem_of_cons in Hin as [->|Hin]; [done|].
        by exists word.
Qed.
End tags.

(** X22. For an answer span that lies in the paragraph and tag lists as
    long as the paragraph, one iteration of the generator never raises:
    both consistency assertions hold.  It writes the paragraph span
    (words before the start sentence plus the start word, words before
    the end sentence plus the end word) and, relative to the first answer
    sentence, the start word itself; only a training question without
    word overlap is filtered out. *)
Theorem generate_accepts_span_in_paragraph (squash : string → string)
    (train rich_feature : bool) (stop_words : list string)
    (context context_ner context_pos : list (list string))
    (sp : JsonFilePreprocess.span) (q : list string) :
  JsonFilePreprocess.in_paragraph context sp →
  length (concat context) = length (concat context_ner) →
  length (concat context) = length (concat context_pos) →
  ∃ para,
    length para = length (concat context) ∧
    JsonFilePreprocess.generate squash train rich_feature stop_words
      context context_ner context_pos sp q =
      inr (if train && negb (JsonFilePreprocess.check_src_tgt
                               (JsonFilePreprocess.slice (concat context)
                                  (JsonFilePreprocess.offset context
                                     (JsonFilePreprocess.start_sent sp))
                                  (JsonFilePreprocess.offset context
                                     (JsonFilePreprocess.end_sent sp + 1)))
                               q stop_words)
           then JsonFilePreprocess.Filtered
           else JsonFilePreprocess.Written para
                  (JsonFilePreprocess.offset context (JsonFilePreprocess.start_sent sp)
                     + JsonFilePreprocess.start_word sp,
                   JsonFilePreprocess.offset context (JsonFilePreprocess.end_sent sp)
                     + JsonFilePreprocess.end_word sp)
                  (JsonFilePreprocess.slice para
                     (JsonFilePreprocess.offset context (JsonFilePreprocess.start_sent sp))
                     (JsonFilePreprocess.offset context
                        (JsonFilePreprocess.end_sent sp + 1)))
                  (JsonFilePreprocess.start_word sp,
                   JsonFilePreprocess.offset context (JsonFilePreprocess.end_sent sp)
                     + JsonFilePreprocess.end_word sp
                     - JsonFilePreprocess.offset context
                         (JsonFilePreprocess.start_sent sp)) q).
Proof.
  intros Hin Hner Hpos.
  destruct (generate_in_paragraph squash train rich_feature stop_words
              context context_ner context_pos sp q Hin Hner Hpos) as (para & Hl & _ & Hg).
  by exists para.
Qed.

Lemma generate_accepts_span_example :
  ∃ para,
    length para = 5%nat ∧
    JsonFilePreprocess.generate (λ w, w) false true []
      JsonFilePreprocess.example_context JsonFilePreprocess.example_tags
      JsonFilePreprocess.example_tags (JsonFilePreprocess.mkSpan 1 0 1 2) ["q"%string] =
      inr (JsonFilePreprocess.Written para (2 + 0, 2 + 2)
             (JsonFilePreprocess.slice para 2 5) (0, 2 + 2 - 2) ["q"%string]).
Proof.
  apply (generate_accepts_span_in_paragraph (λ w, w) false true []
           JsonFilePreprocess.example_context JsonFilePreprocess.example_tags
           JsonFilePreprocess.example_tags (JsonFilePreprocess.mkSpan 1 0 1 2)
           ["q"%string]).
  - exists ["c"; "d"; "e"]%string, ["c"; "d"; "e"]%string. simpl.
    repeat split; (reflexivity || lia).
  - reflexivity.
  - reflexivity.
Defined.
(** X23. The answer tags and the written positions agree, in the
    paragraph file and in the sentence file: on the feature-rich words
    that the generator writes for a span in the paragraph, [extract_ans]
    returns exactly the words between the two positions written next to
    them. *)
Theorem extract_ans_returns_written_span (squash : string → string)
    (stop_words : list string) (context context_ner context_pos : list (list string))
    (sp : JsonFilePreprocess.span) (q : list string) :
  JsonFilePreprocess.in_paragraph context sp →
  length (concat context) = length (concat context_ner) →
  length (concat context) = length (concat context_pos) →
  ∃ para para_posi sents sents_posi,
    JsonFilePreprocess.generate squash false true stop_words
      context context_ner context_pos sp q =
      inr (JsonFilePreprocess.Written para para_posi sents sents_posi q) ∧
    ProcessUtils.extract_ans para =
      Some (ProcessUtils.join " " (JsonFilePreprocess.slice para para_posi.1 para_posi.2)
            +:+ ProcessUtils.newline) ∧
    ProcessUtils.extract_ans sents =
      Some (ProcessUtils.join " " (JsonFilePreprocess.slice sents sents_posi.1 sents_posi.2)
            +:+ ProcessUtils.newline).
Proof.
  intros Hin Hner Hpos.
  destruct (generate_in_paragraph squash false true stop_words
              context context_ner context_pos sp q Hin Hner Hpos) as (para & Hl & Hw & Hg).
  destruct Hin as (sent0 & sent1 & Hs0 & Hsent0 & Hw0 & Hs1 & Hsent1 & Hw1).
  set (st := JsonFilePreprocess.offset context (JsonFilePreprocess.start_sent sp)) in *.
  set (en := JsonFilePreprocess.offset context (JsonFilePreprocess.end_sent sp + 1)) in *.
  set (a := st + JsonFilePreprocess.start_word sp) in *.
  set (b := JsonFilePreprocess.offset context (JsonFilePreprocess.end_sent sp)
            + JsonFilePreprocess.end_word sp) in *.
  pose proof (offset_succ context _ _ Hs0 Hsent0) as Hsucc0.
  pose proof (offset_succ context _ _ Hs1 Hsent1) as Hsucc1.
  pose proof (offset_length context (JsonFilePreprocess.start_sent sp + 1)) as Hlen0.
  pose proof (offset_length context (JsonFilePreprocess.end_sent sp + 1)) as Hlen1.
  assert (0 ≤ st) as Hst by (unfold st, JsonFilePreprocess.offset; lia).
  assert (0 ≤ JsonFilePreprocess.offset context (JsonFilePreprocess.end_sent sp)) as Hoe
    by (unfold JsonFilePreprocess.offset; lia).
  fold st en in Hsucc0, Hsucc1, Hlen1.
  assert (∀ (j : nat) x, para !! j = Some x →
    ProcessUtils.last_char x =
      Some (if bool_decide (a ≤ Z.of_nat j < b) then "I"%char else "O"%char)) as Htag.
  { intros j x Hx. destruct (Hw j x Hx) as (w_i & ner_i & pos_i & _ & ->).
    apply last_char_feature_rich_word. }
  exists para, (a, b), (JsonFilePreprocess.slice para st en),
    (JsonFilePreprocess.start_word sp, b - st).
  split; [exact Hg|]. cbn [fst snd]. split.
  - unfold ProcessUtils.extract_ans.
    rewrite (ans_words_interval para (Z.to_nat a) (Z.to_nat b)).
    + cbn [mbind option_bind]. by rewrite slice_within by lia.
    + intros j x Hx. eexists. split; [by apply Htag|].
      case_bool_decide; split; intros; (lia || done).
  - rewrite (slice_within para st en) by lia.
    set (sents := take (Z.to_nat en - Z.to_nat st) (drop (Z.to_nat st) para)).
    assert (length sents = (Z.to_nat en - Z.to_nat st)%nat) as Hsl.
    { unfold sents. rewrite length_take, length_drop. lia. }
    unfold ProcessUtils.extract_ans.
    rewrite (ans_words_interval sents (Z.to_nat (JsonFilePreprocess.start_word sp))
               (Z.to_nat (b - st))).
    + cbn [mbind option_bind]. do 2 f_equal.
      destruct (decide (JsonFilePreprocess.start_sent sp ≤ JsonFilePreprocess.end_sent sp))
        as [Hle|Hgt].
      * pose proof (offset_le context (JsonFilePreprocess.start_sent sp + 1)
                      (JsonFilePreprocess.end_sent sp + 1)) as Hm1.
        pose proof (offset_le context (JsonFilePreprocess.start_sent sp)
                      (JsonFilePreprocess.end_sent sp)) as Hm2.
        fold st en in Hm1, Hm2.
        by rewrite slice_within by lia.
      * pose proof (offset_le context (JsonFilePreprocess.end_sent sp + 1)
                      (JsonFilePreprocess.start_sent sp)) as Hm.
        fold st en in Hm.
        assert (sents = []) as -> by (apply length_zero_iff_nil; lia).
        unfold JsonFilePreprocess.slice. by rewrite !drop_nil, !take_nil.
    + intros j x Hx. pose proof (lookup_lt_Some _ _ _ Hx) as Hj.
      unfold sents in Hx. rewrite lookup_take_lt, lookup_drop in Hx by lia.
      eexists. split; [by apply (Htag _ _ Hx)|].
      case_bool_decide; split; intros; (lia || done).
Qed.

Lemma extract_ans_returns_written_span_example :
  ∃ para para_posi sents sents_posi,
    JsonFilePreprocess.generate (λ w, w) false true []
      JsonFilePreprocess.example_context JsonFilePreprocess.example_tags
      JsonFilePreprocess.example_tags (JsonFilePreprocess.mkSpan 1 0 1 2) ["q"%string] =
      inr (JsonFilePreprocess.Written para para_posi sents sents_posi ["q"%string]) ∧
    ProcessUtils.extract_ans para =
      Some (ProcessUtils.join " " (JsonFilePreprocess.slice para para_posi.1 para_posi.2)
            +:+ ProcessUtils.newline) ∧
    ProcessUtils.extract_ans sents =
      Some (ProcessUtils.join " " (JsonFilePreprocess.slice sents sents_posi.1 sents_posi.2)
            +:+ ProcessUtils.newline).
Proof.
  apply (extract_ans_returns_written_span (λ w, w) []
           JsonFilePreprocess.example_context JsonFilePreprocess.example_tags
           JsonFilePreprocess.example_tags (JsonFilePreprocess.mkSpan 1 0 1 2)
           ["q"%string]).
  - exists ["c"; "d"; "e"]%string, ["c"; "d"; "e"]%string. simpl.
    repeat split; (reflexivity || lia).
  - reflexivity.
  - reflexivity.
Defined.

(** X24. [check_src_tgt] answers [True] exactly when some word that is
    not a stop word occurs in both the source and the target; the order
    in which the overlap is visited does not matter. *)
Theorem check_src_tgt_finds_shared_content_word (src tgt stopwords : list string) :
  JsonFilePreprocess.check_src_tgt src tgt stopwords = true ↔
  ∃ word, word ∈ src ∧ word ∈ tgt ∧ word ∉ stopwords.
Proof.
  unfold JsonFilePreprocess.check_src_tgt. rewrite check_loop_true.
  split; intros (word & Hin & Hns).
  - apply elem_of_elements, elem_of_intersection in Hin as [H1 H2].
    apply elem_of_list_to_set in H1. apply elem_of_list_to_set in H2.
    by exists word.
  - destruct Hns as [H2 Hns]. exists word. split; [|done].
    apply elem_of_elements, elem_of_intersection.
    split; by apply elem_of_list_to_set.
Qed.
Section histogram.
Import ProcessUtils.

Lemma count_lengths_snoc answers (word_list : list string) :
  count_lengths (answers ++ [word_list]) =
  count_lengths answers ≫= λ total_cnt, bump total_cnt (length word_list).
Proof. unfold count_lengths. by rewrite foldl_app. Qed.

Lemma occurrences_snoc n answers (word_list : list string) :
  occurrences n (answers ++ [word_list]) =
  occurrences n answers + (if decide (length word_list = n) then 1 else 0).
Proof.
  unfold occurrences. rewrite filter_app, length_app, filter_cons, filter_nil.
  case_decide; simpl; lia.
Qed.

Lemma bump_Some (total_cnt : list Z) (ans_len : nat) :
  length total_cnt = 50%nat → (ans_len ≤ 50)%nat →
  bump total_cnt ans_len =
    Some (alter (Z.add 1) (if decide (ans_len = 0%nat) then 49%nat else (ans_len - 1)%nat)
                total_cnt).
Proof.
  intros Hl Hn. unfold bump, DecoderState.py_index. rewrite Hl.
  case_decide as H0.
  - subst. by rewrite bool_decide_eq_false_2, bool_decide_eq_true_2 by lia.
  - rewrite bool_decide_eq_true_2 by lia. simpl. do 2 f_equal. lia.
Qed.

Lemma bump_None (total_cnt : list Z) (ans_len : nat) :
  length total_cnt = 50%nat → (50 < ans_len)%nat → bump total_cnt ans_len = None.
Proof.
  intros Hl Hn. unfold bump, DecoderState.py_index. rewrite Hl.
  by rewrite !bool_decide_eq_false_2 by lia.
Qed.

Lemma count_lengths_length answers total_cnt :
  count_lengths answers = Some total_cnt → length total_cnt = 50%nat.
Proof.
  revert total_cnt. induction answers as [|word_list answers IH] using rev_ind;
    intros total_cnt.
  { intros [= <-]. done. }
  rewrite count_lengths_snoc. destruct (count_lengths answers) as [cnt|]; [|done].
  simpl. unfold bump. destruct (DecoderState.py_index _ _) as [k|]; [|done].
  simpl. intros [= <-]. rewrite length_alter. by apply IH.
Qed.
End histogram.

(** X25. When no answer has more than 50 words the histogram of the
    script is defined; bucket [n - 1] counts the answers of [n] words for
    [n] from 1 to 49, and the last bucket counts the answers of 50 words
    together with the empty answers, whose index [-1] wraps around. *)
Theorem count_lengths_puts_empty_answers_last (answers : list (list string)) :
  Forall (λ word_list, (length word_list ≤ 50)%nat) answers →
  ∃ total_cnt, ProcessUtils.count_lengths answers = Some total_cnt ∧
    length total_cnt = 50%nat ∧
    (∀ n : nat, (1 ≤ n ≤ 49)%nat →
       total_cnt !! (n - 1)%nat = Some (ProcessUtils.occurrences n answers)) ∧
    total_cnt !! 49%nat =
      Some (ProcessUtils.occurrences 50 answers + ProcessUtils.occurrences 0 answers).
Proof.
  induction answers as [|word_list answers IH] using rev_ind; intros Hall.
  { exists (replicate 50 0). split; [done|]. split; [done|]. split; [|done].
    intros n Hn. apply lookup_replicate_2. lia. }
  pose proof (proj1 (Forall_app _ _ _) Hall) as [Hall' Hw'].
  pose proof (proj1 (Forall_singleton _ _) Hw') as Hw. simpl in Hw.
  destruct (IH Hall') as (cnt & Hcnt & Hl & Hn & H49).
  rewrite count_lengths_snoc, Hcnt. cbn [mbind option_bind]. rewrite bump_Some by done.
  eexists. split; [done|]. split; [by rewrite length_alter|]. split.
  - intros n Hnr. rewrite occurrences_snoc.
    destruct (decide (length word_list = n)) as [Heq|Hne].
    + rewrite decide_False by lia. rewrite Heq.
      rewrite list_lookup_alter_eq, (Hn n Hnr). simpl. f_equal. lia.
    + rewrite list_lookup_alter_ne by (case_decide; lia).
      rewrite (Hn n Hnr). f_equal. lia.
  - rewrite !occurrences_snoc.
    destruct (decide (length word_list = 0%nat)) as [H0|H0].
    + rewrite list_lookup_alter_eq, H49. simpl. rewrite decide_False by lia. f_equal. lia.
    + destruct (decide (length word_list = 50%nat)) as [H50|H50].
      * rewrite H50. change (50 - 1)%nat with 49%nat.
        rewrite list_lookup_alter_eq, H49. simpl. f_equal. lia.
      * rewrite list_lookup_alter_ne by lia. rewrite H49. f_equal. lia.
Qed.

Lemma count_lengths_example :
  ∃ total_cnt,
    ProcessUtils.count_lengths [[]; ["a"%string]; []] = Some total_cnt ∧
    length total_cnt = 50%nat ∧
    (∀ n : nat, (1 ≤ n ≤ 49)%nat →
       total_cnt !! (n - 1)%nat =
         Some (ProcessUtils.occurrences n [[]; ["a"%string]; []])) ∧
    total_cnt !! 49%nat =
      Some (ProcessUtils.occurrences 50 [[]; ["a"%string]; []]
            + ProcessUtils.occurrences 0 [[]; ["a"%string]; []]).
Proof.
  apply (count_lengths_puts_empty_answers_last [[]; ["a"%string]; []]).
  repeat constructor; simpl; lia.
Defined.

(** X26. An answer of more than 50 words falls outside the 50 buckets:
    the histogram loop raises [IndexError]. *)
Theorem count_lengths_raises_on_long_answer (answers : list (list string))
    (word_list : list string) :
  word_list ∈ answers → (50 < length word_list)%nat →
  ProcessUtils.count_lengths answers = None.
Proof.
  intros Hin Hlong. induction answers as [|w answers IH] using rev_ind.
  { by apply elem_of_nil in Hin. }
  rewrite count_lengths_snoc.
  destruct (ProcessUtils.count_lengths answers) as [cnt|] eqn:Hcnt; [|done].
  simpl. apply elem_of_app in Hin as [Hin|Hin]; [by discriminate (IH Hin)|].
  apply list_elem_of_singleton in Hin as ->.
  apply bump_None; [|done]. by apply count_lengths_length in Hcnt.
Qed.

Lemma count_lengths_raises_example :
  ProcessUtils.count_lengths [replicate 51 "a"%string] = None.
Proof.
  apply (count_lengths_raises_on_long_answer [replicate 51 "a"%string]
           (replicate 51 "a"%string)).
  - by left.
  - simpl. lia.
Defined.
(** X27. [beam_update] relies on the beam width dividing the batch extent:
    when it does not, the view of the input feed as
    [a x beam_size x (br // beam_size) x d] has the wrong number of
    entries and [beam_update] raises, whatever the index and the
    positions are. *)
Theorem beam_update_raises_unless_beam_divides_batch {A}
    (st : DecoderState.RNNDecoderState A) (a br : nat) (idx : Z) (positions : list Z)
    (beam_size : Z) :
  (0 < a)%nat → Tensor.has_shape a br (DecoderState.input_feed st) →
  0 < beam_size → Z.of_nat br `mod` beam_size ≠ 0 →
  DecoderState.beam_update idx positions beam_size st = None.
Proof.
  intros Ha Hshape Hbeam Hmod. unfold DecoderState.beam_update.
  assert (DecoderState.beam_update_tensor idx positions beam_size
            (DecoderState.input_feed st) = None) as Hfeed.
  { unfold DecoderState.beam_update_tensor. rewrite (size1_shape a br) by done.
    rewrite bool_decide_eq_false_2; [done|].
    intros [_ Heq]. pose proof (Z.div_mod (Z.of_nat br) beam_size). lia. }
  destruct (mapM _ (DecoderState.hidden st)); simpl; [|done]. by rewrite Hfeed.
Qed.

Lemma beam_update_raises_example :
  DecoderState.beam_update 0 [0; 1] 2
    (DecoderState.mkState [[[10; 11; 20]]] [[30; 31; 40]] None) = None.
Proof.
  apply (beam_update_raises_unless_beam_divides_batch
           (DecoderState.mkState [[[10; 11; 20]]] [[30; 31; 40]] None) 1 3 0 [0; 1] 2).
  - lia.
  - split; [reflexivity|]. repeat constructor.
  - lia.
  - vm_compute. discriminate.
Defined.
(** X28. A standard decoder built with copy or coverage attention cannot
    run: its forward pass asserts that neither is set, so the decoder's
    [forward] and both models' [forward] raise on every input. *)
Theorem std_decoder_rejects_copy_and_coverage (self : Decoder.decoder) {Src : Type}
    (encoder : Src → list Z → option (Decoder.enc_state * list (list (list R))))
    (sel_encoder : Src * Src → list Z * list Z →
                   option (Decoder.enc_state * list (list (list R))))
    (multigpu : bool) (src ans : Src) (tgt : list (list (list Z)))
    (context : list (list (list R))) (st : DecoderState.RNNDecoderState (list R))
    (lengths ans_lengths : list Z)
    (dec_state : option (DecoderState.RNNDecoderState (list R))) :
  Decoder.kind self = Decoder.StdRNNDecoder →
  Decoder._copy self = true ∨ Decoder._coverage self = true →
  Decoder.decoder_forward self tgt context st lengths = None ∧
  Decoder.NMTModel_forward self encoder multigpu src tgt lengths dec_state = None ∧
  Decoder.SelEncNMTModel_forward self sel_encoder multigpu src ans tgt
    lengths ans_lengths dec_state = None.
Proof.
  intros Hkind Hflags.
  assert (∀ input ctx s l, Decoder.decoder_forward self input ctx s l = None) as Hfwd.
  { intros input ctx s l. unfold Decoder.decoder_forward, Decoder._run_forward_pass,
      Decoder.std_run_forward_pass. rewrite Hkind.
    case_bool_decide; [|done].
    by destruct Hflags as [-> | ->]; destruct (Decoder._copy self). }
  assert (∀ t enc_hidden ctx l,
    Decoder.run_decoder self multigpu t enc_hidden ctx l dec_state = None) as Hrun.
  { intros t enc_hidden ctx l. unfold Decoder.run_decoder.
    destruct (Decoder.init_decoder_state self ctx enc_hidden); [|done]. simpl.
    by rewrite Hfwd. }
  split; [done|].
  unfold Decoder.NMTModel_forward, Decoder.SelEncNMTModel_forward. split.
  - destruct (encoder src lengths) as [[enc_hidden ctx]|]; [|done]. simpl. apply Hrun.
  - destruct (sel_encoder (src, ans) (lengths, ans_lengths)) as [[enc_hidden ctx]|];
      [|done]. simpl. apply Hrun.
Qed.

Lemma std_decoder_rejects_copy_example :
  Decoder.decoder_forward
    (Decoder.mkDecoder Decoder.StdRNNDecoder false 1 true false
       (λ _, []) (λ x h, (x, h)) (λ x h, (x, h)) (λ q _ _, (q, q))
       (λ q _ _, (q, q)) (λ q _ _, (q, q)) None (λ x, x))
    [[[7]]] [[[0%R]]] (DecoderState.mkState [[[[0%R]]]] [[[0%R]]] None) [1] = None ∧
  Decoder.NMTModel_forward
    (Decoder.mkDecoder Decoder.StdRNNDecoder false 1 true false
       (λ _, []) (λ x h, (x, h)) (λ x h, (x, h)) (λ q _ _, (q, q))
       (λ q _ _, (q, q)) (λ q _ _, (q, q)) None (λ x, x))
    Decoder.example_encoder false [[[5]]] [[[7]]] [1] None = None ∧
  Decoder.SelEncNMTModel_forward
    (Decoder.mkDecoder Decoder.StdRNNDecoder false 1 true false
       (λ _, []) (λ x h, (x, h)) (λ x h, (x, h)) (λ q _ _, (q, q))
       (λ q _ _, (q, q)) (λ q _ _, (q, q)) None (λ x, x))
    Decoder.example_sel_encoder false [[[5]]] [[[5]]] [[[7]]] [1] [1] None = None.
Proof.
  apply (std_decoder_rejects_copy_and_coverage
           (Decoder.mkDecoder Decoder.StdRNNDecoder false 1 true false
              (λ _, []) (λ x h, (x, h)) (λ x h, (x, h)) (λ q _ _, (q, q))
              (λ q _ _, (q, q)) (λ q _ _, (q, q)) None (λ x, x))
           Decoder.example_encoder Decoder.example_sel_encoder false
           [[[5]]] [[[5]]] [[[7]]] [[[0%R]]]
           (DecoderState.mkState [[[[0%R]]]] [[[0%R]]] None) [1] [1] None).
  - reflexivity.
  - left. reflexivity.
Defined.
